(** * trace-debugger: spans, traces, the bounded trace store and the tracer

    A shallow embedding of the classes [Span], [Trace], [TraceStorage],
    [MetricsCollector] and [Tracer] of [src/core], followed by the
    properties of the specification that hold of them (C1 to C10) and by
    further properties of the code (X1 to X20).

    Modelling choices.
    - JavaScript objects are shared by reference.  [Span] objects live in a
      span heap (a list indexed by allocation order); [Trace] objects live in
      a trace heap.  [Trace.rootSpan], [Trace.currentSpan], the entries of
      [Trace.allSpans] and of [Span.children] are references into the span
      heap, so a mutation through the cursor is seen through [allSpans].
    - A method of a span or a trace is a transformer of the receiving object
      ([this]); a call through a reference is [Span.update] on the heap.
      A reference that is not allocated makes an operation return [None];
      the well-formedness lemmas show that this never happens for states
      built through the API.
    - [Date.now()], [Math.random()] and [process.memoryUsage()] are
      ambient: every reading is an explicit argument of the operation that
      performs it.  [Math.random()] enters identifiers only through its
      decimal rendering, which is taken as a string.
    - Numbers.  Clock readings are integers (milliseconds); they, their
      differences and the sums of these are in [Z], where a double holds
      them without error up to [2^53].  A quotient is a double:
      [round_double] gives the double nearest to the exact value.
    - An ES [Map] iterates in insertion order and [set] on a present key
      keeps that key's position: [JSMap] is an association list.
    - A plain object used as a map ([Span.attributes]) is its own
      properties and its prototype link, which a write to [__proto__] goes
      through.  A key of the config object can be absent, or present with
      the value [undefined]: the spread in the constructor of [Tracer] tells
      them apart.
    - [Span.toJSON] and [Trace.visualize] recurse through [children]; the
      recursion takes fuel, the call depth that the engine has left.
      Running out of it is the [RangeError] of the engine, which is what a
      span reachable from itself ends in.  Memory and the length of strings
      are taken not to run out.
    - [Tracer.exportTrace] writes to the console, which is not part of the
      state, but what it evaluates on the way can throw: [trace.visualize()]
      (the [RangeError] above) and [MetricsCollector.analyzeTrace] (a
      [TypeError] when [allSpans] is empty).  [Tracer.finishTrace] calls it
      last, so it takes the call depth and the heap sample as arguments,
      and such an error leaves it with the trace already finished, stored
      and taken off the active traces.  The number formatting that only
      feeds the console ([MetricsCollector.printMetrics],
      [TraceStorage.getStats]) is left out.
    - One call of the wrapper made by [Tracer.instrument] is its statements
      before and after [await fn(...args)], with, in between, the calls that
      [fn] and other tasks make meanwhile; a rejection carries an [Error]
      or a value that is not an object.
    - Strings are byte sequences; the code only concatenates them.
    - [end] is a keyword: [Span.end] is [Span.end_], and the status
      ['error'] of a span is [Span.error_]. *)

From Stdlib Require Import ZArith QArith Qround Qabs Qpower Lqa SpecFloat.
From stdpp Require Import base option list strings pretty gmap.

Open Scope Z_scope.

(** ** JavaScript values *)

(** [Error] objects; every object is truthy. *)
Record Error := { message : string }.

#[global] Instance Error_eq_dec : EqDecision Error.
Proof. solve_decision. Defined.

(** The values stored under [attributes: Record<string, any>]. *)
Inductive JSValue :=
  | VUndefined
  | VNull
  | VBool (b : bool)
  | VNum (z : Z)
  | VStr (s : string).

(** A plain object used as a map, [Record<string, any>]: its own
    properties, and whether its prototype is still [Object.prototype].
    [Object.prototype] has one accessor property, [__proto__].  As long as
    the object inherits it, [o["__proto__"] = v] runs its setter and adds no
    property: [null] takes the prototype away, and every other value that
    is not an object is ignored.  Any other write, and a write to
    "__proto__" once the prototype is gone, makes or changes an own
    property. *)
Record Attributes := {
  own : gmap string JSValue;
  inherits : bool;
}.

(** [{}] *)
#[global] Instance Attributes_empty : Empty Attributes :=
  {| own := ∅; inherits := true |}.

(** [o[key]] for a key that [Object.prototype] does not have. *)
#[global] Instance Attributes_lookup : Lookup string JSValue Attributes :=
  λ key o, own o !! key.

(** [o[key] = value] *)
Definition set_property (o : Attributes) (key : string) (value : JSValue)
    : Attributes :=
  if inherits o && String.eqb key "__proto__" then
    match value with
    | VNull => {| own := own o; inherits := false |}
    | _ => o
    end
  else {| own := <[key := value]> (own o); inherits := inherits o |}.

(** [ToBoolean]. *)
Definition truthy (v : JSValue) : bool :=
  match v with
  | VUndefined | VNull => false
  | VBool b => b
  | VNum z => negb (z =? 0)
  | VStr s => negb (String.eqb s "")
  end.

(** [if (x)] for [x?: string]: [undefined] and the empty string are falsy. *)
Definition truthy_string (o : option string) : bool :=
  match o with
  | Some s => negb (String.eqb s "")
  | None => false
  end.

(** [x || 0] for [x?: number]: [undefined] and [0] both give [0]. *)
Definition or0 (o : option Z) : Z :=
  match o with
  | Some d => if d =? 0 then 0 else d
  | None => 0
  end.

(** *** Division of numbers

    A JavaScript number is an IEEE 754 double.  The integers of the code
    (clock readings, their differences and sums, lengths) are doubles
    without error; the quotient of two of them is rounded: [a / b] is the
    double nearest to the exact quotient, the one with the even significand
    when two are as near.  A double other than 0 is [m * 2^e] with
    [2^52 <= |m| < 2^53]; the exponent is not bounded here, the quotient of
    two integers of the code being far from the ends of its range. *)

(** Rounding to the nearest integer, to the even one half way. *)
Definition round_half_even (q : Q) : Z :=
  let f := Qfloor q in
  match (q - inject_Z f ?= 1 # 2)%Q with
  | Lt => f
  | Gt => f + 1
  | Eq => if Z.even f then f else f + 1
  end.

(** For [0 < q], the [l] with [2^l <= q < 2^(l+1)]. *)
Definition binade (q : Q) : Z :=
  let l := Z.log2 (Qnum q) - Z.log2 (Z.pos (Qden q)) in
  if Qle_bool (2 ^ l) q then l else l - 1.

Definition round_double_pos (q : Q) : Q :=
  let e := binade q - 52 in
  (inject_Z (round_half_even (q / 2 ^ e)) * 2 ^ e)%Q.

(** The double nearest to [q]. *)
Definition round_double (q : Q) : Q :=
  match (q ?= 0)%Q with
  | Eq => 0%Q
  | Gt => round_double_pos q
  | Lt => (- round_double_pos (- q))%Q
  end.

(** The same division in the Standard Library's model of IEEE 754
    ([SpecFloat]), for comparison. *)
Definition Z2SF (z : Z) : spec_float := binary_normalize 53 1024 z 0 false.

Definition SF2Q (x : spec_float) : option Q :=
  match x with
  | S754_zero _ => Some 0%Q
  | S754_finite s m e =>
      Some ((if s then -1 else 1) * inject_Z (Z.pos m) * 2 ^ e)%Q
  | S754_infinity _ | S754_nan => None
  end.

Definition SFdiv_agrees (a : Z) (b : positive) : bool :=
  match SF2Q (SFdiv 53 1024 (Z2SF a) (Z2SF (Z.pos b))) with
  | Some q => Qeq_bool q (round_double (a # b))
  | None => false
  end.

(** [String.prototype.includes]. *)
Definition includes (s sub : string) : bool :=
  match String.index 0 sub s with
  | Some _ => true
  | None => false
  end.

(** Outcome of a method that can [throw]. *)
Inductive Completion (A : Type) :=
  | Normal (a : A)
  | Throw (e : Error).
Arguments Normal {A} a.
Arguments Throw {A} e.

Abbreviation ref := nat (only parsing).

(** ** ES Map with string keys *)

Module JSMap.

Abbreviation t V := (list (string * V)) (only parsing).

Section ops.
Context {V : Type}.

Fixpoint get (m : t V) (k : string) : option V :=
  match m with
  | [] => None
  | (k', v) :: m' => if decide (k' = k) then Some v else get m' k
  end.

(** [set] overwrites in place when the key is present and appends
    otherwise. *)
Fixpoint set (m : t V) (k : string) (v : V) : t V :=
  match m with
  | [] => [(k, v)]
  | (k', v') :: m' =>
      if decide (k' = k) then (k', v) :: m' else (k', v') :: set m' k v
  end.

Fixpoint delete (m : t V) (k : string) : t V :=
  match m with
  | [] => []
  | (k', v) :: m' => if decide (k' = k) then m' else (k', v) :: delete m' k
  end.

Definition keys (m : t V) : list string := fst <$> m.
Definition values (m : t V) : list V := snd <$> m.
Definition size (m : t V) : nat := length m.

(** [m.keys().next().value] *)
Definition first_key (m : t V) : option string := head (keys m).

(** [m.delete(k)] where [k] may be [undefined]: no string key equals
    [undefined], so nothing is removed. *)
Definition delete_opt (m : t V) (k : option string) : t V :=
  match k with
  | Some k => delete m k
  | None => m
  end.
End ops.

End JSMap.

(** ** Span.ts *)

Module Span.

Inductive Status := started | completed | error_.

#[global] Instance Status_eq_dec : EqDecision Status.
Proof. solve_decision. Defined.

Record t := mk {
  id : string;
  traceId : string;
  name : string;
  startTime : Z;
  endTime : option Z;
  duration : option Z;
  status : Status;
  error : option Error;
  attributes : Attributes;
  children : list ref;
  parentId : option string;
}.

(** [`span-${Date.now()}-${Math.random()}`] *)
Definition make_id (now : Z) (rnd : string) : string :=
  "span-" +:+ pretty now +:+ "-" +:+ rnd.

(** The constructor reads the clock twice: once for the identifier and
    once for [startTime]. *)
Definition new (traceId name : string) (parentId : option string)
    (idNow : Z) (rnd : string) (startNow : Z) : t :=
  {| id := make_id idNow rnd;
     traceId := traceId;
     name := name;
     startTime := startNow;
     endTime := None;
     duration := None;
     status := started;
     error := None;
     attributes := ∅;
     children := [];
     parentId := parentId |}.

Definition addChild (this : t) (span : ref) : t :=
  {| id := id this; traceId := traceId this; name := name this;
     startTime := startTime this; endTime := endTime this;
     duration := duration this; status := status this;
     error := error this; attributes := attributes this;
     children := children this ++ [span];
     parentId := parentId this |}.

Definition end_ (this : t) (error : option Error) (now : Z) : t :=
  {| id := id this; traceId := traceId this; name := name this;
     startTime := startTime this;
     endTime := Some now;
     duration := Some (now - startTime this);
     status := match error with Some _ => error_ | None => completed end;
     error := error;
     attributes := attributes this;
     children := children this;
     parentId := parentId this |}.

Definition setAttribute (this : t) (key : string) (value : JSValue) : t :=
  {| id := id this; traceId := traceId this; name := name this;
     startTime := startTime this; endTime := endTime this;
     duration := duration this; status := status this;
     error := error this;
     attributes := set_property (attributes this) key value;
     children := children this;
     parentId := parentId this |}.

(** *** The span heap *)

Abbreviation heap := (list t) (only parsing).

Definition alloc (h : heap) (s : t) : heap * ref := (h ++ [s], length h).

(** A method call through a reference. *)
Definition update (h : heap) (r : ref) (f : t → t) : option heap :=
  s ← h !! r; Some (<[r := f s]> h).

(** The operations of the class, for runs over a heap. *)
Inductive op :=
  | New (traceId name : string) (parentId : option string)
        (idNow : Z) (rnd : string) (startNow : Z)
  | AddChild (r : ref) (span : ref)
  | End (r : ref) (error : option Error) (now : Z)
  | SetAttribute (r : ref) (key : string) (value : JSValue).

Definition step (h : heap) (o : op) : option heap :=
  match o with
  | New traceId name parentId idNow rnd startNow =>
      Some (alloc h (new traceId name parentId idNow rnd startNow)).1
  | AddChild r span => update h r (λ s, addChild s span)
  | End r error now => update h r (λ s, end_ s error now)
  | SetAttribute r key value => update h r (λ s, setAttribute s key value)
  end.

Fixpoint run (h : heap) (ops : list op) : option heap :=
  match ops with
  | [] => Some h
  | o :: ops => h' ← step h o; run h' ops
  end.

(** *** [toJSON] *)

(** The object [toJSON] returns: a tree. *)
#[local] Unset Elimination Schemes.
Inductive JSON :=
  | json (id name : string) (duration : option Z) (status : Status)
         (error : option string) (attributes : Attributes)
         (children : list JSON).
#[local] Set Elimination Schemes.

(** [error: this.error?.message] and [children: this.children.map(...)]. *)
Fixpoint toJSON (fuel : nat) (h : heap) (r : ref) : option JSON :=
  match fuel with
  | O => None
  | S fuel =>
      this ← h !! r;
      children ← mapM (toJSON fuel h) (children this);
      Some (json (id this) (name this) (duration this) (status this)
                 (message <$> error this) (attributes this) children)
  end.

End Span.

(** ** Trace.ts *)

Module Trace.

Inductive Status := running | completed | failed.

#[global] Instance Status_eq_dec : EqDecision Status.
Proof. solve_decision. Defined.

Record t := mk {
  traceId : string;
  startTime : Z;
  endTime : option Z;
  duration : option Z;
  rootSpan : ref;
  allSpans : list ref;
  status : Status;
  currentSpan : ref;
}.

Definition with_cursor (this : t) (allSpans : list ref) (currentSpan : ref) : t :=
  {| traceId := traceId this; startTime := startTime this;
     endTime := endTime this; duration := duration this;
     rootSpan := rootSpan this; allSpans := allSpans;
     status := status this; currentSpan := currentSpan |}.

(** The constructor: [now] is the reading for [startTime]; the other
    three readings go to the root span's constructor. *)
Definition new (h : Span.heap) (traceId rootSpanName : string)
    (now idNow : Z) (rnd : string) (startNow : Z) : Span.heap * t :=
  let '(h', root) :=
    Span.alloc h (Span.new traceId rootSpanName None idNow rnd startNow) in
  (h', {| traceId := traceId; startTime := now;
          endTime := None; duration := None;
          rootSpan := root; allSpans := [root];
          status := running; currentSpan := root |}).

Definition startSpan (h : Span.heap) (this : t) (name : string)
    (idNow : Z) (rnd : string) (startNow : Z) : option (Span.heap * t * ref) :=
  cur ← h !! currentSpan this;
  let '(h1, span) :=
    Span.alloc h (Span.new (traceId this) name (Some (Span.id cur))
                           idNow rnd startNow) in
  h2 ← Span.update h1 (currentSpan this) (λ c, Span.addChild c span);
  Some (h2, with_cursor this (allSpans this ++ [span]) span, span).

(** [allSpans.find((s) => s.id === pid)] *)
Definition find_by_id (h : Span.heap) (spans : list ref) (pid : string)
    : option ref :=
  snd <$> list_find (λ r, Span.id <$> h !! r = Some pid) spans.

Definition endSpan (h : Span.heap) (this : t) (error : option Error)
    (now : Z) : option (Span.heap * t) :=
  h1 ← Span.update h (currentSpan this) (λ c, Span.end_ c error now);
  cur ← h1 !! currentSpan this;
  if truthy_string (Span.parentId cur) then
    match Span.parentId cur ≫= find_by_id h1 (allSpans this) with
    | Some parent => Some (h1, with_cursor this (allSpans this) parent)
    | None => Some (h1, this)
    end
  else Some (h1, this).

(** [finish] only uses [error] to choose the status. *)
Definition finish (this : t) (error : option Error) (now : Z) : t :=
  {| traceId := traceId this; startTime := startTime this;
     endTime := Some now;
     duration := Some (now - startTime this);
     rootSpan := rootSpan this; allSpans := allSpans this;
     status := match error with Some _ => failed | None => completed end;
     currentSpan := currentSpan this |}.

(** [(s.duration || 0)] read through a reference; a reference that is not
    allocated reads as a span without a duration. *)
Definition duration_or0 (h : Span.heap) (r : ref) : Z :=
  or0 (h !! r ≫= Span.duration).

(** [thresholdMs: number = 100] *)
Definition getSlowOperations (h : Span.heap) (this : t)
    (thresholdMs : option Z) : list ref :=
  let thresholdMs := default 100 thresholdMs in
  filter (λ r, thresholdMs < duration_or0 h r) (allSpans this).

Definition getSpanTree (fuel : nat) (h : Span.heap) (this : t)
    : option Span.JSON :=
  Span.toJSON fuel h (rootSpan this).

(** ['  '.repeat(level)] *)
Definition indentation (level : nat) : string :=
  String.concat "" (replicate level "  ").

(** [`${d}`] for [d?: number], an integer number of milliseconds. *)
Definition show_duration (d : option Z) : string :=
  match d with
  | Some d => pretty d
  | None => "undefined"
  end.

Definition newline : string := String (Ascii.ascii_of_nat 10) "".

(** [`${prefix}${span.name} (${span.duration}ms)\n`] *)
Definition line (level : nat) (span : Span.t) : string :=
  (indentation level +:+ "├─ ") +:+ Span.name span +:+ " ("
  +:+ show_duration (Span.duration span) +:+ "ms)" +:+ newline.

(** [formatSpan] appends to the variable [output] of [visualize]: the
    text so far goes in and the longer text comes out. *)
Fixpoint formatSpan (fuel : nat) (h : Span.heap) (output : string)
    (span : ref) (level : nat) : option string :=
  match fuel with
  | O => None
  | S fuel =>
      s ← h !! span;
      (fix forEach (children : list ref) (output : string) : option string :=
         match children with
         | [] => Some output
         | child :: children =>
             output ← formatSpan fuel h output child (S level);
             forEach children output
         end)
        (Span.children s) (output +:+ line level s)
  end.

(** The parameter [indent] is not used. *)
Definition visualize (fuel : nat) (h : Span.heap) (this : t) : option string :=
  formatSpan fuel h "" (rootSpan this) 0.

(** Calls made on one trace. *)
Inductive op :=
  | StartSpan (name : string) (idNow : Z) (rnd : string) (startNow : Z)
  | EndSpan (error : option Error) (now : Z).

Definition step (st : Span.heap * t) (o : op) : option (Span.heap * t) :=
  match o with
  | StartSpan name idNow rnd startNow =>
      fst <$> startSpan st.1 st.2 name idNow rnd startNow
  | EndSpan error now => endSpan st.1 st.2 error now
  end.

Fixpoint run (st : Span.heap * t) (ops : list op) : option (Span.heap * t) :=
  match ops with
  | [] => Some st
  | o :: ops => st' ← step st o; run st' ops
  end.

End Trace.

(** The heap of a program that uses the tracer: span objects and trace
    objects. *)
Record Heap := { spans : Span.heap; traces : list Trace.t }.

(** ** TraceStorage.ts *)

Module TraceStorage.

Record t := mk {
  traces : JSMap.t ref;
  maxTraces : nat;
}.

Definition new : t := {| traces := []; maxTraces := 1000 |}.

Definition store (th : list Trace.t) (this : t) (trace : ref) : option t :=
  tr ← th !! trace;
  let m := JSMap.set (traces this) (Trace.traceId tr) trace in
  if decide (maxTraces this < JSMap.size m)%nat then
    Some {| traces := JSMap.delete_opt m (JSMap.first_key m);
            maxTraces := maxTraces this |}
  else
    Some {| traces := m; maxTraces := maxTraces this |}.

Definition get (this : t) (traceId : string) : option ref :=
  JSMap.get (traces this) traceId.

Definition getAll (this : t) : list ref := JSMap.values (traces this).

(** [thresholdMs: number = 1000] *)
Definition getSlowTraces (th : list Trace.t) (this : t)
    (thresholdMs : option Z) : list ref :=
  let thresholdMs := default 1000 thresholdMs in
  filter (λ r, thresholdMs < or0 (th !! r ≫= Trace.duration))
         (JSMap.values (traces this)).

Definition clear (this : t) : t :=
  {| traces := []; maxTraces := maxTraces this |}.

(** A history of [store] calls; each call sees the trace heap of its
    moment. *)
Fixpoint run (this : t) (calls : list (list Trace.t * ref)) : option t :=
  match calls with
  | [] => Some this
  | (th, trace) :: calls => this' ← store th this trace; run this' calls
  end.

End TraceStorage.

(** ** MetricsCollector.ts *)

Module MetricsCollector.

Record Operation := { name : string; duration : Z }.

Record PerformanceMetrics := {
  totalDuration : Z;
  slowestOperation : Operation;
  operationCount : nat;
  averageOperationTime : Q;
  databaseQueries : list (JSValue * Z);
  memoryUsed : Q;
}.

(** The [forEach] that keeps the slowest span seen so far. *)
Definition slowest (spans : list Span.t) (first : Span.t) : Span.t :=
  fold_left
    (λ slowestSpan span,
       if bool_decide (or0 (Span.duration slowestSpan) < or0 (Span.duration span))
       then span else slowestSpan)
    spans first.

(** The [reduce] that adds the durations up, from [0]. *)
Definition totalTime (spans : list Span.t) : Z :=
  fold_left (λ sum span, sum + or0 (Span.duration span)) spans 0.

(** [span.attributes.query || span.name] *)
Definition query_label (span : Span.t) : JSValue :=
  match Span.attributes span !! "query" with
  | Some v => if truthy v then v else VStr (Span.name span)
  | None => VStr (Span.name span)
  end.

(** [heapUsed] is the sample of [process.memoryUsage()].  The quotients
    are doubles, given by their values.  Reading [slowestSpan.name] when
    [allSpans] is empty is a [TypeError]: the result is [None]. *)
Definition analyzeTrace (h : Span.heap) (trace : Trace.t) (heapUsed : Z)
    : option PerformanceMetrics :=
  allSpans ← mapM (λ r, h !! r) (Trace.allSpans trace);
  slowestSpan ← (λ first, slowest allSpans first) <$> head allSpans;
  let totalTime := totalTime allSpans in
  let averageTime :=
    round_double (totalTime # Pos.of_nat (length allSpans)) in
  let dbQueries :=
    (λ span, (query_label span, or0 (Span.duration span))) <$>
    filter (λ span, includes (Span.name span) "database"
                    || includes (Span.name span) "query") allSpans in
  Some {| totalDuration := or0 (Trace.duration trace);
          slowestOperation :=
            {| name := Span.name slowestSpan;
               duration := or0 (Span.duration slowestSpan) |};
          operationCount := length allSpans;
          averageOperationTime := averageTime;
          databaseQueries := dbQueries;
          memoryUsed :=
            round_double (round_double (heapUsed # 1024) / 1024) |}.

End MetricsCollector.

(** ** Tracer.ts *)

Module Tracer.

Inductive ExportTarget := console | jaeger.

#[global] Instance ExportTarget_eq_dec : EqDecision ExportTarget.
Proof. solve_decision. Defined.

(** The config object.  A key that the type marks with [?] is absent
    ([None]), or there with the value [undefined] ([Some None]), or there
    with a value. *)
Record TracerConfig := {
  serviceName : string;
  exportTo : option (option ExportTarget);
  jaegerEndpoint : option (option string);
  captureMetrics : option (option bool);
  sampleRate : option (option Q);
}.

Record t := mk {
  config : TracerConfig;
  storage : TraceStorage.t;
  activeTraces : JSMap.t ref;
}.

(** [{exportTo: 'console', captureMetrics: true, sampleRate: 1,
    ...config}]: a key of [config] replaces the default, also when its
    value is [undefined]. *)
Definition new (config : TracerConfig) : t :=
  {| config :=
       {| serviceName := serviceName config;
          exportTo := Some (default (Some console) (exportTo config));
          jaegerEndpoint := jaegerEndpoint config;
          captureMetrics := Some (default (Some true) (captureMetrics config));
          sampleRate := Some (default (Some 1%Q) (sampleRate config)) |};
     storage := TraceStorage.new;
     activeTraces := [] |}.

(** [`trace-${Date.now()}-${Math.random()}`] *)
Definition make_id (now : Z) (rnd : string) : string :=
  "trace-" +:+ pretty now +:+ "-" +:+ rnd.

Definition startTrace (w : Heap) (this : t) (name : string)
    (traceNow : Z) (traceRnd : string)
    (now idNow : Z) (rnd : string) (startNow : Z) : Heap * t * ref :=
  let traceId := make_id traceNow traceRnd in
  let '(sh, obj) := Trace.new (spans w) traceId name now idNow rnd startNow in
  let trace := length (traces w) in
  ({| spans := sh; traces := traces w ++ [obj] |},
   {| config := config this; storage := storage this;
      activeTraces := JSMap.set (activeTraces this) traceId trace |},
   trace).

(** [Array.from(this.activeTraces.values())[0]] *)
Definition first_active (this : t) : option ref :=
  head (JSMap.values (activeTraces this)).

Definition startSpan (w : Heap) (this : t) (name : string)
    (traceId : option string) (idNow : Z) (rnd : string) (startNow : Z)
    : option (Heap * Completion ref) :=
  let trace :=
    if truthy_string traceId
    then traceId ≫= JSMap.get (activeTraces this)
    else first_active this in
  match trace with
  | None => Some (w, Throw {| message := "No active trace" |})
  | Some trace =>
      obj ← traces w !! trace;
      '(sh, obj', span) ← Trace.startSpan (spans w) obj name idNow rnd startNow;
      Some ({| spans := sh; traces := <[trace := obj']> (traces w) |},
            Normal span)
  end.

Definition endSpan (w : Heap) (this : t) (error : option Error) (now : Z)
    : option (Heap * Completion unit) :=
  match first_active this with
  | None => Some (w, Throw {| message := "No active trace" |})
  | Some trace =>
      obj ← traces w !! trace;
      '(sh, obj') ← Trace.endSpan (spans w) obj error now;
      Some ({| spans := sh; traces := <[trace := obj']> (traces w) |},
            Normal ())
  end.

(** [RangeError: Maximum call stack size exceeded]. *)
Definition stack_overflow : Error :=
  {| message := "Maximum call stack size exceeded" |}.

(** The [TypeError] of reading [slowestSpan.name] when there is no span. *)
Definition no_span_to_name : Error :=
  {| message := "Cannot read properties of undefined (reading 'name')" |}.

(** [exportTrace] prints; what it prints is not kept, whether its calls
    return is.  [stack] is the depth of calls that the engine still allows
    when [visualize] is called: a recursion of [formatSpan] that goes
    deeper, or does not end, ends in a [RangeError].  [heapUsed] is the
    reading [analyzeTrace] takes; [printMetrics] only prints. *)
Definition exportTrace (w : Heap) (this : t) (trace : ref)
    (stack : nat) (heapUsed : Z) : option (Completion unit) :=
  obj ← traces w !! trace;
  if decide (mjoin (exportTo (config this)) = Some console) then
    match Trace.visualize stack (spans w) obj with
    | None => Some (Throw stack_overflow)
    | Some _ =>
        if decide (mjoin (captureMetrics (config this)) = Some true) then
          match MetricsCollector.analyzeTrace (spans w) obj heapUsed with
          | None => Some (Throw no_span_to_name)
          | Some _ => Some (Normal ())
          end
        else Some (Normal ())
    end
  else Some (Normal ()).

(** The trace is finished, stored and taken from the active traces before
    [exportTrace] runs: an error thrown there leaves all that done. *)
Definition finishTrace (w : Heap) (this : t) (traceId : string)
    (error : option Error) (now : Z) (stack : nat) (heapUsed : Z)
    : option (Heap * t * Completion ref) :=
  match JSMap.get (activeTraces this) traceId with
  | None =>
      Some (w, this, Throw {| message := "Trace not found: " +:+ traceId |})
  | Some trace =>
      obj ← traces w !! trace;
      let w1 := {| spans := spans w;
                   traces := <[trace := Trace.finish obj error now]> (traces w) |} in
      storage' ← TraceStorage.store (traces w1) (storage this) trace;
      let this' := {| config := config this; storage := storage';
                      activeTraces := JSMap.delete (activeTraces this) traceId |} in
      exported ← exportTrace w1 this' trace stack heapUsed;
      Some (w1, this',
            match exported with
            | Normal _ => Normal trace
            | Throw e => Throw e
            end)
  end.

Definition getTrace (this : t) (traceId : string) : option ref :=
  TraceStorage.get (storage this) traceId.

Definition getSlowTraces (w : Heap) (this : t) (threshold : option Z)
    : list ref :=
  TraceStorage.getSlowTraces (traces w) (storage this) threshold.

End Tracer.

(** * Properties *)

(** ** Small facts about the JavaScript helpers *)

Lemma or0_Some d : or0 (Some d) = d.
Proof. simpl. destruct (Z.eqb_spec d 0); lia. Qed.

Lemma truthy_string_Some s : s ≠ "" → truthy_string (Some s) = true.
Proof.
  intros Hs. simpl. destruct (String.eqb_spec s ""); [congruence | done].
Qed.

Lemma make_id_nonempty now rnd : Span.make_id now rnd ≠ "".
Proof. unfold Span.make_id. simpl. discriminate. Qed.

(** A write to [__proto__] adds no attribute as long as the prototype is
    there; [null] takes the prototype away, and then it does. *)
Example setAttribute_proto_key :
  let s := Span.new "trace-1-0.5" "GET /users" None 1 "0.25" 1 in
  let s' := Span.setAttribute s "__proto__" VNull in
  Span.setAttribute s "__proto__" (VStr "x") = s
  ∧ Span.attributes s' !! "__proto__" = None
  ∧ Span.attributes (Span.setAttribute s' "__proto__" (VStr "x")) !! "__proto__"
    = Some (VStr "x")
  ∧ Span.attributes (Span.setAttribute s "query" (VStr "select 1")) !! "query"
    = Some (VStr "select 1").
Proof. by vm_compute. Qed.

(** ** The span heap *)

Lemma update_is_Some h r f :
  (r < length h)%nat → is_Some (Span.update h r f).
Proof.
  intros Hr. unfold Span.update.
  destruct (lookup_lt_is_Some_2 h r Hr) as [s ->]. simpl. eauto.
Qed.

Lemma update_inv h r f h' :
  Span.update h r f = Some h' →
  ∃ s, h !! r = Some s ∧ h' = <[r := f s]> h.
Proof.
  unfold Span.update. destruct (h !! r) as [s|] eqn:E; simpl; [|done].
  intros [= <-]. eauto.
Qed.

Lemma update_length h r f h' :
  Span.update h r f = Some h' → length h' = length h.
Proof.
  intros (s & _ & ->)%update_inv. apply length_insert.
Qed.

(** ** C5: duration and status of a span *)

(** [duration] is defined exactly when the span has left [started], and
    then it is [endTime - startTime]. *)
Definition duration_inv (s : Span.t) : Prop :=
  (is_Some (Span.duration s) ↔ Span.status s ≠ Span.started)
  ∧ (Span.status s ≠ Span.started →
     ∃ e, Span.endTime s = Some e
          ∧ Span.duration s = Some (e - Span.startTime s)).

Lemma duration_inv_new traceId name parentId idNow rnd startNow :
  duration_inv (Span.new traceId name parentId idNow rnd startNow).
Proof.
  split; simpl; [|done]. split; [intros [? [=]] | done].
Qed.

Lemma duration_inv_addChild s span :
  duration_inv s → duration_inv (Span.addChild s span).
Proof. by intros [H1 H2]. Qed.

Lemma duration_inv_setAttribute s key value :
  duration_inv s → duration_inv (Span.setAttribute s key value).
Proof. by intros [H1 H2]. Qed.

Lemma duration_inv_end s error now : duration_inv (Span.end_ s error now).
Proof.
  split; simpl.
  - split; [by destruct error | eauto].
  - eauto.
Qed.

Lemma duration_inv_update h r f h' :
  (∀ s, duration_inv s → duration_inv (f s)) →
  Forall duration_inv h → Span.update h r f = Some h' →
  Forall duration_inv h'.
Proof.
  intros Hf Hh (s & Hs & ->)%update_inv.
  apply Forall_insert; [done|].
  apply Hf. by eapply Forall_lookup_1.
Qed.

Lemma duration_inv_step h o h' :
  Forall duration_inv h → Span.step h o = Some h' → Forall duration_inv h'.
Proof.
  intros Hh. destruct o; simpl.
  - intros [= <-]. apply Forall_app. split; [done|].
    apply Forall_singleton, duration_inv_new.
  - apply duration_inv_update; [|done]. intros; by apply duration_inv_addChild.
  - apply duration_inv_update; [|done]. intros; by apply duration_inv_end.
  - apply duration_inv_update; [|done].
    intros; by apply duration_inv_setAttribute.
Qed.

(** C5.  In every heap built from the empty heap by span operations
    (construction, [addChild], [setAttribute], [end]), every span has a
    duration if and only if its status is not [started], and a span whose
    status is [completed] or [error] has [duration = endTime - startTime].
    Each operation keeps this: the statement holds after every prefix of the
    run. *)
Theorem C5_duration_iff_not_started (ops : list Span.op) (h : Span.heap) :
  Span.run [] ops = Some h →
  ∀ r s, h !! r = Some s →
    (is_Some (Span.duration s) ↔ Span.status s ≠ Span.started)
    ∧ (Span.status s ≠ Span.started →
       ∃ e, Span.endTime s = Some e
            ∧ Span.duration s = Some (e - Span.startTime s)).
Proof.
  intros Hrun.
  assert (Forall duration_inv h) as Hall.
  { assert (Forall duration_inv ([] : Span.heap)) as H0 by constructor.
    revert Hrun H0. generalize ([] : Span.heap).
    induction ops as [|o ops IH]; intros h0; simpl.
    - by intros [= ->].
    - destruct (Span.step h0 o) as [h1|] eqn:E; simpl; [|done].
      intros Hrun H0. apply (IH h1); [done|]. by eapply duration_inv_step. }
  intros r s Hs. by apply (Forall_lookup_1 _ _ _ _ Hall Hs).
Qed.

Lemma C5_witness :
  let ops := [Span.New "t" "root" None 10 "0.5" 10;
              Span.New "t" "child" (Some "span-10-0.5") 11 "0.25" 12;
              Span.AddChild 0 1;
              Span.SetAttribute 1 "query" (VStr "select");
              Span.End 1 (Some {| message := "boom" |}) 40;
              Span.End 1 None 30] in
  ∃ h s, Span.run [] ops = Some h ∧ h !! 1%nat = Some s
    ∧ (is_Some (Span.duration s) ↔ Span.status s ≠ Span.started)
    ∧ (Span.status s ≠ Span.started →
       ∃ e, Span.endTime s = Some e
            ∧ Span.duration s = Some (e - Span.startTime s)).
Proof.
  intros ops.
  destruct (Span.run [] ops) as [h|] eqn:E; [|by vm_compute in E].
  destruct (h !! 1%nat) as [s|] eqn:Es.
  - exists h, s. split; [done|]. split; [done|].
    exact (C5_duration_iff_not_started ops h E 1%nat s Es).
  - vm_compute in E. injection E as <-. by vm_compute in Es.
Defined.

(** ** C6: slow operations *)

(** The duration of the span under a reference, if it has one. *)
Definition duration_of (h : Span.heap) (r : ref) : option Z :=
  h !! r ≫= Span.duration.

(** The selection the claim describes: a duration, above the threshold. *)
Definition exceeds (h : Span.heap) (thresholdMs : Z) (r : ref) : Prop :=
  ∃ d, duration_of h r = Some d ∧ thresholdMs < d.

#[global] Instance exceeds_dec h thresholdMs r : Decision (exceeds h thresholdMs r).
Proof.
  unfold exceeds. destruct (duration_of h r) as [d|].
  - destruct (decide (thresholdMs < d)) as [Hd|Hd].
    + left. eauto.
    + right. intros (d' & [= <-] & ?). done.
  - right. intros (d' & [=] & _).
Defined.

Lemma duration_or0_of h r :
  Trace.duration_or0 h r = match duration_of h r with Some d => d | None => 0 end.
Proof.
  unfold Trace.duration_or0, duration_of.
  destruct (h !! r ≫= Span.duration); [apply or0_Some | done].
Qed.

(** C6, as stated, fails for a negative threshold: the root span of a new
    trace is still running, has no duration, and is returned by
    [getSlowOperations(-1)]. *)
Lemma C6_counterexample :
  let '(h, t) := Trace.new [] "trace-1-0.5" "GET /users" 1 1 "0.25" 1 in
  Trace.getSlowOperations h t (Some (-1)) = [0%nat]
  ∧ (Span.status <$> h !! 0%nat) = Some Span.started
  ∧ duration_of h 0%nat = None
  ∧ Trace.getSlowOperations h t (Some (-1)) ≠ filter (exceeds h (-1)) (Trace.allSpans t).
Proof. vm_compute. repeat split; discriminate. Qed.

(** C6, amended.  [getSlowOperations(thresholdMs)] (threshold 100 when the
    argument is omitted) returns the subsequence of [allSpans], in the
    original order, of the spans whose duration, with a missing duration
    counted as 0, strictly exceeds the threshold.  For a threshold that is
    not negative this is exactly the subsequence of the spans that have a
    duration above the threshold, and no span without a duration is
    returned. *)
Theorem C6_slow_operations (h : Span.heap) (t : Trace.t) (thresholdMs : option Z) :
  let threshold := default 100 thresholdMs in
  let result := Trace.getSlowOperations h t thresholdMs in
  result `sublist_of` Trace.allSpans t
  ∧ (∀ r, r ∈ result ↔
          r ∈ Trace.allSpans t
          ∧ (exceeds h threshold r ∨ (duration_of h r = None ∧ threshold < 0)))
  ∧ (0 ≤ threshold →
     result = filter (exceeds h threshold) (Trace.allSpans t)
     ∧ ∀ r, r ∈ result → is_Some (duration_of h r)).
Proof.
  intros threshold result. subst result. unfold Trace.getSlowOperations.
  fold threshold. split; [apply sublist_filter|]. split.
  - intros r. rewrite list_elem_of_filter, duration_or0_of.
    unfold exceeds. destruct (duration_of h r) as [d|].
    + split.
      * intros [? ?]. split; [done|]. left. eauto.
      * intros [? [(d' & [= <-] & ?) | [[=] _]]]. done.
    + split.
      * intros [? ?]. split; [done|]. right. done.
      * intros [? [(d' & [=] & ?) | [_ ?]]]. done.
  - intros Hthr. split.
    + apply list_filter_iff. intros r. rewrite duration_or0_of.
      unfold exceeds. destruct (duration_of h r) as [d|].
      * split; [eauto|]. by intros (d' & [= <-] & ?).
      * split; [lia|]. by intros (d' & [=] & ?).
    + intros r. rewrite list_elem_of_filter, duration_or0_of.
      destruct (duration_of h r) as [d|]; [eauto|]. lia.
Qed.

Lemma C6_witness :
  let st0 := Trace.new [] "trace-1-0.5" "GET /users" 0 0 "0.25" 0 in
  let ops := [Trace.StartSpan "query" 1 "0.125" 1; Trace.EndSpan None 151;
              Trace.StartSpan "render" 151 "0.75" 151; Trace.EndSpan None 156;
              Trace.StartSpan "send" 156 "0.375" 156] in
  ∃ h t,
    Trace.run st0 ops = Some (h, t)
    ∧ 0 ≤ default 100 (Some 100)
    ∧ Trace.getSlowOperations h t (Some 100)
      = filter (exceeds h 100) (Trace.allSpans t)
    ∧ Trace.allSpans t = [0; 1; 2; 3]%nat
    ∧ Trace.getSlowOperations h t (Some 100) = [1%nat].
Proof.
  intros st0 ops.
  destruct (Trace.run st0 ops) as [[h t]|] eqn:E; [|by vm_compute in E].
  assert (0 ≤ default 100 (Some 100)) as Hthr by (simpl; lia).
  exists h, t. split; [done|]. split; [done|]. split.
  - by apply (C6_slow_operations h t (Some 100)).
  - vm_compute in E. by injection E as <- <-.
Defined.

(** ** Traces: the invariant of the span list *)

(** Identifier and parent identifier of the span under a reference.  No
    operation changes them once the span is constructed. *)
Definition id_of (h : Span.heap) (r : ref) : option string :=
  Span.id <$> h !! r.

Definition parentId_of (h : Span.heap) (r : ref) : option (option string) :=
  Span.parentId <$> h !! r.

Record wf (h : Span.heap) (t : Trace.t) : Prop := {
  wf_root : Trace.allSpans t !! 0%nat = Some (Trace.rootSpan t);
  wf_cursor : Trace.currentSpan t ∈ Trace.allSpans t;
  wf_alloc : ∀ r, r ∈ Trace.allSpans t → (r < length h)%nat;
  wf_root_parent : parentId_of h (Trace.rootSpan t) = Some None;
  wf_parent : ∀ r, r ∈ Trace.allSpans t → r ≠ Trace.rootSpan t →
      ∃ p pid, p ∈ Trace.allSpans t ∧ id_of h p = Some pid
               ∧ parentId_of h r = Some (Some pid);
  wf_ids : ∀ r, r ∈ Trace.allSpans t → id_of h r ≠ Some "";
}.

(** States of a trace: built by the constructor, then changed by
    [startSpan] and [endSpan]. *)
Inductive reachable : Span.heap → Trace.t → Prop :=
  | reachable_new h0 traceId rootSpanName now idNow rnd startNow :
      reachable (Trace.new h0 traceId rootSpanName now idNow rnd startNow).1
                (Trace.new h0 traceId rootSpanName now idNow rnd startNow).2
  | reachable_step h t o h' t' :
      reachable h t → Trace.step (h, t) o = Some (h', t') → reachable h' t'.

Lemma id_of_app_l (h : Span.heap) s r :
  (r < length h)%nat → id_of (h ++ [s]) r = id_of h r.
Proof. intros Hr. unfold id_of. by rewrite lookup_app_l. Qed.

Lemma parentId_of_app_l (h : Span.heap) s r :
  (r < length h)%nat → parentId_of (h ++ [s]) r = parentId_of h r.
Proof. intros Hr. unfold parentId_of. by rewrite lookup_app_l. Qed.

(** A method that keeps [id] and [parentId] keeps them in the heap. *)
Lemma update_static h r f h' :
  (∀ s, Span.id (f s) = Span.id s ∧ Span.parentId (f s) = Span.parentId s) →
  Span.update h r f = Some h' →
  ∀ r', id_of h' r' = id_of h r' ∧ parentId_of h' r' = parentId_of h r'.
Proof.
  intros Hf (s & Hs & ->)%update_inv r'. unfold id_of, parentId_of.
  destruct (decide (r = r')) as [<-|Hne].
  - rewrite list_lookup_insert_eq by (by eapply lookup_lt_Some).
    rewrite Hs. simpl. destruct (Hf s) as [-> ->]. done.
  - by rewrite list_lookup_insert_ne.
Qed.

Lemma wf_static h h' t :
  length h' = length h →
  (∀ r, id_of h' r = id_of h r ∧ parentId_of h' r = parentId_of h r) →
  wf h t → wf h' t.
Proof.
  intros Hlen Hst [H1 H2 H3 H4 H5 H6]. split; try done.
  - intros r Hr. rewrite Hlen. by apply H3.
  - by rewrite (proj2 (Hst _)).
  - intros r Hr Hne. destruct (H5 r Hr Hne) as (p & pid & Hp & Hid & Hpar).
    exists p, pid. by rewrite (proj1 (Hst _)), (proj2 (Hst _)).
  - intros r Hr. rewrite (proj1 (Hst _)). by apply H6.
Qed.

Lemma wf_new h0 traceId rootSpanName now idNow rnd startNow :
  wf (Trace.new h0 traceId rootSpanName now idNow rnd startNow).1
     (Trace.new h0 traceId rootSpanName now idNow rnd startNow).2.
Proof.
  unfold Trace.new, Span.alloc. simpl. split; simpl.
  - done.
  - apply list_elem_of_singleton. done.
  - intros r ->%list_elem_of_singleton. rewrite length_app. simpl. lia.
  - unfold parentId_of. by rewrite lookup_app_r, Nat.sub_diag.
  - intros r ->%list_elem_of_singleton. done.
  - intros r ->%list_elem_of_singleton. unfold id_of.
    rewrite lookup_app_r, Nat.sub_diag by done. simpl.
    intros [= H].
Qed.

(** [startSpan] on a well-formed trace: the new span is allocated at the
    end of the heap, its parent identifier is the identifier of the span
    under the cursor, and the cursor moves to it. *)
Lemma startSpan_spec h t name idNow rnd startNow :
  wf h t →
  ∃ h' t',
    Trace.startSpan h t name idNow rnd startNow = Some (h', t', length h)
    ∧ wf h' t'
    ∧ length h' = S (length h)
    ∧ Trace.rootSpan t' = Trace.rootSpan t
    ∧ Trace.allSpans t' = Trace.allSpans t ++ [length h]
    ∧ Trace.currentSpan t' = length h
    ∧ (∀ r, (r < length h)%nat →
         id_of h' r = id_of h r ∧ parentId_of h' r = parentId_of h r)
    ∧ id_of h' (length h) = Some (Span.make_id idNow rnd)
    ∧ parentId_of h' (length h) = Some (id_of h (Trace.currentSpan t)).
Proof.
  intros Hwf. pose proof Hwf as [H1 H2 H3 H4 H5 H6].
  pose proof (H3 _ H2) as Hcur.
  destruct (lookup_lt_is_Some_2 h _ Hcur) as [cur Hc].
  unfold Trace.startSpan. rewrite Hc. simpl.
  set (span := Span.new _ _ _ _ _ _).
  assert (Hup : (h ++ [span]) !! Trace.currentSpan t = Some cur)
    by (by rewrite lookup_app_l).
  unfold Span.update. rewrite Hup. simpl.
  set (h' := <[Trace.currentSpan t := Span.addChild cur (length h)]> (h ++ [span])).
  assert (Hst : ∀ r, id_of h' r = id_of (h ++ [span]) r
                     ∧ parentId_of h' r = parentId_of (h ++ [span]) r).
  { apply (update_static _ (Trace.currentSpan t)
             (λ c, Span.addChild c (length h))); [done|].
    unfold Span.update. by rewrite Hup. }
  assert (Hlen : length h' = S (length h)).
  { unfold h'. rewrite length_insert, length_app. simpl. lia. }
  assert (Hold : ∀ r, (r < length h)%nat →
             id_of h' r = id_of h r ∧ parentId_of h' r = parentId_of h r).
  { intros r Hr. destruct (Hst r) as [-> ->].
    by rewrite id_of_app_l, parentId_of_app_l. }
  assert (Hnew_id : id_of h' (length h) = Some (Span.make_id idNow rnd)).
  { rewrite (proj1 (Hst _)). unfold id_of.
    by rewrite lookup_app_r, Nat.sub_diag. }
  assert (Hnew_par : parentId_of h' (length h)
                     = Some (id_of h (Trace.currentSpan t))).
  { rewrite (proj2 (Hst _)). unfold parentId_of, id_of.
    rewrite lookup_app_r, Nat.sub_diag by done. simpl. by rewrite Hc. }
  eexists h', _. split; [done|]. simpl. repeat split; try done.
  - simpl. by rewrite lookup_app_l_Some with (x := Trace.rootSpan t).
  - simpl. apply elem_of_app. right. by apply list_elem_of_singleton.
  - simpl. intros r [Hr| ->%list_elem_of_singleton]%elem_of_app.
    + rewrite Hlen. specialize (H3 r Hr). lia.
    + lia.
  - simpl. rewrite (proj2 (Hold _ (H3 _ (list_elem_of_lookup_2 _ _ _ H1)))).
    done.
  - simpl. intros r [Hr| ->%list_elem_of_singleton]%elem_of_app Hne.
    + destruct (H5 r Hr Hne) as (p & pid & Hp & Hid & Hpar).
      exists p, pid. split; [apply elem_of_app; by left|].
      by rewrite (proj1 (Hold _ (H3 _ Hp))), (proj2 (Hold _ (H3 _ Hr))).
    + exists (Trace.currentSpan t), (Span.id cur).
      split; [apply elem_of_app; by left|].
      rewrite (proj1 (Hold _ Hcur)), Hnew_par. unfold id_of. by rewrite Hc.
  - simpl. intros r [Hr| ->%list_elem_of_singleton]%elem_of_app.
    + rewrite (proj1 (Hold _ (H3 _ Hr))). by apply H6.
    + rewrite Hnew_id. intros [= H].
  - by apply Hold.
  - by apply Hold.
Qed.

(** Where [endSpan] leaves the cursor. *)
Definition next_cursor (h : Span.heap) (t : Trace.t) : ref :=
  match parentId_of h (Trace.currentSpan t) with
  | Some (Some pid) =>
      if truthy_string (Some pid)
      then default (Trace.currentSpan t)
                   (Trace.find_by_id h (Trace.allSpans t) pid)
      else Trace.currentSpan t
  | _ => Trace.currentSpan t
  end.

Lemma find_by_id_static h h' spans pid :
  (∀ r, id_of h' r = id_of h r) →
  Trace.find_by_id h' spans pid = Trace.find_by_id h spans pid.
Proof.
  intros Hst. unfold Trace.find_by_id. f_equal.
  apply list_find_ext. intros r. specialize (Hst r). unfold id_of in Hst.
  by rewrite Hst.
Qed.

Lemma find_by_id_elem_of h spans pid p :
  Trace.find_by_id h spans pid = Some p → p ∈ spans ∧ id_of h p = Some pid.
Proof.
  unfold Trace.find_by_id.
  destruct (list_find _ spans) as [[i q]|] eqn:E; simpl; [|done].
  intros [= ->]. apply list_find_Some in E as (Hi & Hq & _).
  split; [by eapply list_elem_of_lookup_2 | done].
Qed.

(** [endSpan] on a well-formed trace: the span under the cursor is ended,
    nothing else in the heap changes, and the cursor moves as
    [next_cursor] says. *)
Lemma endSpan_spec h t error now :
  wf h t →
  ∃ h' t',
    Trace.endSpan h t error now = Some (h', t')
    ∧ Span.update h (Trace.currentSpan t) (λ c, Span.end_ c error now) = Some h'
    ∧ wf h' t'
    ∧ Trace.rootSpan t' = Trace.rootSpan t
    ∧ Trace.allSpans t' = Trace.allSpans t
    ∧ Trace.currentSpan t' = next_cursor h t
    ∧ (∀ r, id_of h' r = id_of h r ∧ parentId_of h' r = parentId_of h r).
Proof.
  intros Hwf. pose proof Hwf as [H1 H2 H3 H4 H5 H6].
  pose proof (H3 _ H2) as Hcur.
  destruct (update_is_Some h (Trace.currentSpan t)
              (λ c, Span.end_ c error now) Hcur) as [h' Hup].
  assert (Hst : ∀ r, id_of h' r = id_of h r
                     ∧ parentId_of h' r = parentId_of h r).
  { apply (update_static h (Trace.currentSpan t)
             (λ c, Span.end_ c error now)); done. }
  assert (Hlen : length h' = length h) by (by eapply update_length).
  assert (Hwf' : wf h' t) by (by eapply wf_static).
  destruct (lookup_lt_is_Some_2 h' (Trace.currentSpan t)) as [cur Hc];
    [by rewrite Hlen|].
  assert (Hpar : parentId_of h (Trace.currentSpan t) = Some (Span.parentId cur)).
  { rewrite <- (proj2 (Hst _)). unfold parentId_of. by rewrite Hc. }
  unfold Trace.endSpan, next_cursor. rewrite Hup. simpl. rewrite Hc. simpl.
  rewrite Hpar.
  destruct (Span.parentId cur) as [pid|] eqn:Epid; simpl;
    [|exists h', t; done].
  destruct (negb (pid =? ""))%string; [|exists h', t; done].
  rewrite (find_by_id_static h h') by (intros; apply Hst).
  destruct (Trace.find_by_id h (Trace.allSpans t) pid) as [parent|] eqn:Ef;
    simpl; [|exists h', t; done].
  eexists h', _. split; [done|]. split; [done|].
  apply find_by_id_elem_of in Ef as [Hin _].
  destruct Hwf' as [H1' H2' H3' H4' H5' H6']. done.
Qed.

Lemma step_wf h t o :
  wf h t →
  ∃ h' t', Trace.step (h, t) o = Some (h', t') ∧ wf h' t'
           ∧ Trace.rootSpan t' = Trace.rootSpan t.
Proof.
  intros Hwf. destruct o as [name idNow rnd startNow | error now]; simpl.
  - destruct (startSpan_spec h t name idNow rnd startNow Hwf)
      as (h' & t' & -> & ? & _ & ? & _). by exists h', t'.
  - destruct (endSpan_spec h t error now Hwf)
      as (h' & t' & -> & _ & ? & ? & _). by exists h', t'.
Qed.

Lemma run_wf ops : ∀ h t,
  wf h t →
  ∃ h' t', Trace.run (h, t) ops = Some (h', t') ∧ wf h' t'
           ∧ Trace.rootSpan t' = Trace.rootSpan t.
Proof.
  induction ops as [|o ops IH]; intros h t Hwf; simpl.
  - by exists h, t.
  - destruct (step_wf h t o Hwf) as (h1 & t1 & -> & Hwf1 & Hr1). simpl.
    destruct (IH h1 t1 Hwf1) as (h2 & t2 & ? & ? & ?).
    exists h2, t2. split; [done|]. split; [done | congruence].
Qed.

Lemma reachable_wf h t : reachable h t → wf h t.
Proof.
  induction 1 as [|h t o h' t' _ IH Hstep]; [apply wf_new|].
  destruct (step_wf h t o IH) as (h1 & t1 & E & ? & _). congruence.
Qed.

Lemma run_app st ops1 ops2 :
  Trace.run st (ops1 ++ ops2) = Trace.run st ops1 ≫= λ st', Trace.run st' ops2.
Proof.
  revert st. induction ops1 as [|o ops1 IH]; intros st; simpl; [done|].
  destruct (Trace.step st o); simpl; [apply IH | done].
Qed.

(** ** C1: the root is first, parents are present *)

(** C1.  A trace built by the constructor (in any heap) and then driven by
    any sequence of [startSpan] and [endSpan] calls: the calls all return,
    [allSpans[0]] is the root span the constructor made, and every other
    span of [allSpans] has a [parentId] equal to the [id] of a span that is
    in [allSpans]. *)
Theorem C1_root_first_parents_present
    (h0 : Span.heap) (traceId rootSpanName : string) (now idNow : Z)
    (rnd : string) (startNow : Z) (ops : list Trace.op) :
  let st0 := Trace.new h0 traceId rootSpanName now idNow rnd startNow in
  ∃ h t,
    Trace.run st0 ops = Some (h, t)
    ∧ Trace.rootSpan t = Trace.rootSpan st0.2
    ∧ Trace.allSpans t !! 0%nat = Some (Trace.rootSpan t)
    ∧ ∀ r, r ∈ Trace.allSpans t → r ≠ Trace.rootSpan t →
        ∃ s p sp, h !! r = Some s ∧ p ∈ Trace.allSpans t ∧ h !! p = Some sp
                  ∧ Span.parentId s = Some (Span.id sp).
Proof.
  intros st0.
  destruct (run_wf ops st0.1 st0.2 (wf_new _ _ _ _ _ _ _))
    as (h & t & Hrun & Hwf & Hroot).
  exists h, t. split; [by destruct st0|]. split; [done|].
  destruct Hwf as [H1 H2 H3 H4 H5 H6]. split; [done|].
  intros r Hr Hne. destruct (H5 r Hr Hne) as (p & pid & Hp & Hid & Hpar).
  unfold id_of, parentId_of in *.
  destruct (h !! r) as [s|] eqn:Es; [|done].
  destruct (h !! p) as [sp|] eqn:Ep; [|done].
  simpl in *. exists s, p, sp. injection Hid as <-. injection Hpar as ->.
  done.
Qed.

(** ** C4: nested spans and the cursor *)

(** [startSpan] calls, one per (name, clock reading for the identifier,
    rendering of the random number, clock reading for [startTime]). *)
Definition start_ops (args : list (string * Z * string * Z)) : list Trace.op :=
  (λ a, Trace.StartSpan a.1.1.1 a.1.1.2 a.1.2 a.2) <$> args.

(** [endSpan] calls, one per (error argument, clock reading). *)
Definition end_ops (args : list (option Error * Z)) : list Trace.op :=
  (λ a, Trace.EndSpan a.1 a.2) <$> args.

(** The identifier the constructor gives a span started with [a]. *)
Definition started_id (a : string * Z * string * Z) : string :=
  Span.make_id a.1.1.2 a.1.2.

(** The span the [j]-th of a run of nested spans hangs under: the span the
    cursor was on for the first, the previous new span for the others. *)
Definition hangs_under (cursor base : ref) (j : nat) : ref :=
  match j with
  | O => cursor
  | S j' => (base + j')%nat
  end.

(** After [N] nested [startSpan] calls the new spans sit at the end of the
    heap and of [allSpans], each under the one before. *)
Lemma starts_spec (args : list (string * Z * string * Z)) : ∀ h t,
  wf h t →
  ∃ h1 t1,
    Trace.run (h, t) (start_ops args) = Some (h1, t1)
    ∧ wf h1 t1
    ∧ Trace.rootSpan t1 = Trace.rootSpan t
    ∧ Trace.allSpans t1 = Trace.allSpans t ++ seq (length h) (length args)
    ∧ Trace.currentSpan t1
      = hangs_under (Trace.currentSpan t) (length h) (length args)
    ∧ (∀ r, (r < length h)%nat →
         id_of h1 r = id_of h r ∧ parentId_of h1 r = parentId_of h r)
    ∧ (∀ j a, args !! j = Some a →
         id_of h1 (length h + j) = Some (started_id a)
         ∧ parentId_of h1 (length h + j)
           = Some (id_of h1 (hangs_under (Trace.currentSpan t) (length h) j))).
Proof.
  induction args as [|a args IH]; intros h t Hwf.
  - exists h, t. simpl. rewrite app_nil_r. split_and!; done.
  - destruct (startSpan_spec h t a.1.1.1 a.1.1.2 a.1.2 a.2 Hwf)
      as (h' & t' & Hs & Hwf' & Hlen & Hroot & Hall & Hcur & Hold & Hid & Hpar).
    destruct (IH h' t' Hwf')
      as (h1 & t1 & Hrun & Hwf1 & Hroot1 & Hall1 & Hcur1 & Hold1 & Hnew1).
    exists h1, t1. simpl. rewrite Hs. simpl.
    pose proof (wf_alloc _ _ Hwf _ (wf_cursor _ _ Hwf)) as Hc.
    split; [done|]. split; [done|]. split; [congruence|].
    split; [|split; [|split]].
    + rewrite Hall1, Hall, Hlen, <- app_assoc. done.
    + rewrite Hcur1, Hlen, Hcur. destruct (length args); simpl; lia.
    + intros r Hr. destruct (Hold1 r) as [-> ->]; [lia|]. by apply Hold.
    + intros [|j] b Hb; simpl in Hb.
      * injection Hb as <-. rewrite Nat.add_0_r.
        destruct (Hold1 (length h)) as [-> ->]; [lia|].
        split; [done|]. simpl. rewrite Hpar. f_equal.
        destruct (Hold1 (Trace.currentSpan t)) as [-> _]; [lia|].
        symmetry. by apply Hold.
      * destruct (Hnew1 j b Hb) as [Hi Hp]. rewrite Hlen in Hi, Hp.
        replace (length h + S j)%nat with (S (length h) + j)%nat by lia.
        split; [done|]. rewrite Hp. do 2 f_equal.
        rewrite Hcur. destruct j; simpl; [f_equal; lia | f_equal; lia].
Qed.

Section nested.

(** A trace whose span list is [old] followed by [N] nested spans
    allocated from [base] on, the first of them under [root]. *)
Variables (root base N : nat) (old : list ref).

(** The cursor is on the root or on one of the first [k] nested spans. *)
Record chain (h : Span.heap) (t : Trace.t) (k : nat) : Prop := {
  chain_wf : wf h t;
  chain_root : Trace.rootSpan t = root;
  chain_all : Trace.allSpans t = old ++ seq base N;
  chain_old_root : old !! 0%nat = Some root;
  chain_parent : ∀ j, (j < N)%nat →
      parentId_of h (base + j) = Some (id_of h (hangs_under root base j));
  chain_fresh : ∀ r j, r ∈ old → r ≠ root → (j < N)%nat →
      id_of h r ≠ id_of h (base + j);
  chain_cursor :
      Trace.currentSpan t = root
      ∨ ∃ j, (j < k)%nat ∧ (j < N)%nat ∧ Trace.currentSpan t = (base + j)%nat;
}.

Lemma chain_next_cursor h t k :
  chain h t k →
  next_cursor h t = root
  ∨ ∃ j, (j < pred k)%nat ∧ (j < N)%nat ∧ next_cursor h t = (base + j)%nat.
Proof.
  intros [Hwf Hroot Hall Hold0 Hpar Hfresh Hcur].
  pose proof Hwf as [W1 W2 W3 W4 W5 W6].
  unfold next_cursor.
  destruct Hcur as [Hc | (j & Hjk & HjN & Hc)]; rewrite Hc.
  { rewrite <- Hroot, W4. by left. }
  rewrite (Hpar j HjN).
  set (q := hangs_under root base j).
  (* the span [q] the cursor hangs under, and its place in [allSpans] *)
  assert (∃ iq, Trace.allSpans t !! iq = Some q
                ∧ iq = match j with O => O | S j' => (length old + j')%nat end)
    as (iq & Hiq & Eiq).
  { eexists. split; [|done]. rewrite Hall. subst q. destruct j as [|j']; simpl.
    - by apply lookup_app_l_Some.
    - rewrite lookup_app_r by lia.
      apply lookup_seq. split; [f_equal|]; lia. }
  assert (Hq : q ∈ Trace.allSpans t) by (by eapply list_elem_of_lookup_2).
  destruct (lookup_lt_is_Some_2 h q (W3 q Hq)) as [sq Hsq].
  assert (Hidq : id_of h q = Some (Span.id sq))
    by (unfold id_of; by rewrite Hsq).
  rewrite Hidq.
  rewrite truthy_string_Some
    by (intros E; apply (W6 q Hq); by rewrite Hidq, E).
  unfold Trace.find_by_id.
  destruct (list_find _ (Trace.allSpans t)) as [[i p]|] eqn:Hfind; simpl.
  2: { apply list_find_None in Hfind.
       by destruct (proj1 (Forall_forall _ _) Hfind q Hq). }
  apply list_find_Some in Hfind as (Hi & Hp & Hmin).
  assert (i ≤ iq)%nat as Hle.
  { destruct (decide (i ≤ iq)%nat) as [|Hgt]; [done|].
    exfalso. apply (Hmin iq q Hiq); [lia | done]. }
  rewrite Hall in Hi. apply lookup_app_Some in Hi as [Hi | [Hlen Hi]].
  - destruct (decide (p = root)) as [->|Hne]; [by left|]. exfalso.
    destruct j as [|j']; subst iq.
    + assert (i = 0)%nat as -> by lia. congruence.
    + apply (Hfresh p j'); [by eapply list_elem_of_lookup_2 | done | lia |].
      fold (id_of h p) in Hp. rewrite Hp. symmetry. exact Hidq.
  - apply lookup_seq in Hi as [-> HiN].
    destruct j as [|j']; subst iq.
    + apply lookup_lt_Some in Hold0. lia.
    + right. exists (i - length old)%nat. split; [lia|]. done.
Qed.

Lemma chain_endSpan h t k error now :
  chain h t k →
  ∃ h' t',
    Trace.endSpan h t error now = Some (h', t')
    ∧ chain h' t' (pred k)
    ∧ Span.update h (Trace.currentSpan t) (λ c, Span.end_ c error now) = Some h'.
Proof.
  intros Hch. pose proof (chain_next_cursor h t k Hch) as Hnext.
  destruct Hch as [Hwf Hroot Hall Hold0 Hpar Hfresh Hcur].
  destruct (endSpan_spec h t error now Hwf)
    as (h' & t' & He & Hup & Hwf' & Hroot' & Hall' & Hcur' & Hst).
  exists h', t'. split; [done|]. split; [|done]. split.
  - done.
  - congruence.
  - congruence.
  - done.
  - intros j Hj. rewrite (proj2 (Hst _)), (proj1 (Hst _)). by apply Hpar.
  - intros r j Hr Hne Hj. rewrite !(proj1 (Hst _)). by apply Hfresh.
  - by rewrite Hcur'.
Qed.

(** What the last of [args] did if the cursor was on the root when all but
    [k] of the calls were over. *)
Definition root_ended_by (h : Span.heap) (last_call : option (option Error * Z))
    : Prop :=
  ∃ error now s,
    last_call = Some (error, now)
    ∧ h !! root = Some s
    ∧ Span.endTime s = Some now
    ∧ Span.duration s = Some (now - Span.startTime s)
    ∧ Span.status s
      = match error with Some _ => Span.error_ | None => Span.completed end
    ∧ Span.error s = error.

Lemma chain_ends (args : list (option Error * Z)) : ∀ h t k,
  chain h t k →
  ∃ h' t',
    Trace.run (h, t) (end_ops args) = Some (h', t')
    ∧ chain h' t' (k - length args)
    ∧ ((k < length args)%nat → root_ended_by h' (last args)).
Proof.
  induction args as [|[error now] args IH] using rev_ind; intros h t k Hch.
  - exists h, t. simpl. rewrite Nat.sub_0_r. split_and!; [done..|lia].
  - destruct (IH h t k Hch) as (h1 & t1 & Hrun & Hch1 & _).
    destruct (chain_endSpan h1 t1 _ error now Hch1) as (h2 & t2 & He & Hch2 & Hup).
    exists h2, t2. unfold end_ops. rewrite fmap_app, run_app.
    fold (end_ops args). rewrite Hrun. simpl. rewrite He. simpl.
    rewrite length_app. simpl. split; [done|]. split.
    + replace (k - (length args + 1))%nat with (pred (k - length args)) by lia.
      done.
    + intros Hk. rewrite last_snoc.
      destruct (chain_cursor _ _ _ Hch1) as [Hc | (j & ? & _)]; [|lia].
      rewrite Hc in Hup. apply update_inv in Hup as (s & Hs & ->).
      exists error, now, (Span.end_ s error now). split; [done|].
      split; [|done].
      apply list_lookup_insert_eq. by eapply lookup_lt_Some.
Qed.

End nested.

(** Nested spans started from the root of a well-formed trace. *)
Lemma nested_spans_return
    (h : Span.heap) (t : Trace.t)
    (starts : list (string * Z * string * Z))
    (ends : list (option Error * Z)) :
  wf h t →
  Trace.currentSpan t = Trace.rootSpan t →
  (∀ r a, r ∈ Trace.allSpans t → r ≠ Trace.rootSpan t → a ∈ starts →
     id_of h r ≠ Some (started_id a)) →
  (length starts ≤ length ends)%nat →
  ∃ h' t',
    Trace.run (h, t) (start_ops starts ++ end_ops ends) = Some (h', t')
    ∧ Trace.rootSpan t' = Trace.rootSpan t
    ∧ Trace.currentSpan t' = Trace.rootSpan t'
    ∧ ((length starts < length ends)%nat →
       root_ended_by (Trace.rootSpan t') h' (last ends)).
Proof.
  intros Hwf Hcur Hfresh Hlen.
  destruct (starts_spec starts h t Hwf)
    as (h1 & t1 & Hrun & Hwf1 & Hroot1 & Hall1 & Hcur1 & Hold1 & Hnew1).
  assert (chain (Trace.rootSpan t) (length h) (length starts)
                (Trace.allSpans t) h1 t1 (length starts)) as Hch.
  { split; try done.
    - apply Hwf.
    - intros j Hj. destruct (lookup_lt_is_Some_2 starts j Hj) as [a Ha].
      destruct (Hnew1 j a Ha) as [_ ->]. by rewrite Hcur.
    - intros r j Hr Hne Hj.
      destruct (lookup_lt_is_Some_2 starts j Hj) as [a Ha].
      destruct (Hnew1 j a Ha) as [-> _].
      rewrite (proj1 (Hold1 r (wf_alloc _ _ Hwf r Hr))).
      apply Hfresh; [done..|]. by eapply list_elem_of_lookup_2.
    - rewrite Hcur1, Hcur. destruct (length starts) as [|n] eqn:E; simpl.
      + by left.
      + right. exists n. split_and!; lia. }
  destruct (chain_ends _ _ _ _ ends h1 t1 _ Hch) as (h2 & t2 & Hrun2 & Hch2 & Hre).
  exists h2, t2. rewrite run_app, Hrun. simpl.
  pose proof (chain_root _ _ _ _ _ _ _ Hch2) as Hroot2.
  split; [done|]. split; [done|]. split.
  - destruct (chain_cursor _ _ _ _ _ _ _ Hch2) as [Hc | (j & ? & _)]; [|lia].
    congruence.
  - rewrite Hroot2. done.
Qed.

(** On a trace the constructor has just built there is nothing to assume. *)
Lemma nested_spans_on_new_trace
    (h0 : Span.heap) (traceId rootSpanName : string) (now idNow : Z)
    (rnd : string) (startNow : Z)
    (starts : list (string * Z * string * Z))
    (ends : list (option Error * Z)) :
  let st0 := Trace.new h0 traceId rootSpanName now idNow rnd startNow in
  (length starts ≤ length ends)%nat →
  ∃ h' t',
    Trace.run st0 (start_ops starts ++ end_ops ends) = Some (h', t')
    ∧ Trace.rootSpan t' = Trace.rootSpan st0.2
    ∧ Trace.currentSpan t' = Trace.rootSpan t'
    ∧ ((length starts < length ends)%nat →
       root_ended_by (Trace.rootSpan t') h' (last ends)).
Proof.
  intros st0 Hlen.
  destruct (nested_spans_return st0.1 st0.2 starts ends) as (h' & t' & H);
    [apply wf_new | done | | done |].
  - intros r a ->%list_elem_of_singleton Hne. done.
  - exists h', t'. by destruct st0.
Qed.

Lemma reachable_run ops : ∀ h t h' t',
  reachable h t → Trace.run (h, t) ops = Some (h', t') → reachable h' t'.
Proof.
  induction ops as [|o ops IH]; intros h t h' t' Hr; simpl.
  - by intros [= <- <-].
  - destruct (Trace.step (h, t) o) as [[h1 t1]|] eqn:E; simpl; [|done].
    apply IH. by eapply reachable_step.
Qed.

(** C4, as stated, fails when a new span gets the identifier of a span
    already in the trace.  The identifier is made of the clock reading and
    the random number; here "b" is started and ended within millisecond 3,
    and "c", started in the same millisecond, draws the same random number.
    "d" is started under "c"; ending "d" moves the cursor to "b", the first
    span of [allSpans] with that identifier, and ending again moves it to
    "a".  After two nested starts and two ends the cursor is on "a", not on
    the root. *)
Lemma C4_counterexample :
  let st0 := Trace.new [] "trace-0-0.5" "root" 0 0 "0.1" 0 in
  let before := [Trace.StartSpan "a" 1 "0.2" 1; Trace.StartSpan "b" 3 "0.3" 3;
                 Trace.EndSpan None 3; Trace.EndSpan None 3] in
  let starts := [("c", 3, "0.3", 3); ("d", 4, "0.4", 4)] in
  let ends := [(None, 5); (None, 6)] in
  ∃ h t h' t',
    Trace.run st0 before = Some (h, t)
    ∧ Trace.currentSpan t = Trace.rootSpan t
    ∧ length starts = length ends
    ∧ Trace.run (h, t) (start_ops starts ++ end_ops ends) = Some (h', t')
    ∧ Trace.rootSpan t' = 0%nat
    ∧ Trace.currentSpan t' = 1%nat
    ∧ Trace.currentSpan t' ≠ Trace.rootSpan t'.
Proof.
  intros st0 before starts ends. vm_compute.
  eexists _, _, _, _. split_and!; [reflexivity.. | discriminate].
Qed.

(** C4, amended.  Take a trace built by the constructor and any calls, with
    the cursor on the root, and start [N] nested spans whose identifiers are
    not those of spans already in the trace under the root.  Then any [N] or
    more [endSpan] calls all return and leave the cursor on the root span;
    when there are more than [N], the last one has ended the root span
    again.  A trace just built has no span under the root, so the condition
    on the identifiers is empty there. *)
Theorem C4_cursor_returns_to_root
    (h : Span.heap) (t : Trace.t)
    (starts : list (string * Z * string * Z))
    (ends : list (option Error * Z)) :
  reachable h t →
  Trace.currentSpan t = Trace.rootSpan t →
  (∀ r a, r ∈ Trace.allSpans t → r ≠ Trace.rootSpan t → a ∈ starts →
     id_of h r ≠ Some (started_id a)) →
  (length starts ≤ length ends)%nat →
  ∃ h' t',
    Trace.run (h, t) (start_ops starts ++ end_ops ends) = Some (h', t')
    ∧ Trace.rootSpan t' = Trace.rootSpan t
    ∧ Trace.currentSpan t' = Trace.rootSpan t'
    ∧ ((length starts < length ends)%nat →
       root_ended_by (Trace.rootSpan t') h' (last ends)).
Proof.
  intros Hr%reachable_wf. by apply nested_spans_return.
Qed.

Lemma C4_witness :
  let st0 := Trace.new [] "trace-1-0.5" "checkout" 1 1 "0.25" 1 in
  let before := [Trace.StartSpan "validate" 2 "0.125" 2; Trace.EndSpan None 52] in
  let starts := [("charge", 60, "0.75", 60); ("gateway-call", 70, "0.375", 70)] in
  let ends := [(None, 220); (Some {| message := "declined" |}, 260); (None, 300)] in
  ∃ h t h' t',
    Trace.run st0 before = Some (h, t)
    ∧ Trace.currentSpan t = Trace.rootSpan t
    ∧ (length starts ≤ length ends)%nat
    ∧ Trace.run (h, t) (start_ops starts ++ end_ops ends) = Some (h', t')
    ∧ Trace.currentSpan t' = Trace.rootSpan t'
    ∧ root_ended_by (Trace.rootSpan t') h' (last ends).
Proof.
  intros st0 before starts ends.
  destruct (Trace.run st0 before) as [[h t]|] eqn:E; [|by vm_compute in E].
  assert (reachable h t) as Hr.
  { apply (reachable_run before st0.1 st0.2); [apply reachable_new | done]. }
  assert (Trace.currentSpan t = Trace.rootSpan t) as Hc.
  { vm_compute in E. by injection E as <- <-. }
  assert (length starts ≤ length ends)%nat as Hl by (simpl; lia).
  assert (∀ r a, r ∈ Trace.allSpans t → r ≠ Trace.rootSpan t → a ∈ starts →
            id_of h r ≠ Some (started_id a)) as Hf.
  { vm_compute in E. injection E as <- <-. intros r a Hin Hne Ha.
    apply elem_of_cons in Hin as [->|Hin]; [done|].
    apply list_elem_of_singleton in Hin as ->.
    apply elem_of_cons in Ha as [->|Ha]; [by vm_compute|].
    apply list_elem_of_singleton in Ha as ->. by vm_compute. }
  destruct (C4_cursor_returns_to_root h t starts ends Hr Hc Hf Hl)
    as (h' & t' & Hrun & _ & Hcur & Hre).
  exists h, t, h', t'. split_and!; try done. apply Hre. simpl. lia.
Defined.

(** ** Doubles: what rounding keeps *)

Lemma pow2_pos k : (0 < 2 ^ k)%Q.
Proof. by apply Qpower_0_lt. Qed.

Lemma pow2_succ k : (2 ^ (k + 1) == 2 * 2 ^ k)%Q.
Proof. rewrite Qpower_plus by done. rewrite Qpower_1_r. lra. Qed.

Lemma pow2_Z k : 0 ≤ k → (inject_Z (2 ^ k) == 2 ^ k)%Q.
Proof. intros Hk. by rewrite Zpower_Qpower. Qed.

Lemma Qfloor_spec q : (inject_Z (Qfloor q) <= q)%Q ∧ (q < inject_Z (Qfloor q) + 1)%Q.
Proof.
  split; [apply Qfloor_le|]. pose proof (Qlt_floor q) as H.
  rewrite inject_Z_plus in H. exact H.
Qed.

Lemma Qfloor_unique q k :
  (inject_Z k <= q)%Q → (q < inject_Z k + 1)%Q → Qfloor q = k.
Proof.
  intros H1 H2. destruct (Qfloor_spec q) as [H3 H4].
  assert (k < Qfloor q + 1).
  { rewrite Zlt_Qlt, inject_Z_plus. change (inject_Z 1) with 1%Q. lra. }
  assert (Qfloor q < k + 1).
  { rewrite Zlt_Qlt, inject_Z_plus. change (inject_Z 1) with 1%Q. lra. }
  lia.
Qed.

Lemma rhe_cases q :
  let f := Qfloor q in
  round_half_even q = f ∨ round_half_even q = f + 1.
Proof.
  unfold round_half_even. simpl. destruct (_ ?= _)%Q; [|auto..].
  destruct (Z.even _); auto.
Qed.

Lemma rhe_error q :
  (inject_Z (round_half_even q) - q <= 1 # 2)%Q
  ∧ (q - inject_Z (round_half_even q) <= 1 # 2)%Q.
Proof.
  unfold round_half_even. destruct (Qfloor_spec q) as [H1 H2].
  set (f := Qfloor q) in *.
  destruct (q - inject_Z f ?= 1 # 2)%Q eqn:E.
  - apply Qeq_alt in E.
    destruct (Z.even f); rewrite ?inject_Z_plus; change (inject_Z 1) with 1%Q; lra.
  - apply Qlt_alt in E. lra.
  - apply Qgt_alt in E. rewrite inject_Z_plus. change (inject_Z 1) with 1%Q. lra.
Qed.

Lemma rhe_Z k : round_half_even (inject_Z k) = k.
Proof.
  unfold round_half_even. rewrite Qfloor_Z.
  destruct (_ ?= _)%Q eqn:E.
  - apply Qeq_alt in E. lra.
  - done.
  - apply Qgt_alt in E. lra.
Qed.

#[local] Instance rhe_comp : Proper (Qeq ==> eq) round_half_even.
Proof.
  intros x y Hxy. unfold round_half_even.
  rewrite (Qfloor_comp _ _ Hxy). by rewrite Hxy.
Qed.

Lemma rhe_mono x y : (x <= y)%Q → round_half_even x ≤ round_half_even y.
Proof.
  intros Hxy. pose proof (Qfloor_resp_le _ _ Hxy) as Hf.
  destruct (Z.eq_dec (Qfloor x) (Qfloor y)) as [Heq|Hne].
  - unfold round_half_even. rewrite <- Heq. set (f := Qfloor x).
    destruct (x - inject_Z f ?= 1 # 2)%Q eqn:Ex;
      destruct (y - inject_Z f ?= 1 # 2)%Q eqn:Ey;
      try (destruct (Z.even f)); try lia;
      rewrite <- ?Qeq_alt, <- ?Qlt_alt, <- ?Qgt_alt in *; lra.
  - destruct (rhe_cases x) as [-> | ->];
      destruct (rhe_cases y) as [-> | ->]; lia.
Qed.

Lemma log2_Q a : 0 < a →
  (2 ^ Z.log2 a <= inject_Z a)%Q ∧ (inject_Z a < 2 * 2 ^ Z.log2 a)%Q.
Proof.
  intros Ha. destruct (Z.log2_spec a Ha) as [H1 H2].
  pose proof (Z.log2_nonneg a) as Hl.
  rewrite <- pow2_succ, <- !pow2_Z by lia.
  rewrite <- Zle_Qle, <- Zlt_Qlt. split; [done|]. by rewrite <- Z.add_1_r in H2.
Qed.

Lemma binade_spec q :
  (0 < q)%Q → (2 ^ binade q <= q)%Q ∧ (q < 2 ^ (binade q + 1))%Q.
Proof.
  intros Hq. unfold binade.
  assert (0 < Qnum q) as Ha by (destruct q as [a b]; unfold Qlt in Hq; simpl in *; lia).
  destruct (log2_Q (Qnum q) Ha) as [A1 A2].
  destruct (log2_Q (Z.pos (Qden q)) eq_refl) as [B1 B2].
  set (la := Z.log2 (Qnum q)) in *. set (lb := Z.log2 (Z.pos (Qden q))) in *.
  pose proof (pow2_pos la) as HP. pose proof (pow2_pos lb) as HR.
  pose proof (pow2_pos (la - lb)) as HX.
  assert (2 ^ (la - lb) * 2 ^ lb == 2 ^ la)%Q as HXR.
  { rewrite <- Qpower_plus by done. by replace (la - lb + lb) with la by lia. }
  assert (q * inject_Z (Z.pos (Qden q)) == inject_Z (Qnum q))%Q as Hq'.
  { destruct q as [a b]. unfold Qeq, Qmult, inject_Z. simpl. lia. }
  set (A := inject_Z (Qnum q)) in *. set (B := inject_Z (Z.pos (Qden q))) in *.
  set (P := (2 ^ la)%Q) in *. set (R := (2 ^ lb)%Q) in *.
  set (X := (2 ^ (la - lb))%Q) in *.
  assert (q < 2 * X)%Q as Hup by nra.
  assert (X < 2 * q)%Q as Hlo by nra.
  destruct (Qle_bool X q) eqn:E.
  - apply Qle_bool_iff in E. split; [done|]. by rewrite pow2_succ.
  - assert (q < X)%Q as Hlt.
    { apply Qnot_le_lt. intros H%Qle_bool_iff. congruence. }
    replace (la - lb - 1 + 1) with (la - lb) by lia.
    split; [|done].
    assert (2 ^ (la - lb) == 2 * 2 ^ (la - lb - 1))%Q as HX2.
    { rewrite <- pow2_succ. by replace (la - lb - 1 + 1) with (la - lb) by lia. }
    fold X in HX2. lra.
Qed.

Lemma binade_unique q l :
  (0 < q)%Q → (2 ^ l <= q)%Q → (q < 2 ^ (l + 1))%Q → binade q = l.
Proof.
  intros Hq H1 H2. destruct (binade_spec q Hq) as [H3 H4].
  assert (binade q < l + 1).
  { apply (Qpower_lt_compat_l_inv 2); [lra | done]. }
  assert (l < binade q + 1).
  { apply (Qpower_lt_compat_l_inv 2); [lra | done]. }
  lia.
Qed.

Lemma binade_mono x y : (0 < x)%Q → (x <= y)%Q → binade x ≤ binade y.
Proof.
  intros Hx Hxy. destruct (binade_spec x Hx) as [H1 _].
  destruct (binade_spec y) as [_ H2]; [lra|].
  assert (binade x < binade y + 1); [|lia].
  apply (Qpower_lt_compat_l_inv 2); [lra | done].
Qed.

Lemma binade_comp_pos q q' : (0 < q)%Q → (q == q')%Q → binade q = binade q'.
Proof.
  intros Hq Heq. symmetry. destruct (binade_spec q Hq) as [H1 H2].
  apply binade_unique; lra.
Qed.

(** The significand: between [2^52] and [2^53]. *)
Lemma scaled_spec q :
  (0 < q)%Q →
  (inject_Z (2 ^ 52) <= q / 2 ^ (binade q - 52))%Q
  ∧ (q / 2 ^ (binade q - 52) < inject_Z (2 ^ 53))%Q.
Proof.
  intros Hq. destruct (binade_spec q Hq) as [H1 H2].
  rewrite !pow2_Z by lia.
  set (e := binade q - 52).
  assert (2 ^ binade q == 2 ^ 52 * 2 ^ e)%Q as E1.
  { rewrite <- Qpower_plus by done. by replace (52 + e) with (binade q) by lia. }
  assert (2 ^ (binade q + 1) == 2 ^ 53 * 2 ^ e)%Q as E2.
  { rewrite <- Qpower_plus by done. by replace (53 + e) with (binade q + 1) by lia. }
  pose proof (pow2_pos e) as He.
  split.
  - apply Qle_shift_div_l; [done|]. lra.
  - apply Qlt_shift_div_r; [done|]. lra.
Qed.

Lemma rdp_bounds q :
  (0 < q)%Q →
  (2 ^ binade q <= round_double_pos q)%Q
  ∧ (round_double_pos q <= 2 ^ (binade q + 1))%Q.
Proof.
  intros Hq. destruct (scaled_spec q Hq) as [H1 H2]. unfold round_double_pos.
  set (e := binade q - 52) in *. set (s := (q / 2 ^ e)%Q) in *.
  pose proof (rhe_mono _ _ H1) as L. rewrite rhe_Z in L.
  pose proof (rhe_mono _ _ (Qlt_le_weak _ _ H2)) as U. rewrite rhe_Z in U.
  rewrite Zle_Qle in L, U. rewrite !pow2_Z in L, U by lia.
  assert (2 ^ binade q == 2 ^ 52 * 2 ^ e)%Q as E1.
  { rewrite <- Qpower_plus by done. by replace (52 + e) with (binade q) by lia. }
  assert (2 ^ (binade q + 1) == 2 ^ 53 * 2 ^ e)%Q as E2.
  { rewrite <- Qpower_plus by done. by replace (53 + e) with (binade q + 1) by lia. }
  pose proof (pow2_pos e) as He. rewrite E1, E2.
  split; apply Qmult_le_compat_r; lra.
Qed.

Lemma rdp_pos q : (0 < q)%Q → (0 < round_double_pos q)%Q.
Proof.
  intros Hq. destruct (rdp_bounds q Hq) as [H _].
  pose proof (pow2_pos (binade q)). lra.
Qed.

Lemma rdp_mono x y :
  (0 < x)%Q → (x <= y)%Q → (round_double_pos x <= round_double_pos y)%Q.
Proof.
  intros Hx Hxy. assert (0 < y)%Q as Hy by lra.
  pose proof (binade_mono x y Hx Hxy) as Hb.
  destruct (Z.eq_dec (binade x) (binade y)) as [Heq|Hne].
  - unfold round_double_pos. rewrite Heq. set (e := binade y - 52).
    pose proof (pow2_pos e) as He.
    apply Qmult_le_compat_r; [|lra]. rewrite <- Zle_Qle. apply rhe_mono.
    apply Qmult_le_compat_r; [done|]. apply Qlt_le_weak, Qinv_lt_0_compat, He.
  - destruct (rdp_bounds x Hx) as [_ H1]. destruct (rdp_bounds y Hy) as [H2 _].
    assert (2 ^ (binade x + 1) <= 2 ^ binade y)%Q
      by (apply Qpower_le_compat_l; [lia | lra]).
    lra.
Qed.

Lemma round_double_mono x y :
  (x <= y)%Q → (round_double x <= round_double y)%Q.
Proof.
  intros Hxy. unfold round_double.
  destruct (x ?= 0)%Q eqn:Ex; destruct (y ?= 0)%Q eqn:Ey;
    rewrite <- ?Qeq_alt, <- ?Qlt_alt, <- ?Qgt_alt in *; try lra.
  - pose proof (rdp_pos y). lra.
  - pose proof (rdp_pos (- x)). lra.
  - pose proof (rdp_mono (- y) (- x)). lra.
  - pose proof (rdp_pos (- x)). pose proof (rdp_pos y). lra.
  - by apply rdp_mono.
Qed.

Lemma rdp_exact q k :
  (0 < q)%Q → (q / 2 ^ (binade q - 52) == inject_Z k)%Q →
  (round_double_pos q == q)%Q.
Proof.
  intros Hq Hk. unfold round_double_pos. rewrite Hk, rhe_Z, <- Hk.
  pose proof (pow2_pos (binade q - 52)). field. lra.
Qed.

Lemma round_double_Z d : Z.abs d ≤ 2 ^ 53 → (round_double (inject_Z d) == inject_Z d)%Q.
Proof.
  assert (∀ d, 0 < d ≤ 2 ^ 53 →
            (round_double_pos (inject_Z d) == inject_Z d)%Q) as Hpos.
  { clear d. intros d [Hd1 Hd2].
    assert (0 < inject_Z d)%Q as Hq by (by rewrite <- (Zlt_Qlt 0)).
    destruct (log2_Q d Hd1) as [L1 L2]. rewrite <- pow2_succ in L2.
    pose proof (binade_unique _ _ Hq L1 L2) as Hb.
    pose proof (Z.log2_nonneg d) as Hl.
    assert (Z.log2 d ≤ 53) as Hl53.
    { apply Z.log2_le_mono in Hd2. by rewrite Z.log2_pow2 in Hd2. }
    destruct (decide (Z.log2 d ≤ 52)) as [Hle|Hgt].
    - eapply (rdp_exact _ (d * 2 ^ (52 - Z.log2 d))); [done|]. rewrite Hb.
      rewrite inject_Z_mult, pow2_Z by lia.
      replace (Z.log2 d - 52) with (- (52 - Z.log2 d)) by lia.
      rewrite Qpower_opp. pose proof (pow2_pos (52 - Z.log2 d)). field. lra.
    - assert (d = 2 ^ 53) as ->.
      { assert (Z.log2 d = 53) as E by lia.
        destruct (Z.log2_spec d Hd1) as [H1 _]. rewrite E in H1. lia. }
      apply (rdp_exact _ (2 ^ 52)); [done|]. rewrite Hb. by vm_compute. }
  intros Hd. unfold round_double.
  destruct (inject_Z d ?= 0)%Q eqn:E;
    rewrite <- ?Qeq_alt, <- ?Qlt_alt, <- ?Qgt_alt in E.
  - lra.
  - change 0%Q with (inject_Z 0) in E. rewrite <- Zlt_Qlt in E.
    rewrite <- inject_Z_opp, Hpos by lia. rewrite inject_Z_opp. lra.
  - change 0%Q with (inject_Z 0) in E. rewrite <- Zlt_Qlt in E. apply Hpos. lia.
Qed.

Lemma round_double_error q :
  (Qabs (round_double q - q) <= Qabs q * (1 # 2 ^ 53))%Q.
Proof.
  assert (∀ q, (0 < q)%Q →
            (Qabs (round_double_pos q - q) <= q * (1 # 2 ^ 53))%Q) as Hpos.
  { clear q. intros q Hq. destruct (scaled_spec q Hq) as [H1 _].
    unfold round_double_pos. set (e := binade q - 52) in *.
    pose proof (pow2_pos e) as He.
    destruct (rhe_error (q / 2 ^ e)) as [E1 E2].
    set (m := inject_Z (round_half_even (q / 2 ^ e))) in *.
    assert (q / 2 ^ e * 2 ^ e == q)%Q as Hs by (field; lra).
    set (s := (q / 2 ^ e)%Q) in *.
    assert (inject_Z (2 ^ 52) == 4503599627370496)%Q as E52 by done.
    rewrite E52 in H1.
    assert ((1 # 2 ^ 53) == (1 # 9007199254740992))%Q as E53 by done.
    rewrite E53.
    assert ((m - s) * 2 ^ e <= (1 # 2) * 2 ^ e)%Q
      by (apply Qmult_le_compat_r; lra).
    assert ((s - m) * 2 ^ e <= (1 # 2) * 2 ^ e)%Q
      by (apply Qmult_le_compat_r; lra).
    assert (4503599627370496 * 2 ^ e <= s * 2 ^ e)%Q
      by (apply Qmult_le_compat_r; lra).
    clearbody m s. set (p := (2 ^ e)%Q) in *. clearbody p.
    apply Qabs_case; intros _; lra. }
  unfold round_double.
  destruct (q ?= 0)%Q eqn:E;
    rewrite <- ?Qeq_alt, <- ?Qlt_alt, <- ?Qgt_alt in E.
  - rewrite E. by vm_compute.
  - specialize (Hpos (- q)%Q). rewrite (Qabs_neg q) by lra.
    assert (- round_double_pos (- q) - q == - (round_double_pos (- q) - - q))%Q
      as -> by ring.
    rewrite Qabs_opp. apply Hpos. lra.
  - rewrite (Qabs_pos q) by lra. by apply Hpos.
Qed.

Lemma round_double_comp x y : (x == y)%Q → (round_double x == round_double y)%Q.
Proof.
  intros Hxy. apply Qle_antisym; apply round_double_mono; lra.
Qed.

(** The division agrees with that of [SpecFloat] where it was tried. *)
Example round_double_like_SFdiv :
  forallb (λ '(a, b), SFdiv_agrees a b)
    [(400, 3%positive); (1, 3%positive); (-1, 3%positive); (10, 4%positive);
     (0, 7%positive); (9007199254740991, 2%positive);
     (9007199254740992, 3%positive); (-9007199254740991, 7%positive);
     (1, 1125899906842624%positive); (123456789, 1000%positive);
     (-7, 10%positive); (3, 1%positive); (2, 3%positive); (1, 10%positive);
     (1700000000000, 37%positive)]
  = true.
Proof. by vm_compute. Qed.

(** ** C9: the metrics of a trace *)

(** The duration of a span with a missing duration counted as 0. *)
Definition duration0 (s : Span.t) : Z := default 0 (Span.duration s).

Definition sum_durations (spans : list Span.t) : Z :=
  foldr (λ s acc, duration0 s + acc) 0 spans.

Lemma or0_duration0 s : or0 (Span.duration s) = duration0 s.
Proof.
  unfold duration0. destruct (Span.duration s); [apply or0_Some | done].
Qed.

Lemma totalTime_sum spans : MetricsCollector.totalTime spans = sum_durations spans.
Proof.
  unfold MetricsCollector.totalTime.
  assert (∀ a, fold_left (λ sum span, sum + or0 (Span.duration span)) spans a
               = a + sum_durations spans) as H.
  { induction spans as [|s spans IH]; intros a; simpl; [lia|].
    rewrite IH, or0_duration0. lia. }
  rewrite H. lia.
Qed.

(** The loop returns the first span of maximal duration, the initial
    candidate counting as seen before the list. *)
Lemma slowest_spec spans : ∀ first,
  let r := MetricsCollector.slowest spans first in
  (∀ j s, spans !! j = Some s → duration0 s ≤ duration0 r)
  ∧ duration0 first ≤ duration0 r
  ∧ (r = first
     ∨ ∃ i, spans !! i = Some r ∧ duration0 first < duration0 r
            ∧ ∀ j s, spans !! j = Some s → (j < i)%nat →
                duration0 s < duration0 r).
Proof.
  unfold MetricsCollector.slowest.
  induction spans as [|x spans IH]; intros first; simpl.
  - split_and!; [done | lia | by left].
  - rewrite !or0_duration0.
    set (first' := if bool_decide (duration0 first < duration0 x)
                   then x else first).
    destruct (IH first') as (Hall & Hge & Hcase).
    set (r := fold_left _ spans first') in *.
    assert (duration0 x ≤ duration0 first'
            ∧ duration0 first ≤ duration0 first') as [Hx Hf].
    { unfold first'. case_bool_decide; lia. }
    split_and!.
    + intros [|j] s Hs; simpl in Hs; [injection Hs as <-; lia | by eapply Hall].
    + lia.
    + destruct Hcase as [Hr | (i & Hi & Hlt & Hbefore)].
      * unfold first' in Hr. case_bool_decide as Hd.
        -- right. exists 0%nat. rewrite Hr. split_and!; [done | done | lia].
        -- by left.
      * right. exists (S i). split_and!; [done | lia |].
        intros [|j] s Hs Hj; simpl in Hs.
        -- injection Hs as <-. lia.
        -- apply (Hbefore j s Hs). lia.
Qed.

(** C9.  For a trace with at least one span (all of them allocated),
    [analyzeTrace] returns metrics whose [slowestOperation] carries the
    name and the duration of a span of maximal duration in [allSpans],
    a missing duration counting as 0, namely the first such span in the
    order of [allSpans]; and whose [averageOperationTime] is the sum of the
    durations (missing ones as 0) divided by the number of spans, as
    JavaScript divides: the result is the double nearest to the exact
    quotient, and differs from it by at most [2^-53] of its size. *)
Theorem C9_slowest_and_average (h : Span.heap) (t : Trace.t) (heapUsed : Z) :
  Trace.allSpans t ≠ [] →
  (∀ r, r ∈ Trace.allSpans t → is_Some (h !! r)) →
  ∃ m spans,
    MetricsCollector.analyzeTrace h t heapUsed = Some m
    ∧ Forall2 (λ r s, h !! r = Some s) (Trace.allSpans t) spans
    ∧ (∃ i s,
         spans !! i = Some s
         ∧ MetricsCollector.slowestOperation m
           = {| MetricsCollector.name := Span.name s;
                MetricsCollector.duration := duration0 s |}
         ∧ (∀ j s', spans !! j = Some s' → duration0 s' ≤ duration0 s)
         ∧ (∀ j s', spans !! j = Some s' → (j < i)%nat →
              duration0 s' < duration0 s))
    ∧ MetricsCollector.operationCount m = length (Trace.allSpans t)
    ∧ (MetricsCollector.averageOperationTime m
       == round_double (inject_Z (sum_durations spans)
                        / inject_Z (Z.of_nat (length (Trace.allSpans t)))))%Q
    ∧ (Qabs (MetricsCollector.averageOperationTime m
             - inject_Z (sum_durations spans)
               / inject_Z (Z.of_nat (length (Trace.allSpans t))))
       <= Qabs (inject_Z (sum_durations spans)
                / inject_Z (Z.of_nat (length (Trace.allSpans t))))
          * (1 # 2 ^ 53))%Q.
Proof.
  intros Hne Halloc.
  destruct (mapM_is_Some_2 (λ r, h !! r) (Trace.allSpans t)) as [spans Hm].
  { apply Forall_forall. intros r Hr. by apply Halloc. }
  pose proof (mapM_Some_1 _ _ _ Hm) as HF.
  pose proof (length_mapM _ _ _ Hm) as Hlen.
  unfold MetricsCollector.analyzeTrace. rewrite Hm.
  cbn [mbind option_bind].
  destruct spans as [|s0 spans'] eqn:Es.
  { destruct (Trace.allSpans t); [done | discriminate]. }
  rewrite <- Es in *. assert (head spans = Some s0) as -> by (by rewrite Es).
  cbn [mbind option_bind fmap option_fmap option_map].
  eexists _, spans. split; [done|]. split; [done|].
  cbn [MetricsCollector.slowestOperation MetricsCollector.operationCount
       MetricsCollector.averageOperationTime].
  assert (MetricsCollector.totalTime spans # Pos.of_nat (length spans)
          == inject_Z (sum_durations spans)
             / inject_Z (Z.of_nat (length (Trace.allSpans t))))%Q as Hq.
  { rewrite totalTime_sum, Hlen, Qmake_Qdiv.
    replace (Z.pos (Pos.of_nat (length spans))) with (Z.of_nat (length spans));
      [reflexivity|].
    rewrite Es. simpl length. by rewrite <- Pos.of_nat_succ. }
  split_and!.
  - destruct (slowest_spec spans s0) as (Hall & Hge & Hcase).
    set (r := MetricsCollector.slowest spans s0) in *.
    rewrite or0_duration0.
    destruct Hcase as [Hr | (i & Hi & Hlt & Hbefore)].
    + exists 0%nat, r. split_and!; [by rewrite Hr, Es | done | done |].
      intros j s' _ Hj. lia.
    + exists i, r. done.
  - by rewrite Hlen.
  - by apply round_double_comp.
  - pose proof (round_double_comp _ _ Hq) as Hr. rewrite Hr.
    apply round_double_error.
Qed.

Lemma C9_witness :
  let st0 := Trace.new [] "trace-1-0.5" "checkout" 0 0 "0.25" 0 in
  let ops := [Trace.StartSpan "validate" 0 "0.125" 0; Trace.EndSpan None 200;
              Trace.StartSpan "database query" 200 "0.75" 200;
              Trace.EndSpan None 400] in
  ∃ h t m,
    Trace.run st0 ops = Some (h, t)
    ∧ Trace.allSpans t ≠ []
    ∧ (∀ r, r ∈ Trace.allSpans t → is_Some (h !! r))
    ∧ MetricsCollector.analyzeTrace h t 1048576 = Some m
    ∧ MetricsCollector.slowestOperation m
      = {| MetricsCollector.name := "validate";
           MetricsCollector.duration := 200 |}
    ∧ (MetricsCollector.averageOperationTime m
       == 4691249611844267 # 35184372088832)%Q
    ∧ ¬ (MetricsCollector.averageOperationTime m == 400 # 3)%Q.
Proof.
  intros st0 ops.
  destruct (Trace.run st0 ops) as [[h t]|] eqn:E; [|by vm_compute in E].
  assert (Trace.allSpans t ≠ []) as Hne.
  { vm_compute in E. by injection E as <- <-. }
  assert (∀ r, r ∈ Trace.allSpans t → is_Some (h !! r)) as Ha.
  { vm_compute in E. injection E as <- <-. intros r Hr.
    apply lookup_lt_is_Some_2. simpl.
    repeat (apply elem_of_cons in Hr as [->|Hr]; [lia|]).
    by apply elem_of_nil in Hr. }
  destruct (C9_slowest_and_average h t 1048576 Hne Ha) as (m & spans & Hm & _).
  exists h, t, m. split_and!; try done.
  all: vm_compute in E; injection E as <- <-; vm_compute in Hm;
    by injection Hm as <-.
Defined.

(** ** The ordered map *)

Section jsmap.
Context {V : Type}.
Implicit Types (m : list (string * V)) (k : string) (v : V).

Lemma set_present m k v :
  k ∈ JSMap.keys m →
  ∃ i old, m !! i = Some (k, old) ∧ JSMap.set m k v = <[i := (k, v)]> m
           ∧ ∀ j e, m !! j = Some e → (j < i)%nat → e.1 ≠ k.
Proof.
  unfold JSMap.keys. induction m as [|[k' v'] m IH]; simpl.
  - by intros ?%elem_of_nil.
  - intros Hin. destruct (decide (k' = k)) as [->|Hne].
    + exists 0%nat, v'. split_and!; [done | done |]. intros; lia.
    + apply elem_of_cons in Hin as [?|Hin]; [done|].
      destruct (IH Hin) as (i & old & Hi & -> & Hmin).
      exists (S i), old. split_and!; [done | done |].
      intros [|j] e He Hj; simpl in He; [by injection He as <- | ].
      apply (Hmin j e He). lia.
Qed.

Lemma set_absent m k v : k ∉ JSMap.keys m → JSMap.set m k v = m ++ [(k, v)].
Proof.
  unfold JSMap.keys. induction m as [|[k' v'] m IH]; simpl; [done|].
  intros [Hne Hnin]%not_elem_of_cons.
  destruct (decide (k' = k)); [done|]. by rewrite IH.
Qed.

Lemma set_keys_present m k v :
  k ∈ JSMap.keys m → JSMap.keys (JSMap.set m k v) = JSMap.keys m.
Proof.
  intros (i & old & Hi & -> & _)%(set_present m k v).
  unfold JSMap.keys. rewrite list_fmap_insert. simpl.
  apply list_insert_id. by rewrite list_lookup_fmap, Hi.
Qed.

Lemma get_set_eq m k v : JSMap.get (JSMap.set m k v) k = Some v.
Proof.
  induction m as [|[k' v'] m IH]; simpl.
  - by rewrite decide_True.
  - destruct (decide (k' = k)) as [->|Hne]; simpl.
    + by rewrite decide_True.
    + by rewrite decide_False.
Qed.

Lemma get_None m k : JSMap.get m k = None ↔ k ∉ JSMap.keys m.
Proof.
  unfold JSMap.keys. induction m as [|[k0 v0] m IH]; simpl.
  - split; [intros _; apply not_elem_of_nil | done].
  - rewrite not_elem_of_cons. destruct (decide (k0 = k)) as [->|Hne].
    + split; [done | by intros [? _]].
    + rewrite IH. split; [by intros ? | by intros [_ ?]].
Qed.

Lemma get_Some_elem_of m k v : JSMap.get m k = Some v → (k, v) ∈ m.
Proof.
  induction m as [|[k0 v0] m IH]; simpl; [done|].
  destruct (decide (k0 = k)) as [->|Hne].
  - intros [= ->]. apply list_elem_of_here.
  - intros H. apply list_elem_of_further. by apply IH.
Qed.

Lemma delete_keys_NoDup m k :
  NoDup (JSMap.keys m) →
  NoDup (JSMap.keys (JSMap.delete m k))
  ∧ (k ∉ JSMap.keys (JSMap.delete m k))
  ∧ ∀ k', k' ∈ JSMap.keys (JSMap.delete m k) → k' ∈ JSMap.keys m.
Proof.
  unfold JSMap.keys. induction m as [|[k0 v0] m IH]; simpl.
  - intros _. split_and!; [constructor | apply not_elem_of_nil | done].
  - intros [Hnin Hnd]%NoDup_cons. destruct (IH Hnd) as (IH1 & IH2 & IH3).
    destruct (decide (k0 = k)) as [->|Hne]; simpl.
    + split_and!; [done | done |]. intros. by apply list_elem_of_further.
    + split_and!.
      * apply NoDup_cons. split; [|done]. intros Hin. by apply Hnin, IH3.
      * apply not_elem_of_cons. done.
      * intros k' [->|Hin]%elem_of_cons; [apply list_elem_of_here|].
        by apply list_elem_of_further, IH3.
Qed.

Lemma set_keys_NoDup m k v :
  NoDup (JSMap.keys m) → NoDup (JSMap.keys (JSMap.set m k v)).
Proof.
  intros Hnd. destruct (decide (k ∈ JSMap.keys m)) as [Hin|Hnin].
  - by rewrite set_keys_present.
  - rewrite set_absent by done. unfold JSMap.keys in *. rewrite fmap_app.
    apply NoDup_app. split_and!; [done | | apply NoDup_singleton].
    intros x Hx ->%list_elem_of_singleton. done.
Qed.

End jsmap.

(** ** C3 and C7: the bounded store *)

Definition stored_keys (st : TraceStorage.t) : list string :=
  JSMap.keys (TraceStorage.traces st).

(** The capacity is at least one and is respected. *)
Definition storage_ok (st : TraceStorage.t) : Prop :=
  (1 ≤ TraceStorage.maxTraces st)%nat
  ∧ (JSMap.size (TraceStorage.traces st) ≤ TraceStorage.maxTraces st)%nat.

(** The three ways a [store] call goes: the key is there and its entry is
    overwritten where it is; the key is new and there is room; the key is
    new, the store is full, and the first entry leaves. *)
Lemma store_cases th st tr obj :
  th !! tr = Some obj → storage_ok st →
  ∃ st',
    TraceStorage.store th st tr = Some st'
    ∧ TraceStorage.maxTraces st' = TraceStorage.maxTraces st
    ∧ ((Trace.traceId obj ∈ stored_keys st
        ∧ TraceStorage.traces st'
          = JSMap.set (TraceStorage.traces st) (Trace.traceId obj) tr)
       ∨ ((Trace.traceId obj ∉ stored_keys st)
          ∧ (JSMap.size (TraceStorage.traces st) < TraceStorage.maxTraces st)%nat
          ∧ TraceStorage.traces st'
            = TraceStorage.traces st ++ [(Trace.traceId obj, tr)])
       ∨ ((Trace.traceId obj ∉ stored_keys st)
          ∧ JSMap.size (TraceStorage.traces st) = TraceStorage.maxTraces st
          ∧ ∃ k0 v0 rest,
              TraceStorage.traces st = (k0, v0) :: rest
              ∧ TraceStorage.traces st' = rest ++ [(Trace.traceId obj, tr)])).
Proof.
  intros Hobj [Hcap Hsize]. unfold TraceStorage.store. rewrite Hobj. simpl.
  set (key := Trace.traceId obj). unfold stored_keys, JSMap.size in *.
  destruct (decide (key ∈ JSMap.keys (TraceStorage.traces st))) as [Hin|Hnin].
  - destruct (set_present _ key tr Hin) as (i & old & Hi & Hset & _).
    rewrite decide_False by (rewrite Hset, length_insert; lia).
    eexists. split; [done|]. split; [done|]. left. done.
  - rewrite (set_absent _ key tr Hnin), length_app. simpl.
    case_decide as Hfull.
    + destruct (TraceStorage.traces st) as [|[k0 v0] rest] eqn:E;
        [simpl in *; lia|].
      eexists. split; [done|]. split; [done|]. right. right.
      split_and!; [done | simpl in *; lia |].
      exists k0, v0, rest. split; [done|]. simpl. by rewrite decide_True.
    + eexists. split; [done|]. split; [done|]. right. left.
      split_and!; [done | lia | done].
Qed.

Lemma store_ok th st tr st' :
  storage_ok st → TraceStorage.store th st tr = Some st' → storage_ok st'.
Proof.
  intros Hok Hst. pose proof Hok as [Hcap Hsize].
  destruct (th !! tr) as [obj|] eqn:Hobj;
    [|unfold TraceStorage.store in Hst; by rewrite Hobj in Hst].
  destruct (store_cases th st tr obj Hobj Hok) as (st0 & E & Hmax & Hcase).
  rewrite E in Hst. injection Hst as <-. unfold storage_ok, JSMap.size in *.
  rewrite Hmax. split; [done|].
  destruct Hcase as [[Hin ->] | [(_ & Hlt & ->) | (_ & Heq & k0 & v0 & rest & E0 & ->)]].
  - destruct (set_present _ _ tr Hin) as (i & old & _ & -> & _).
    by rewrite length_insert.
  - rewrite length_app. simpl. lia.
  - rewrite E0 in Heq. rewrite length_app. simpl in *. lia.
Qed.

Lemma store_keys_NoDup th st tr st' :
  NoDup (stored_keys st) → TraceStorage.store th st tr = Some st' →
  NoDup (stored_keys st').
Proof.
  unfold TraceStorage.store, stored_keys.
  destruct (th !! tr) as [obj|]; simpl; [|done]. intros Hnd.
  pose proof (set_keys_NoDup _ (Trace.traceId obj) tr Hnd) as Hnd'.
  case_decide; intros [= <-]; simpl; [|done].
  destruct (JSMap.first_key _) as [k0|]; simpl; [|done].
  by apply delete_keys_NoDup.
Qed.

Lemma storage_run_snoc st calls th tr :
  TraceStorage.run st (calls ++ [(th, tr)])
  = TraceStorage.run st calls ≫= λ st', TraceStorage.store th st' tr.
Proof.
  revert st. induction calls as [|[th0 tr0] calls IH]; intros st; simpl.
  - by destruct (TraceStorage.store th st tr).
  - destruct (TraceStorage.store th0 st tr0); simpl; [apply IH | done].
Qed.

Lemma storage_run_ok calls : ∀ st st',
  storage_ok st → NoDup (stored_keys st) →
  TraceStorage.run st calls = Some st' →
  storage_ok st' ∧ NoDup (stored_keys st')
  ∧ TraceStorage.maxTraces st' = TraceStorage.maxTraces st.
Proof.
  induction calls as [|[th tr] calls IH]; intros st st' Hok Hnd; simpl.
  - by intros [= <-].
  - destruct (TraceStorage.store th st tr) as [st1|] eqn:E; simpl; [|done].
    intros Hrun.
    destruct (IH st1 st' (store_ok _ _ _ _ Hok E)
                (store_keys_NoDup _ _ _ _ Hnd E) Hrun) as (? & ? & ->).
    split_and!; [done | done |].
    unfold TraceStorage.store in E. destruct (th !! tr); simpl in E; [|done].
    by case_decide; injection E as <-.
Qed.

Lemma storage_new_ok : storage_ok TraceStorage.new ∧ NoDup (stored_keys TraceStorage.new).
Proof.
  split; [split; simpl; lia | constructor].
Qed.

(** The histories of a store that starts empty. *)
Definition state_after (calls : list (list Trace.t * ref)) (j : nat)
    : option TraceStorage.t :=
  TraceStorage.run TraceStorage.new (take j calls).

Definition present_after calls (j : nat) (k : string) : Prop :=
  ∃ st, state_after calls j = Some st ∧ k ∈ stored_keys st.

Definition absent_after calls (j : nat) (k : string) : Prop :=
  ∃ st, state_after calls j = Some st ∧ k ∉ stored_keys st.

(** The entry under [k] was made by call number [i] (counting from 0): the
    key was not in the store before that call and has been in it after
    every call since. *)
Definition inserted_at calls (i : nat) (k : string) : Prop :=
  (i < length calls)%nat
  ∧ absent_after calls i k
  ∧ ∀ j, (i < j ≤ length calls)%nat → present_after calls j k.

Section history.
Variables (calls : list (list Trace.t * ref)) (th : list Trace.t) (tr : ref).
Variables (st st' : TraceStorage.t).
Hypothesis Hrun : TraceStorage.run TraceStorage.new calls = Some st.
Hypothesis Hstore : TraceStorage.store th st tr = Some st'.

Lemma state_after_old j :
  (j ≤ length calls)%nat →
  state_after (calls ++ [(th, tr)]) j = state_after calls j.
Proof. intros Hj. unfold state_after. by rewrite take_app_le. Qed.

Lemma state_after_all : state_after calls (length calls) = Some st.
Proof. unfold state_after. by rewrite firstn_all. Qed.

Lemma state_after_new :
  state_after (calls ++ [(th, tr)]) (S (length calls)) = Some st'.
Proof.
  unfold state_after. rewrite take_ge by (rewrite length_app; simpl; lia).
  by rewrite storage_run_snoc, Hrun.
Qed.

Lemma inserted_at_keep i k :
  inserted_at calls i k → k ∈ stored_keys st' →
  inserted_at (calls ++ [(th, tr)]) i k.
Proof.
  intros (Hi & (s0 & Hs0 & Habs) & Hpres) Hin. split_and!.
  - rewrite length_app. lia.
  - exists s0. by rewrite state_after_old by lia.
  - intros j Hj. rewrite length_app in Hj. simpl in Hj.
    destruct (decide (j ≤ length calls)%nat) as [Hle|Hgt].
    + destruct (Hpres j) as (s & Hs & ?); [lia|].
      exists s. by rewrite state_after_old.
    + replace j with (S (length calls)) by lia.
      exists st'. by rewrite state_after_new.
Qed.

Lemma inserted_at_before i k :
  inserted_at (calls ++ [(th, tr)]) i k → (i < length calls)%nat →
  inserted_at calls i k.
Proof.
  intros (_ & (s0 & Hs0 & Habs) & Hpres) Hi. split_and!.
  - done.
  - exists s0. by rewrite <- state_after_old by lia.
  - intros j Hj. destruct (Hpres j) as (s & Hs & ?).
    + rewrite length_app. lia.
    + exists s. by rewrite <- state_after_old by lia.
Qed.

Lemma inserted_at_last_absent i k :
  inserted_at (calls ++ [(th, tr)]) i k → ¬ (i < length calls)%nat →
  i = length calls ∧ k ∉ stored_keys st.
Proof.
  intros (Hi & (s0 & Hs0 & Habs) & _) Hge.
  rewrite length_app in Hi. simpl in Hi.
  assert (i = length calls) as -> by lia. split; [done|].
  rewrite state_after_old, state_after_all in Hs0 by lia. congruence.
Qed.

Lemma inserted_at_last k :
  k ∉ stored_keys st → k ∈ stored_keys st' →
  inserted_at (calls ++ [(th, tr)]) (length calls) k.
Proof.
  intros Hnin Hin. split_and!.
  - rewrite length_app. simpl. lia.
  - exists st. by rewrite state_after_old, state_after_all.
  - intros j Hj. rewrite length_app in Hj. simpl in Hj.
    replace j with (S (length calls)) by lia.
    exists st'. by rewrite state_after_new.
Qed.

Lemma inserted_at_present i k : inserted_at calls i k → k ∈ stored_keys st.
Proof.
  intros (Hi & _ & Hpres). destruct (Hpres (length calls)) as (s & Hs & ?);
    [lia|]. rewrite state_after_all in Hs. congruence.
Qed.

End history.

(** Every stored key has an insertion call, and the keys are stored in the
    order of their insertions. *)
Definition births_ordered calls (st : TraceStorage.t) : Prop :=
  (∀ k, k ∈ stored_keys st → ∃ i, inserted_at calls i k)
  ∧ (∀ a b ka kb ia ib,
       stored_keys st !! a = Some ka → stored_keys st !! b = Some kb →
       (a < b)%nat →
       inserted_at calls ia ka → inserted_at calls ib kb → (ia < ib)%nat).

(** The keys after a [store]: those before, without the first one if it
    was evicted, and with the new key last if it was new. *)
Lemma store_keys_shape th st tr st' :
  storage_ok st → TraceStorage.store th st tr = Some st' →
  ∃ d fresh,
    stored_keys st' = drop d (stored_keys st) ++ fresh
    ∧ (fresh = [] ∨ ∃ key, fresh = [key] ∧ key ∉ stored_keys st).
Proof.
  intros Hok Hst.
  destruct (th !! tr) as [obj|] eqn:Hobj;
    [|unfold TraceStorage.store in Hst; by rewrite Hobj in Hst].
  destruct (store_cases th st tr obj Hobj Hok) as (st0 & E & _ & Hcase).
  rewrite E in Hst. injection Hst as <-. unfold stored_keys in *.
  destruct Hcase as [[Hin ->] | [(Hnin & _ & ->) | (Hnin & _ & k0 & v0 & rest & E0 & ->)]].
  - exists 0%nat, []. rewrite set_keys_present, app_nil_r by done.
    split; [done | by left].
  - exists 0%nat, [Trace.traceId obj]. unfold JSMap.keys. rewrite fmap_app.
    split; [done|]. right. eauto.
  - exists 1%nat, [Trace.traceId obj]. unfold JSMap.keys in *.
    rewrite fmap_app, E0. split; [done|]. right. rewrite <- E0. eauto.
Qed.

Lemma births_run calls : ∀ st,
  TraceStorage.run TraceStorage.new calls = Some st → births_ordered calls st.
Proof.
  induction calls as [|[th tr] calls IH] using rev_ind; intros st Hrun.
  { injection Hrun as <-. split.
    - by intros k ?%elem_of_nil.
    - intros a b ka kb ia ib Ha. done. }
  rewrite storage_run_snoc in Hrun.
  destruct (TraceStorage.run TraceStorage.new calls) as [st0|] eqn:Hrun0;
    simpl in Hrun; [|done].
  destruct (IH st0 eq_refl) as [Hex Hord].
  destruct storage_new_ok as [Hok0 Hnd0].
  destruct (storage_run_ok calls _ _ Hok0 Hnd0 Hrun0) as (Hok & _ & _).
  destruct (store_keys_shape th st0 tr st Hok Hrun) as (d & fresh & Hkeys & Hfresh).
  assert (Hsub : ∀ i k, drop d (stored_keys st0) !! i = Some k →
                        stored_keys st0 !! (d + i)%nat = Some k
                        ∧ k ∈ stored_keys st0).
  { intros i k Hi. rewrite lookup_drop in Hi.
    split; [done | by eapply list_elem_of_lookup_2]. }
  (* a key that was already stored was not inserted by the last call *)
  assert (Hold : ∀ i k, k ∈ stored_keys st0 →
                   inserted_at (calls ++ [(th, tr)]) i k →
                   inserted_at calls i k).
  { intros i k Hk Hi. destruct (decide (i < length calls)%nat) as [Hlt|Hge].
    - by eapply inserted_at_before.
    - by destruct (inserted_at_last_absent calls th tr st0 Hrun0 i k Hi Hge). }
  split.
  - intros k Hk. rewrite Hkeys in Hk. apply elem_of_app in Hk as [Hk|Hk].
    + apply list_elem_of_lookup_1 in Hk as [i Hi].
      destruct (Hsub i k Hi) as [_ Hin]. destruct (Hex k Hin) as [j Hj].
      exists j. eapply inserted_at_keep; [done.. |].
      rewrite Hkeys. apply elem_of_app. left. by eapply list_elem_of_lookup_2.
    + destruct Hfresh as [-> | (key & -> & Hnin)]; [by apply elem_of_nil in Hk|].
      apply list_elem_of_singleton in Hk as ->.
      exists (length calls). eapply inserted_at_last; [done.. |].
      rewrite Hkeys. apply elem_of_app. right. by apply list_elem_of_singleton.
  - intros a b ka kb ia ib Ha Hb Hab Hia Hib. rewrite Hkeys in Ha, Hb.
    apply lookup_app_Some in Ha as [Ha | [Hlen Ha]].
    2: { (* [ka] is the new key, so nothing comes after it *)
         apply lookup_app_Some in Hb as [Hb | [_ Hb]].
         - apply lookup_lt_Some in Hb. lia.
         - destruct Hfresh as [-> | (key & -> & _)]; [done|].
           destruct (a - length (drop d (stored_keys st0)))%nat eqn:Ea;
             [|done].
           destruct (b - length (drop d (stored_keys st0)))%nat eqn:Eb;
             [lia | done]. }
    destruct (Hsub a ka Ha) as [Ha' Hina].
    pose proof (Hold ia ka Hina Hia) as Hia'.
    apply lookup_app_Some in Hb as [Hb | [Hlen Hb]].
    + destruct (Hsub b kb Hb) as [Hb' Hinb].
      apply (Hord (d + a)%nat (d + b)%nat ka kb ia ib); try done; [lia|].
      by apply Hold.
    + destruct Hfresh as [-> | (key & -> & Hnin)]; [done|].
      apply list_elem_of_lookup_2, list_elem_of_singleton in Hb as ->.
      destruct Hia' as (Hlt & _).
      destruct (decide (ib < length calls)%nat) as [Hlt'|Hge].
      * exfalso. apply Hnin.
        eapply inserted_at_present; [done|]. by eapply inserted_at_before.
      * destruct (inserted_at_last_absent calls th tr st0 Hrun0 ib _ Hib Hge)
          as [-> _]. done.
Qed.

(** C3.  After any sequence of [store] calls on a new store, it holds at
    most [maxTraces] = 1000 entries.  When a further [store] makes the map
    larger than that, exactly one entry leaves, the first of the map, the
    others stay in their order and the new entry is last; the entry that
    leaves is not the new one, and it had been inserted by an earlier call
    than each of the entries that stay. *)
Theorem C3_capacity_and_eviction
    (calls : list (list Trace.t * ref)) (st : TraceStorage.t) :
  TraceStorage.run TraceStorage.new calls = Some st →
  TraceStorage.maxTraces st = 1000%nat
  ∧ (JSMap.size (TraceStorage.traces st) ≤ 1000)%nat
  ∧ ∀ th tr obj st',
      th !! tr = Some obj →
      TraceStorage.store th st tr = Some st' →
      (TraceStorage.maxTraces st
       < JSMap.size (JSMap.set (TraceStorage.traces st) (Trace.traceId obj) tr))%nat →
      ∃ k0 v0 rest,
        TraceStorage.traces st = (k0, v0) :: rest
        ∧ TraceStorage.traces st' = rest ++ [(Trace.traceId obj, tr)]
        ∧ k0 ≠ Trace.traceId obj
        ∧ (∃ i0, inserted_at calls i0 k0)
        ∧ ∀ k i0 i, k ∈ JSMap.keys rest →
            inserted_at calls i0 k0 → inserted_at calls i k → (i0 < i)%nat.
Proof.
  intros Hrun.
  destruct storage_new_ok as [Hok0 Hnd0].
  destruct (storage_run_ok calls _ _ Hok0 Hnd0 Hrun) as (Hok & Hnd & Hmax).
  simpl in Hmax. pose proof Hok as [_ Hsize]. rewrite Hmax in Hsize.
  split; [done|]. split; [done|].
  intros th tr obj st' Hobj Hst Hover.
  destruct (births_run calls st Hrun) as [Hex Hord].
  destruct (store_cases th st tr obj Hobj Hok) as (st0 & E & _ & Hcase).
  rewrite E in Hst. injection Hst as <-. unfold JSMap.size in *.
  destruct Hcase as [[Hin _] | [(Hnin & Hlt & _) | (Hnin & _ & k0 & v0 & rest & E0 & E1)]].
  - destruct (set_present _ _ tr Hin) as (i & old & _ & Hset & _).
    rewrite Hset, length_insert in Hover. lia.
  - rewrite (set_absent _ _ tr Hnin), length_app in Hover. simpl in Hover. lia.
  - unfold stored_keys in *. rewrite E0 in *.
    exists k0, v0, rest. split; [done|]. split; [done|]. split_and!.
    + intros Heq. apply Hnin. rewrite <- Heq. apply list_elem_of_here.
    + apply Hex. apply list_elem_of_here.
    + intros k i0 i Hk Hi0 Hi. apply list_elem_of_lookup_1 in Hk as [b Hb].
      apply (Hord 0%nat (S b) k0 k i0 i); try done. lia.
Qed.

(** A finished trace numbered [i], for examples: the rendering of the random
    number in its identifier ends in [i]. *)
Definition demo_trace (i : nat) : Trace.t :=
  {| Trace.traceId := Tracer.make_id 1 ("0." +:+ pretty i);
     Trace.startTime := 1;
     Trace.endTime := Some 2;
     Trace.duration := Some 1;
     Trace.rootSpan := i; Trace.allSpans := [i];
     Trace.status := Trace.completed; Trace.currentSpan := i |}.

Definition demo_traces (n : nat) : list Trace.t := demo_trace <$> seq 0 n.

(** The traces numbered [0], ..., [n - 1] of [th] stored one by one. *)
Definition demo_calls (th : list Trace.t) (n : nat)
    : list (list Trace.t * ref) :=
  (λ i, (th, i)) <$> seq 0 n.

Definition demo_entries (n : nat) : list (string * ref) :=
  (λ i, (Trace.traceId (demo_trace i), i)) <$> seq 0 n.

Lemma demo_trace_inj i j :
  Trace.traceId (demo_trace i) = Trace.traceId (demo_trace j) → i = j.
Proof.
  unfold demo_trace, Tracer.make_id. simpl. intros [= H].
  by apply pretty_nat_inj.
Qed.

Lemma demo_traces_lookup n i :
  (i < n)%nat → demo_traces n !! i = Some (demo_trace i).
Proof.
  intros Hi. unfold demo_traces. rewrite list_lookup_fmap.
  by rewrite (proj2 (lookup_seq 0 n i i) (conj eq_refl Hi)).
Qed.

Lemma demo_entries_fresh n i :
  (n ≤ i)%nat → Trace.traceId (demo_trace i) ∉ JSMap.keys (demo_entries n).
Proof.
  intros Hle. unfold JSMap.keys, demo_entries. rewrite <- list_fmap_compose.
  intros (j & Hj & Hseq)%list_elem_of_fmap.
  apply elem_of_seq in Hseq. apply demo_trace_inj in Hj. lia.
Qed.

Lemma demo_entries_head n :
  head (demo_entries (S n)) = Some (Trace.traceId (demo_trace 0), 0%nat).
Proof. done. Qed.

(** While there is room each new trace goes to the end of the map. *)
Lemma demo_run th n :
  (n ≤ 1000)%nat → (∀ i, (i < n)%nat → th !! i = Some (demo_trace i)) →
  TraceStorage.run TraceStorage.new (demo_calls th n)
  = Some {| TraceStorage.traces := demo_entries n;
            TraceStorage.maxTraces := 1000 |}.
Proof.
  induction n as [|n IH]; intros Hn Hth; [done|].
  unfold demo_calls, demo_entries in *. rewrite seq_S, !fmap_app. simpl.
  rewrite storage_run_snoc, IH by (intros; try apply Hth; lia). simpl.
  unfold TraceStorage.store. rewrite Hth by lia. simpl.
  rewrite set_absent by (by apply demo_entries_fresh).
  rewrite decide_False; [done|].
  unfold JSMap.size. rewrite length_app, length_fmap, length_seq. simpl. lia.
Qed.

(** A thousand traces are stored, then one more: the first one leaves. *)
Lemma C3_witness :
  let th := demo_traces 1001 in
  let calls := demo_calls th 1000 in
  ∃ st st' v0 rest,
    TraceStorage.run TraceStorage.new calls = Some st
    ∧ JSMap.size (TraceStorage.traces st) = 1000%nat
    ∧ th !! 1000%nat = Some (demo_trace 1000)
    ∧ TraceStorage.store th st 1000%nat = Some st'
    ∧ TraceStorage.traces st = (Trace.traceId (demo_trace 0), v0) :: rest
    ∧ TraceStorage.traces st'
      = rest ++ [(Trace.traceId (demo_trace 1000), 1000%nat)]
    ∧ JSMap.size (TraceStorage.traces st') = 1000%nat
    ∧ ∀ k i0 i, k ∈ JSMap.keys rest →
        inserted_at calls i0 (Trace.traceId (demo_trace 0)) →
        inserted_at calls i k → (i0 < i)%nat.
Proof.
  intros th calls.
  set (st := {| TraceStorage.traces := demo_entries 1000;
                TraceStorage.maxTraces := 1000 |}).
  assert (Hrun : TraceStorage.run TraceStorage.new calls = Some st).
  { apply demo_run; [lia|]. intros i Hi. apply demo_traces_lookup. lia. }
  assert (Hobj : th !! 1000%nat = Some (demo_trace 1000)).
  { apply demo_traces_lookup. lia. }
  assert (Hnew : Trace.traceId (demo_trace 1000) ∉ JSMap.keys (demo_entries 1000)).
  { apply demo_entries_fresh. lia. }
  assert (Hlen : length (demo_entries 1000) = 1000%nat).
  { unfold demo_entries. by rewrite length_fmap, length_seq. }
  destruct (C3_capacity_and_eviction calls st Hrun) as (_ & Hsize & Hev).
  assert (Hok : storage_ok st) by (split; [simpl; lia | done]).
  destruct (store_cases th st 1000%nat _ Hobj Hok) as (st' & Hst & _).
  destruct (Hev th 1000%nat (demo_trace 1000) st' Hobj Hst)
    as (k0 & v0 & rest & H1 & H2 & _ & _ & Hfirst).
  { unfold JSMap.size. subst st. cbn [TraceStorage.traces TraceStorage.maxTraces].
    rewrite set_absent, length_app, Hlen by done. simpl. lia. }
  assert (k0 = Trace.traceId (demo_trace 0)) as ->.
  { pose proof (f_equal head H1) as Hhead. subst st.
    cbn [TraceStorage.traces head] in Hhead.
    rewrite (demo_entries_head 999) in Hhead. by injection Hhead as <- _. }
  exists st, st', v0, rest. split_and!; [done | exact Hlen | done..| | done].
  unfold JSMap.size. rewrite H2, length_app.
  subst st. cbn [TraceStorage.traces] in H1. rewrite H1 in Hlen.
  cbn [length] in Hlen |- *. lia.
Defined.

(** C7.  Storing a trace whose identifier is already a key of the store
    overwrites the value where it is: the keys and their order are the
    same, [getAll()] differs only at that position, the entry that would
    be evicted next is the same, and every key has the insertion call it
    had. *)
Theorem C7_restore_keeps_position
    (calls : list (list Trace.t * ref)) (st : TraceStorage.t)
    (th : list Trace.t) (tr : ref) (obj : Trace.t) :
  TraceStorage.run TraceStorage.new calls = Some st →
  th !! tr = Some obj →
  Trace.traceId obj ∈ stored_keys st →
  ∃ st' i old,
    TraceStorage.store th st tr = Some st'
    ∧ TraceStorage.traces st !! i = Some (Trace.traceId obj, old)
    ∧ TraceStorage.traces st' = <[i := (Trace.traceId obj, tr)]> (TraceStorage.traces st)
    ∧ stored_keys st' = stored_keys st
    ∧ TraceStorage.getAll st' = <[i := tr]> (TraceStorage.getAll st)
    ∧ TraceStorage.get st' (Trace.traceId obj) = Some tr
    ∧ JSMap.first_key (TraceStorage.traces st')
      = JSMap.first_key (TraceStorage.traces st)
    ∧ ∀ j k, inserted_at (calls ++ [(th, tr)]) j k ↔ inserted_at calls j k.
Proof.
  intros Hrun Hobj Hin.
  destruct storage_new_ok as [Hok0 Hnd0].
  destruct (storage_run_ok calls _ _ Hok0 Hnd0 Hrun) as (Hok & Hnd & _).
  destruct (store_cases th st tr obj Hobj Hok) as (st' & E & _ & Hcase).
  destruct Hcase as [[_ Hset] | [(Hnin & _) | (Hnin & _)]]; [|done..].
  destruct (set_present (TraceStorage.traces st) _ tr Hin)
    as (i & old & Hi & Hset' & _).
  assert (Hkeys : stored_keys st' = stored_keys st).
  { unfold stored_keys. rewrite Hset. by apply set_keys_present. }
  exists st', i, old. split_and!; try done.
  - by rewrite Hset, Hset'.
  - unfold TraceStorage.getAll, JSMap.values.
    by rewrite Hset, Hset', list_fmap_insert.
  - unfold TraceStorage.get. rewrite Hset. apply get_set_eq.
  - unfold JSMap.first_key. fold (stored_keys st') (stored_keys st).
    by rewrite Hkeys.
  - intros j k. split.
    + intros Hj. destruct (decide (j < length calls)%nat) as [Hlt|Hge].
      * by eapply inserted_at_before.
      * destruct (inserted_at_last_absent calls th tr st Hrun j k Hj Hge)
          as [_ Hnin]. exfalso. apply Hnin. rewrite <- Hkeys.
        eapply (inserted_at_present (calls ++ [(th, tr)]) st'); [|exact Hj].
        by rewrite storage_run_snoc, Hrun.
    + intros Hj. eapply inserted_at_keep; [done.. |].
      rewrite Hkeys. by eapply inserted_at_present.
Qed.

(** Three traces are stored, then the first one again. *)
Lemma C7_witness :
  let th := demo_traces 3 in
  let calls := demo_calls th 3 in
  ∃ st st',
    TraceStorage.run TraceStorage.new calls = Some st
    ∧ th !! 0%nat = Some (demo_trace 0)
    ∧ Trace.traceId (demo_trace 0) ∈ stored_keys st
    ∧ TraceStorage.store th st 0%nat = Some st'
    ∧ stored_keys st' = stored_keys st
    ∧ stored_keys st' = ["trace-1-0.0"; "trace-1-0.1"; "trace-1-0.2"]%string
    ∧ ∀ j k, inserted_at (calls ++ [(th, 0%nat)]) j k ↔ inserted_at calls j k.
Proof.
  intros th calls.
  destruct (TraceStorage.run TraceStorage.new calls) as [st|] eqn:E;
    [|by vm_compute in E].
  assert (Hobj : th !! 0%nat = Some (demo_trace 0)) by done.
  assert (Hin : Trace.traceId (demo_trace 0) ∈ stored_keys st).
  { vm_compute in E. injection E as <-. apply list_elem_of_here. }
  destruct (C7_restore_keeps_position calls st th 0%nat _ E Hobj Hin)
    as (st' & i & old & Hst & _ & _ & Hkeys & _ & _ & _ & Hins).
  exists st, st'. split_and!; try done.
  rewrite Hkeys. vm_compute in E. by injection E as <-.
Defined.

(** ** The tracer *)

Section jsmap_elements.
Context {V : Type}.
Implicit Types (m : list (string * V)) (k : string) (v : V).

Lemma elem_of_set m k v e : e ∈ JSMap.set m k v → e = (k, v) ∨ e ∈ m.
Proof.
  induction m as [|[k' v'] m IH]; simpl.
  - intros ->%list_elem_of_singleton. by left.
  - destruct (decide (k' = k)) as [->|Hne].
    + intros [->|He]%elem_of_cons; [by left|]. right. by apply list_elem_of_further.
    + intros [->|He]%elem_of_cons; [right; apply list_elem_of_here|].
      destruct (IH He) as [->|?]; [by left|]. right. by apply list_elem_of_further.
Qed.

Lemma elem_of_delete m k e : e ∈ JSMap.delete m k → e ∈ m.
Proof.
  induction m as [|[k' v'] m IH]; simpl; [done|].
  destruct (decide (k' = k)) as [->|Hne].
  - intros He. by apply list_elem_of_further.
  - intros [->|He]%elem_of_cons; [apply list_elem_of_here|].
    by apply list_elem_of_further, IH.
Qed.

Lemma get_delete_eq m k :
  NoDup (JSMap.keys m) → JSMap.get (JSMap.delete m k) k = None.
Proof.
  intros Hnd. apply get_None. by apply delete_keys_NoDup.
Qed.

End jsmap_elements.

(** The state of a program that uses one tracer: every active trace is an
    allocated trace object filed under its own identifier, the keys of the
    active map are distinct, and the store respects its capacity. *)
Record tracer_wf (w : Heap) (T : Tracer.t) : Prop := {
  active_alloc : ∀ k tr, (k, tr) ∈ Tracer.activeTraces T →
      ∃ obj, traces w !! tr = Some obj ∧ Trace.traceId obj = k;
  active_keys : NoDup (JSMap.keys (Tracer.activeTraces T));
  tracer_storage : storage_ok (Tracer.storage T);
}.

Lemma tracer_wf_new w config : tracer_wf w (Tracer.new config).
Proof.
  split; simpl.
  - by intros k tr ?%elem_of_nil.
  - constructor.
  - apply storage_new_ok.
Qed.

Lemma tracer_wf_startTrace w T name traceNow traceRnd now idNow rnd startNow :
  tracer_wf w T →
  tracer_wf (Tracer.startTrace w T name traceNow traceRnd now idNow rnd startNow).1.1
            (Tracer.startTrace w T name traceNow traceRnd now idNow rnd startNow).1.2.
Proof.
  intros [Ha Hk Hs]. unfold Tracer.startTrace, Trace.new, Span.alloc. simpl.
  split; simpl; [|by apply set_keys_NoDup | done].
  intros k tr [[= -> ->] | Hin]%elem_of_set.
  - eexists. split; [by rewrite lookup_app_r, Nat.sub_diag | done].
  - destruct (Ha k tr Hin) as (obj & Hobj & Hid).
    exists obj. split; [by apply lookup_app_l_Some | done].
Qed.

(** The outcomes of [exportTrace]. *)
Lemma exportTrace_cases w T tr stack heapUsed obj :
  traces w !! tr = Some obj →
  ∃ exported,
    Tracer.exportTrace w T tr stack heapUsed = Some exported
    ∧ (exported = Normal ()
       ∨ (exported = Throw Tracer.stack_overflow
          ∧ Trace.visualize stack (spans w) obj = None)
       ∨ (exported = Throw Tracer.no_span_to_name
          ∧ MetricsCollector.analyzeTrace (spans w) obj heapUsed = None)).
Proof.
  intros Hobj. unfold Tracer.exportTrace. rewrite Hobj.
  cbn [mbind option_bind].
  case_decide; [|eexists; split; [done | by left]].
  destruct (Trace.visualize stack (spans w) obj) eqn:Ev;
    [|eexists; split; [done | right; by left]].
  case_decide; [|eexists; split; [done | by left]].
  destruct (MetricsCollector.analyzeTrace (spans w) obj heapUsed) eqn:Ea;
    eexists; (split; [done|]); [by left | right; by right].
Qed.

(** The errors of [exportTrace] are not the error of an unknown
    identifier. *)
Lemma not_found_is_no_export_error traceId :
  {| message := "Trace not found: " +:+ traceId |} ≠ Tracer.stack_overflow
  ∧ {| message := "Trace not found: " +:+ traceId |} ≠ Tracer.no_span_to_name.
Proof. split; intros [= H]; by cbv in H. Qed.

(** What [finishTrace] does on a well-formed state. *)
Lemma finishTrace_spec w T traceId error now stack heapUsed :
  tracer_wf w T →
  match JSMap.get (Tracer.activeTraces T) traceId with
  | None =>
      Tracer.finishTrace w T traceId error now stack heapUsed
      = Some (w, T, Throw {| message := "Trace not found: " +:+ traceId |})
  | Some tr =>
      ∃ obj storage' exported,
        let w' := {| spans := spans w;
                     traces := <[tr := Trace.finish obj error now]> (traces w) |} in
        let T' := {| Tracer.config := Tracer.config T;
                     Tracer.storage := storage';
                     Tracer.activeTraces :=
                       JSMap.delete (Tracer.activeTraces T) traceId |} in
        traces w !! tr = Some obj
        ∧ Trace.traceId obj = traceId
        ∧ TraceStorage.store (traces w') (Tracer.storage T) tr = Some storage'
        ∧ storage_ok storage'
        ∧ TraceStorage.get storage' traceId = Some tr
        ∧ Tracer.exportTrace w' T' tr stack heapUsed = Some exported
        ∧ (exported = Normal ()
           ∨ (exported = Throw Tracer.stack_overflow
              ∧ Trace.visualize stack (spans w) (Trace.finish obj error now)
                = None)
           ∨ (exported = Throw Tracer.no_span_to_name
              ∧ MetricsCollector.analyzeTrace
                  (spans w) (Trace.finish obj error now) heapUsed
                = None))
        ∧ Tracer.finishTrace w T traceId error now stack heapUsed
          = Some (w', T',
                  match exported with
                  | Normal _ => Normal tr
                  | Throw e => Throw e
                  end)
  end.
Proof.
  intros [Ha Hk Hs]. unfold Tracer.finishTrace.
  destruct (JSMap.get (Tracer.activeTraces T) traceId) as [tr|] eqn:Hget;
    [|done].
  destruct (Ha traceId tr (get_Some_elem_of _ _ _ Hget)) as (obj & Hobj & Hid).
  rewrite Hobj. cbn [mbind option_bind].
  set (th := <[tr := Trace.finish obj error now]> (traces w)).
  assert (Hth : th !! tr = Some (Trace.finish obj error now)).
  { apply list_lookup_insert_eq. by eapply lookup_lt_Some. }
  destruct (store_cases th (Tracer.storage T) tr _ Hth Hs)
    as (storage' & Hst & _ & Hcase).
  cbn [traces]. rewrite Hst. cbn [mbind option_bind].
  set (w' := {| spans := spans w; traces := th |}).
  set (T' := Tracer.mk _ storage' _).
  destruct (exportTrace_cases w' T' tr stack heapUsed _ Hth)
    as (exported & Hexp & Hcases).
  rewrite Hexp. cbn [mbind option_bind].
  exists obj, storage', exported. split_and!; try done.
  - by eapply store_ok.
  - unfold TraceStorage.get. simpl Trace.traceId in Hcase. rewrite Hid in Hcase.
    destruct Hcase as [[_ ->] | [(Hnin & _ & ->) | (Hnin & _ & k0 & v0 & rest & E0 & ->)]].
    + apply get_set_eq.
    + rewrite <- (set_absent _ _ tr Hnin). apply get_set_eq.
    + unfold stored_keys in Hnin. rewrite E0 in Hnin.
      apply not_elem_of_cons in Hnin as [_ Hnin].
      rewrite <- (set_absent _ _ tr Hnin). apply get_set_eq.
Qed.

Lemma tracer_wf_finishTrace w T traceId error now stack heapUsed w' T' res :
  tracer_wf w T →
  Tracer.finishTrace w T traceId error now stack heapUsed = Some (w', T', res) →
  tracer_wf w' T'.
Proof.
  intros Hwf Hfin.
  pose proof (finishTrace_spec w T traceId error now stack heapUsed Hwf) as H.
  destruct (JSMap.get (Tracer.activeTraces T) traceId) as [tr|] eqn:Hget.
  - destruct H as (obj & storage' & exported & Hobj & Hid & _ & Hok & _ & _ & _ & E).
    rewrite E in Hfin. injection Hfin as <- <- _.
    destruct Hwf as [Ha Hk Hs]. split; simpl.
    + intros k tr' Hin%elem_of_delete.
      destruct (Ha k tr' Hin) as (obj' & Hobj' & Hid').
      destruct (decide (tr = tr')) as [<-|Hne].
      * eexists. split.
        -- apply list_lookup_insert_eq. by eapply lookup_lt_Some.
        -- simpl. congruence.
      * exists obj'. by rewrite list_lookup_insert_ne.
    + by apply delete_keys_NoDup.
    + done.
  - rewrite H in Hfin. by injection Hfin as <- <- <-.
Qed.

Lemma startSpan_traceId h obj name idNow rnd startNow h' obj' span :
  Trace.startSpan h obj name idNow rnd startNow = Some (h', obj', span) →
  Trace.traceId obj' = Trace.traceId obj.
Proof.
  unfold Trace.startSpan, Span.alloc.
  destruct (h !! Trace.currentSpan obj); simpl; [|done].
  destruct (Span.update _ _ _); simpl; [|done].
  by intros [= _ <- _].
Qed.

Lemma endSpan_traceId h obj error now h' obj' :
  Trace.endSpan h obj error now = Some (h', obj') →
  Trace.traceId obj' = Trace.traceId obj.
Proof.
  unfold Trace.endSpan.
  destruct (Span.update _ _ _) as [h1|]; simpl; [|done].
  destruct (h1 !! Trace.currentSpan obj) as [cur|]; simpl; [|done].
  destruct (truthy_string _); [|by intros [= _ <-]].
  destruct (_ ≫= _); by intros [= _ <-].
Qed.

(** Replacing a trace object by one with the same identifier. *)
Lemma tracer_wf_replace w T sh tr obj obj' :
  tracer_wf w T → traces w !! tr = Some obj →
  Trace.traceId obj' = Trace.traceId obj →
  tracer_wf {| spans := sh; traces := <[tr := obj']> (traces w) |} T.
Proof.
  intros [Ha Hk Hs] Hobj Hid. split; simpl; [|done..].
  intros k tr' Hin. destruct (Ha k tr' Hin) as (obj0 & Hobj0 & Hid0).
  destruct (decide (tr = tr')) as [<-|Hne].
  - exists obj'. split; [|congruence].
    apply list_lookup_insert_eq. by eapply lookup_lt_Some.
  - exists obj0. by rewrite list_lookup_insert_ne.
Qed.

Lemma tracer_wf_startSpan w T name traceId idNow rnd startNow w' res :
  tracer_wf w T →
  Tracer.startSpan w T name traceId idNow rnd startNow = Some (w', res) →
  tracer_wf w' T.
Proof.
  intros Hwf. unfold Tracer.startSpan.
  destruct (if truthy_string traceId then _ else _) as [tr|];
    [|by intros [= <- _]].
  destruct (traces w !! tr) as [obj|] eqn:Hobj; simpl; [|done].
  destruct (Trace.startSpan _ _ _ _ _ _) as [[[sh obj'] span]|] eqn:E;
    simpl; [|done].
  intros [= <- _]. eapply tracer_wf_replace; [done.. |].
  by eapply startSpan_traceId.
Qed.

Lemma tracer_wf_endSpan w T error now w' res :
  tracer_wf w T →
  Tracer.endSpan w T error now = Some (w', res) →
  tracer_wf w' T.
Proof.
  intros Hwf. unfold Tracer.endSpan.
  destruct (Tracer.first_active T) as [tr|]; [|by intros [= <- _]].
  destruct (traces w !! tr) as [obj|] eqn:Hobj; simpl; [|done].
  destruct (Trace.endSpan _ _ _ _) as [[sh obj']|] eqn:E; simpl; [|done].
  intros [= <- _]. eapply tracer_wf_replace; [done.. |].
  by eapply endSpan_traceId.
Qed.

(** ** C8: finishing a trace through the tracer *)

(** C8.  [finishTrace(traceId, error?)] throws the error with the message
    "Trace not found: <traceId>" exactly when [traceId] is not a key of the
    active traces, and then the heap and the tracer (active traces and
    store) are unchanged.  Otherwise the active trace is finished ([endTime]
    is the clock reading, [duration] is [endTime - startTime], [status]
    follows the error), is in the store under [traceId], and is no longer
    among the active traces; it is returned when [exportTrace], which runs
    last, returns, and the error of [exportTrace] is thrown on when it does
    not. *)
Theorem C8_finishTrace_found_or_thrown
    (w : Heap) (T : Tracer.t) (traceId : string) (error : option Error)
    (now : Z) (stack : nat) (heapUsed : Z) :
  tracer_wf w T →
  ∃ w' T' res,
    Tracer.finishTrace w T traceId error now stack heapUsed
    = Some (w', T', res)
    ∧ (res = Throw {| message := "Trace not found: " +:+ traceId |}
       ↔ traceId ∉ JSMap.keys (Tracer.activeTraces T))
    ∧ ((traceId ∉ JSMap.keys (Tracer.activeTraces T)) → w' = w ∧ T' = T)
    ∧ (traceId ∈ JSMap.keys (Tracer.activeTraces T) →
       ∃ tr obj obj',
         JSMap.get (Tracer.activeTraces T) traceId = Some tr
         ∧ traces w !! tr = Some obj
         ∧ traces w' !! tr = Some obj'
         ∧ Trace.endTime obj' = Some now
         ∧ Trace.duration obj' = Some (now - Trace.startTime obj)
         ∧ Trace.status obj'
           = match error with
             | Some _ => Trace.failed
             | None => Trace.completed
             end
         ∧ Tracer.getTrace T' traceId = Some tr
         ∧ JSMap.get (Tracer.activeTraces T') traceId = None
         ∧ (res = Normal tr
            ↔ Tracer.exportTrace w' T' tr stack heapUsed = Some (Normal ()))
         ∧ (∀ e, res = Throw e
                 ↔ Tracer.exportTrace w' T' tr stack heapUsed = Some (Throw e))
         ∧ (∀ tr', res = Normal tr' → tr' = tr)).
Proof.
  intros Hwf.
  pose proof (finishTrace_spec w T traceId error now stack heapUsed Hwf) as H.
  destruct (JSMap.get (Tracer.activeTraces T) traceId) as [tr|] eqn:Hget.
  - destruct H as (obj & storage' & exported & Hobj & Hid & _ & _ & Hstored
                   & Hexp & Hcases & E).
    assert (traceId ∈ JSMap.keys (Tracer.activeTraces T)) as Hin.
    { destruct (decide (traceId ∈ JSMap.keys (Tracer.activeTraces T)));
        [done|]. apply get_None in n. congruence. }
    pose proof (lookup_lt_Some _ _ _ Hobj) as Hlt.
    eexists _, _, _. split; [exact E|]. split_and!.
    + split; [|done]. intros Hres.
      destruct (not_found_is_no_export_error traceId) as [N1 N2].
      destruct Hcases as [-> | [[-> _] | [-> _]]]; congruence.
    + done.
    + intros _. exists tr, obj, (Trace.finish obj error now).
      split_and!; try done.
      * by apply list_lookup_insert_eq.
      * simpl. apply get_delete_eq. by destruct Hwf.
      * rewrite Hexp. destruct exported as [[]|e]; split; by intros [=].
      * intros e. rewrite Hexp.
        destruct exported as [[]|e']; split; intros [=]; by subst.
      * intros tr'. by destruct exported; intros [=].
  - apply get_None in Hget as Hnin.
    eexists _, _, _. split; [exact H|]. split_and!; done.
Qed.

(** A tracer with one active trace, for examples. *)
Definition demo_config : Tracer.TracerConfig :=
  {| Tracer.serviceName := "user-service";
     Tracer.exportTo := None;
     Tracer.jaegerEndpoint := None;
     Tracer.captureMetrics := Some (Some true);
     Tracer.sampleRate := None |}.

Definition demo_started : Heap * Tracer.t * ref :=
  Tracer.startTrace {| spans := []; traces := [] |} (Tracer.new demo_config)
                    "GET /users/123" 5 "0.5" 5 5 "0.25" 5.

Lemma demo_started_wf : tracer_wf demo_started.1.1 demo_started.1.2.
Proof. apply tracer_wf_startTrace, tracer_wf_new. Qed.

Lemma C8_witness :
  let w := demo_started.1.1 in
  let T := demo_started.1.2 in
  tracer_wf w T
  ∧ (∃ w' T', Tracer.finishTrace w T "trace-5-0.5" None 9 100 1048576
              = Some (w', T', Normal demo_started.2)
              ∧ Tracer.getTrace T' "trace-5-0.5" = Some demo_started.2
              ∧ Tracer.activeTraces T' = [])
  ∧ (∃ e, Tracer.finishTrace w T "trace-6-0.5" None 9 100 1048576
          = Some (w, T, Throw e)).
Proof.
  intros w T. pose proof demo_started_wf as Hwf. fold w T in Hwf.
  split; [exact Hwf|]. split.
  - destruct (C8_finishTrace_found_or_thrown w T "trace-5-0.5" None 9 100
                1048576 Hwf)
      as (w' & T' & res & E & _ & _ & Hfound).
    destruct Hfound as (tr & obj & obj' & Hget & _ & _ & _ & _ & _ & Hstored & _);
      [apply list_elem_of_here|].
    vm_compute in Hget. injection Hget as <-.
    exists w', T'. vm_compute in E. injection E as <- <- <-. by vm_compute.
  - eexists. by vm_compute.
Defined.

(** The root span is made its own child, with [rootSpan.addChild(rootSpan)],
    before the trace is finished: [visualize] does not return, and
    [finishTrace] throws although the identifier is known; the trace is
    finished, stored and no longer active all the same. *)
Example finishTrace_throws_after_storing :
  let w0 := demo_started.1.1 in
  let T := demo_started.1.2 in
  ∃ sh w' T' obj,
    Span.step (spans w0) (Span.AddChild 0 0) = Some sh
    ∧ Tracer.finishTrace {| spans := sh; traces := traces w0 |} T
        "trace-5-0.5" None 9 100 1048576
      = Some (w', T', Throw Tracer.stack_overflow)
    ∧ Tracer.getTrace T' "trace-5-0.5" = Some 0%nat
    ∧ Tracer.activeTraces T' = []
    ∧ traces w' !! 0%nat = Some obj
    ∧ Trace.status obj = Trace.completed.
Proof.
  intros w0 T. eexists _, _, _, _. split; [by vm_compute|].
  split; [by vm_compute|]. split_and!; by vm_compute.
Qed.

(** ** C2: finishing a trace with an error *)

(** C2, as stated, fails in its second half: [Trace.finish] keeps nothing
    of the error but the status.  Two different errors given to
    [finishTrace] give the same heap, the same tracer and the same
    completion, so nothing computed from the outcome gives the error back. *)
Lemma C2_counterexample :
  let w := demo_started.1.1 in
  let T := demo_started.1.2 in
  let finished e :=
    Tracer.finishTrace w T "trace-5-0.5" (Some e) 9 100 1048576 in
  {| message := "timeout" |} ≠ {| message := "refused" |}
  ∧ finished {| message := "timeout" |} = finished {| message := "refused" |}
  ∧ ¬ ∃ retrieve : option (Heap * Tracer.t * Completion ref) → option Error,
        ∀ e, retrieve (finished e) = Some e.
Proof.
  intros w T finished.
  assert (finished {| message := "timeout" |}
          = finished {| message := "refused" |}) as Heq by (by vm_compute).
  split; [done|]. split; [done|].
  intros [retrieve Hr].
  pose proof (Hr {| message := "timeout" |}) as H1.
  pose proof (Hr {| message := "refused" |}) as H2.
  rewrite Heq, H2 in H1. done.
Qed.

(** C2, amended.  When [finishTrace] is called with an error value on the
    identifier of an active trace, that trace is then in the store with
    status [failed] (not [completed]); it is returned, unless [exportTrace]
    throws.  The error value itself is not recorded: the outcome is the
    same for every error value. *)
Theorem C2_finish_with_error_fails_trace
    (w : Heap) (T : Tracer.t) (traceId : string) (e : Error) (now : Z)
    (stack : nat) (heapUsed : Z) :
  tracer_wf w T →
  traceId ∈ JSMap.keys (Tracer.activeTraces T) →
  ∃ w' T' res tr obj',
    Tracer.finishTrace w T traceId (Some e) now stack heapUsed
    = Some (w', T', res)
    ∧ (res = Normal tr
       ∨ ∃ e', res = Throw e'
               ∧ Tracer.exportTrace w' T' tr stack heapUsed = Some (Throw e'))
    ∧ Tracer.getTrace T' traceId = Some tr
    ∧ traces w' !! tr = Some obj'
    ∧ Trace.status obj' = Trace.failed
    ∧ Trace.status obj' ≠ Trace.completed
    ∧ ∀ e', Tracer.finishTrace w T traceId (Some e') now stack heapUsed
            = Tracer.finishTrace w T traceId (Some e) now stack heapUsed.
Proof.
  intros Hwf Hin.
  pose proof (finishTrace_spec w T traceId (Some e) now stack heapUsed Hwf) as H.
  destruct (JSMap.get (Tracer.activeTraces T) traceId) as [tr|] eqn:Hget;
    [|by apply get_None in Hget].
  destruct H as (obj & storage' & exported & Hobj & Hid & _ & _ & Hstored
                 & Hexp & _ & E).
  eexists _, _, _, tr, (Trace.finish obj (Some e) now).
  split; [exact E|]. split_and!; try done.
  - destruct exported as [[]|e']; [by left|]. right. by exists e'.
  - simpl. apply list_lookup_insert_eq. by eapply lookup_lt_Some.
Qed.

Lemma C2_witness :
  let w := demo_started.1.1 in
  let T := demo_started.1.2 in
  tracer_wf w T
  ∧ "trace-5-0.5"%string ∈ JSMap.keys (Tracer.activeTraces T)
  ∧ ∃ w' T' tr obj',
      Tracer.finishTrace w T "trace-5-0.5" (Some {| message := "timeout" |})
                         9 100 1048576
      = Some (w', T', Normal tr)
      ∧ Tracer.getTrace T' "trace-5-0.5" = Some tr
      ∧ traces w' !! tr = Some obj'
      ∧ Trace.status obj' = Trace.failed.
Proof.
  intros w T. pose proof demo_started_wf as Hwf. fold w T in Hwf.
  assert ("trace-5-0.5"%string ∈ JSMap.keys (Tracer.activeTraces T)) as Hin
    by apply list_elem_of_here.
  split; [exact Hwf|]. split; [exact Hin|].
  destruct (C2_finish_with_error_fails_trace w T "trace-5-0.5"
              {| message := "timeout" |} 9 100 1048576 Hwf Hin)
    as (w' & T' & res & tr & obj' & E & Hres & Hs & Ho & Hf & _).
  exists w', T', tr, obj'. split_and!; [|done..].
  destruct Hres as [-> | (e' & -> & Hexp)]; [done|].
  vm_compute in E. discriminate E.
Defined.

(** ** C10: what finishing a trace leaves alone *)

(** C10.  [Trace.finish] changes [endTime], [duration] and [status] of the
    trace and nothing else; [finishTrace] changes that one trace object
    and no span, whether [exportTrace] then returns or throws.  So a root
    span that is still [started] and without a duration when the trace is
    finished is so afterwards, in the trace that is then in the store. *)
Theorem C10_finish_ends_no_span
    (w : Heap) (T : Tracer.t) (traceId : string) (error : option Error)
    (now : Z) (stack : nat) (heapUsed : Z) (tr : ref) (obj : Trace.t) :
  tracer_wf w T →
  JSMap.get (Tracer.activeTraces T) traceId = Some tr →
  traces w !! tr = Some obj →
  ∃ w' T' res obj',
    Tracer.finishTrace w T traceId error now stack heapUsed
    = Some (w', T', res)
    ∧ (res = Normal tr
       ∨ ∃ e, res = Throw e
              ∧ Tracer.exportTrace w' T' tr stack heapUsed = Some (Throw e))
    ∧ Tracer.getTrace T' traceId = Some tr
    ∧ spans w' = spans w
    ∧ traces w' = <[tr := obj']> (traces w)
    ∧ traces w' !! tr = Some obj'
    ∧ obj' = Trace.finish obj error now
    ∧ Trace.endTime obj' = Some now
    ∧ Trace.duration obj' = Some (now - Trace.startTime obj)
    ∧ Trace.status obj'
      = match error with Some _ => Trace.failed | None => Trace.completed end
    ∧ Trace.traceId obj' = Trace.traceId obj
    ∧ Trace.startTime obj' = Trace.startTime obj
    ∧ Trace.rootSpan obj' = Trace.rootSpan obj
    ∧ Trace.allSpans obj' = Trace.allSpans obj
    ∧ Trace.currentSpan obj' = Trace.currentSpan obj
    ∧ ∀ root, spans w !! Trace.rootSpan obj = Some root →
        Span.status root = Span.started → Span.duration root = None →
        ∃ root', spans w' !! Trace.rootSpan obj' = Some root'
                 ∧ root' = root
                 ∧ Span.status root' = Span.started
                 ∧ Span.duration root' = None.
Proof.
  intros Hwf Hget Hobj.
  pose proof (finishTrace_spec w T traceId error now stack heapUsed Hwf) as H.
  rewrite Hget in H.
  destruct H as (obj0 & storage' & exported & Hobj0 & Hid & _ & _ & Hstored
                 & Hexp & _ & E).
  assert (obj0 = obj) as -> by congruence.
  eexists _, _, _, (Trace.finish obj error now).
  split; [exact E|]. cbn [spans traces]. split_and!; try done.
  - destruct exported as [[]|e]; [by left|]. right. by exists e.
  - apply list_lookup_insert_eq. by eapply lookup_lt_Some.
  - intros root Hroot Hst Hdur. by exists root.
Qed.

(** A trace with one child span, started and ended, is finished: its root
    span has never been ended and is still [started]. *)
Lemma C10_witness :
  let w0 := demo_started.1.1 in
  let T := demo_started.1.2 in
  ∃ w1 w2 w' T' obj obj' root,
    Tracer.startSpan w0 T "database_query" (Some "trace-5-0.5"%string) 6 "0.75" 6
    = Some (w1, Normal 1%nat)
    ∧ Tracer.endSpan w1 T None 8 = Some (w2, Normal ())
    ∧ tracer_wf w2 T
    ∧ JSMap.get (Tracer.activeTraces T) "trace-5-0.5" = Some 0%nat
    ∧ traces w2 !! 0%nat = Some obj
    ∧ Tracer.finishTrace w2 T "trace-5-0.5" None 9 100 1048576
      = Some (w', T', Normal 0%nat)
    ∧ Tracer.getTrace T' "trace-5-0.5" = Some 0%nat
    ∧ traces w' !! 0%nat = Some obj'
    ∧ Trace.status obj' = Trace.completed
    ∧ spans w' !! Trace.rootSpan obj' = Some root
    ∧ Span.status root = Span.started
    ∧ Span.duration root = None.
Proof.
  intros w0 T. pose proof demo_started_wf as Hwf0. fold w0 T in Hwf0.
  destruct (Tracer.startSpan w0 T "database_query" (Some "trace-5-0.5"%string)
              6 "0.75" 6) as [[w1 r1]|] eqn:E1; [|by vm_compute in E1].
  pose proof (tracer_wf_startSpan _ _ _ _ _ _ _ _ _ Hwf0 E1) as Hwf1.
  destruct (Tracer.endSpan w1 T None 8) as [[w2 r2]|] eqn:E2;
    [|vm_compute in E1; injection E1 as <- <-; by vm_compute in E2].
  pose proof (tracer_wf_endSpan _ _ _ _ _ _ Hwf1 E2) as Hwf2.
  assert (r1 = Normal 1%nat) as ->
    by (vm_compute in E1; by injection E1 as _ <-).
  assert (r2 = Normal ()) as ->.
  { vm_compute in E1. injection E1 as <-. vm_compute in E2.
    by injection E2 as _ <-. }
  assert (JSMap.get (Tracer.activeTraces T) "trace-5-0.5" = Some 0%nat)
    as Hget by done.
  destruct (traces w2 !! 0%nat) as [obj|] eqn:Hobj.
  2: { vm_compute in E1. injection E1 as <-. vm_compute in E2.
       injection E2 as <-. by vm_compute in Hobj. }
  destruct (C10_finish_ends_no_span w2 T "trace-5-0.5" None 9 100 1048576
              0%nat obj Hwf2 Hget Hobj)
    as (w' & T' & res & obj' & E & Hres & Hs & Hsp & _ & Ho & Hfin
        & _ & _ & Hstat & _ & _ & _ & _ & _ & Hroot).
  destruct (spans w2 !! Trace.rootSpan obj) as [root|] eqn:Hr.
  2: { vm_compute in E1. injection E1 as <-. vm_compute in E2.
       injection E2 as <-. vm_compute in Hobj. injection Hobj as <-.
       by vm_compute in Hr. }
  assert (Span.status root = Span.started ∧ Span.duration root = None)
    as [Hst Hd].
  { vm_compute in E1. injection E1 as <-. vm_compute in E2.
    injection E2 as <-. vm_compute in Hobj. injection Hobj as <-.
    vm_compute in Hr. by injection Hr as <-. }
  destruct (Hroot root eq_refl Hst Hd) as (root' & Hr' & -> & _ & _).
  assert (res = Normal 0%nat) as ->.
  { destruct Hres as [-> | (e & -> & Hexp)]; [done|].
    vm_compute in E1. injection E1 as <-. vm_compute in E2.
    injection E2 as <-. vm_compute in E. discriminate E. }
  exists w1, w2, w', T', obj, obj', root. split_and!; try done.
Defined.

(** ** Worked examples *)

(** A checkout: "validate" takes 50 ms, "charge" takes 200 ms and contains
    "gateway-call" of 150 ms.  The root has two children, "charge" has one,
    the slow operations over 100 ms are "charge" and "gateway-call", and the
    slowest operation is "charge". *)
Example checkout_scenario :
  let st0 := Trace.new [] "trace-0-0.5" "checkout" 0 0 "0.1" 0 in
  let ops := [Trace.StartSpan "validate" 0 "0.2" 0; Trace.EndSpan None 50;
              Trace.StartSpan "charge" 50 "0.3" 50;
              Trace.StartSpan "gateway-call" 60 "0.4" 60;
              Trace.EndSpan None 210; Trace.EndSpan None 250] in
  ∃ h t m,
    Trace.run st0 ops = Some (h, t)
    ∧ Trace.currentSpan t = Trace.rootSpan t
    ∧ (Span.children <$> h !! 0%nat) = Some [1; 2]%nat
    ∧ (Span.children <$> h !! 2%nat) = Some [3%nat]
    ∧ (Span.name <$> h !! 2%nat) = Some "charge"%string
    ∧ (Span.name <$> h !! 3%nat) = Some "gateway-call"%string
    ∧ Trace.getSlowOperations h t (Some 100) = [2; 3]%nat
    ∧ MetricsCollector.analyzeTrace h (Trace.finish t None 260) 0 = Some m
    ∧ MetricsCollector.slowestOperation m
      = {| MetricsCollector.name := "charge"; MetricsCollector.duration := 200 |}.
Proof.
  intros st0 ops. eexists _, _, _. split; [by vm_compute|].
  split_and!; by vm_compute.
Qed.

(** * Further properties of the code *)

(** ** The heap after [startSpan] and [endSpan] *)

Definition children_of (h : Span.heap) (r : ref) : option (list ref) :=
  Span.children <$> h !! r.

Definition traceId_of (h : Span.heap) (r : ref) : option string :=
  Span.traceId <$> h !! r.

Lemma startSpan_heap h t name idNow rnd startNow cur :
  h !! Trace.currentSpan t = Some cur →
  Trace.startSpan h t name idNow rnd startNow
  = Some (<[Trace.currentSpan t := Span.addChild cur (length h)]>
            (h ++ [Span.new (Trace.traceId t) name (Some (Span.id cur))
                            idNow rnd startNow]),
          Trace.with_cursor t (Trace.allSpans t ++ [length h]) (length h),
          length h).
Proof.
  intros Hc. unfold Trace.startSpan, Span.alloc, Span.update.
  rewrite Hc. simpl. by rewrite (lookup_app_l_Some _ _ _ _ Hc).
Qed.

Lemma started_lookup (h : Span.heap) c cur new r :
  h !! c = Some cur →
  (<[c := Span.addChild cur (length h)]> (h ++ [new])) !! r
  = if decide (r = c) then Some (Span.addChild cur (length h))
    else if decide (r = length h) then Some new else h !! r.
Proof.
  intros Hc. pose proof (lookup_lt_Some _ _ _ Hc) as Hlt.
  destruct (decide (r = c)) as [->|Hne].
  - apply list_lookup_insert_eq. rewrite length_app. simpl. lia.
  - rewrite list_lookup_insert_ne by done.
    destruct (decide (r = length h)) as [->|Hne'].
    + by rewrite lookup_app_r, Nat.sub_diag.
    + destruct (decide (r < length h)%nat).
      * by rewrite lookup_app_l.
      * rewrite !lookup_ge_None_2; [done | lia |].
        rewrite length_app. simpl. lia.
Qed.

Lemma endSpan_trace_fields h t error now h' t' :
  Trace.endSpan h t error now = Some (h', t') →
  Trace.traceId t' = Trace.traceId t
  ∧ Trace.startTime t' = Trace.startTime t
  ∧ Trace.endTime t' = Trace.endTime t
  ∧ Trace.duration t' = Trace.duration t
  ∧ Trace.status t' = Trace.status t.
Proof.
  unfold Trace.endSpan.
  destruct (Span.update _ _ _) as [h1|]; simpl; [|done].
  destruct (h1 !! Trace.currentSpan t) as [cur|]; simpl; [|done].
  destruct (truthy_string _); [|by intros [= _ <-]].
  destruct (_ ≫= _); by intros [= _ <-].
Qed.

Lemma endSpan_heap h t error now :
  wf h t →
  ∃ cur t',
    h !! Trace.currentSpan t = Some cur
    ∧ Trace.endSpan h t error now
      = Some (<[Trace.currentSpan t := Span.end_ cur error now]> h, t')
    ∧ wf (<[Trace.currentSpan t := Span.end_ cur error now]> h) t'
    ∧ Trace.rootSpan t' = Trace.rootSpan t
    ∧ Trace.allSpans t' = Trace.allSpans t
    ∧ Trace.currentSpan t' = next_cursor h t
    ∧ Trace.traceId t' = Trace.traceId t
    ∧ Trace.startTime t' = Trace.startTime t
    ∧ Trace.endTime t' = Trace.endTime t
    ∧ Trace.duration t' = Trace.duration t
    ∧ Trace.status t' = Trace.status t.
Proof.
  intros Hwf.
  destruct (endSpan_spec h t error now Hwf)
    as (h' & t' & He & Hup & Hwf' & Hroot & Hall & Hcur & _).
  apply update_inv in Hup as (cur & Hc & ->).
  destruct (endSpan_trace_fields _ _ _ _ _ _ He) as (? & ? & ? & ? & ?).
  exists cur, t'. split_and!; done.
Qed.

(** ** Spans of a trace: count, identity, linkage *)

(** What [startSpan] and [endSpan] keep about the span tree, beside [wf]. *)
Record linked (h : Span.heap) (t : Trace.t) : Prop := {
  lk_nodup : NoDup (Trace.allSpans t);
  lk_root_min : ∀ r, r ∈ Trace.allSpans t → (Trace.rootSpan t ≤ r)%nat;
  lk_trace : ∀ r, r ∈ Trace.allSpans t →
      traceId_of h r = Some (Trace.traceId t);
  lk_children : ∀ p kids c,
      p ∈ Trace.allSpans t → children_of h p = Some kids → c ∈ kids →
      c ∈ Trace.allSpans t ∧ (p < c)%nat
      ∧ parentId_of h c = Some (id_of h p);
  lk_kids_nodup : ∀ p kids,
      p ∈ Trace.allSpans t → children_of h p = Some kids → NoDup kids;
  lk_one_parent : ∀ p1 p2 kids1 kids2 c,
      p1 ∈ Trace.allSpans t → p2 ∈ Trace.allSpans t →
      children_of h p1 = Some kids1 → children_of h p2 = Some kids2 →
      c ∈ kids1 → c ∈ kids2 → p1 = p2;
  lk_child_of : ∀ c, c ∈ Trace.allSpans t → c ≠ Trace.rootSpan t →
      ∃ p kids, p ∈ Trace.allSpans t ∧ children_of h p = Some kids ∧ c ∈ kids;
  lk_running :
      Trace.status t = Trace.running ∧ Trace.endTime t = None
      ∧ Trace.duration t = None;
}.

Lemma linked_new h0 traceId rootSpanName now idNow rnd startNow :
  linked (Trace.new h0 traceId rootSpanName now idNow rnd startNow).1
         (Trace.new h0 traceId rootSpanName now idNow rnd startNow).2.
Proof.
  unfold Trace.new, Span.alloc. simpl.
  assert (Hk : ∀ p kids, p ∈ [length h0] →
            children_of (h0 ++ [Span.new traceId rootSpanName None idNow rnd startNow]) p
            = Some kids → kids = []).
  { intros p kids ->%list_elem_of_singleton. unfold children_of.
    rewrite lookup_app_r, Nat.sub_diag by done. simpl. congruence. }
  split; simpl.
  - apply NoDup_singleton.
  - by intros r ->%list_elem_of_singleton.
  - intros r ->%list_elem_of_singleton. unfold traceId_of.
    by rewrite lookup_app_r, Nat.sub_diag.
  - intros p kids c Hp Hkids Hc. rewrite (Hk p kids Hp Hkids) in Hc.
    by apply elem_of_nil in Hc.
  - intros p kids Hp Hkids. rewrite (Hk p kids Hp Hkids). constructor.
  - intros p1 p2 kids1 kids2 c Hp1 _ Hk1 _ Hc. rewrite (Hk p1 kids1 Hp1 Hk1) in Hc.
    by apply elem_of_nil in Hc.
  - by intros c ->%list_elem_of_singleton.
  - done.
Qed.

Lemma ended_fields (h : Span.heap) c cur error now r :
  h !! c = Some cur →
  children_of (<[c := Span.end_ cur error now]> h) r = children_of h r
  ∧ traceId_of (<[c := Span.end_ cur error now]> h) r = traceId_of h r
  ∧ id_of (<[c := Span.end_ cur error now]> h) r = id_of h r
  ∧ parentId_of (<[c := Span.end_ cur error now]> h) r = parentId_of h r.
Proof.
  intros Hc. unfold children_of, traceId_of, id_of, parentId_of.
  destruct (decide (r = c)) as [->|Hne].
  - rewrite list_lookup_insert_eq by (by eapply lookup_lt_Some).
    by rewrite Hc.
  - by rewrite list_lookup_insert_ne.
Qed.

Lemma started_fields (h : Span.heap) c cur new :
  h !! c = Some cur →
  let h' := <[c := Span.addChild cur (length h)]> (h ++ [new]) in
  (∀ r, children_of h' r
        = if decide (r = c) then Some (Span.children cur ++ [length h])
          else if decide (r = length h) then Some (Span.children new)
          else children_of h r)
  ∧ (∀ r, traceId_of h' r
          = if decide (r = length h) then Some (Span.traceId new)
            else traceId_of h r)
  ∧ (∀ r, id_of h' r
          = if decide (r = length h) then Some (Span.id new) else id_of h r)
  ∧ (∀ r, parentId_of h' r
          = if decide (r = length h) then Some (Span.parentId new)
            else parentId_of h r).
Proof.
  intros Hc h'. pose proof (lookup_lt_Some _ _ _ Hc) as Hlt.
  unfold children_of, traceId_of, id_of, parentId_of, h'.
  split_and!; intros r; rewrite (started_lookup h c cur new r Hc);
    (destruct (decide (r = c)) as [->|Hne];
     [rewrite ?(decide_False (P := c = length h)) by lia; by rewrite ?Hc
     |by destruct (decide (r = length h))]).
Qed.

Lemma linked_static h h' t t' :
  (∀ r, children_of h' r = children_of h r ∧ traceId_of h' r = traceId_of h r
        ∧ id_of h' r = id_of h r ∧ parentId_of h' r = parentId_of h r) →
  Trace.allSpans t' = Trace.allSpans t →
  Trace.rootSpan t' = Trace.rootSpan t →
  Trace.traceId t' = Trace.traceId t →
  Trace.status t' = Trace.status t →
  Trace.endTime t' = Trace.endTime t →
  Trace.duration t' = Trace.duration t →
  linked h t → linked h' t'.
Proof.
  intros Hst Hall Hroot Hid Hs He Hd [L1 L2 L3 L4 L5 L6 L7 L8].
  assert (Hc : ∀ r, children_of h' r = children_of h r) by (intros; apply Hst).
  assert (Ht : ∀ r, traceId_of h' r = traceId_of h r) by (intros; apply Hst).
  assert (Hi : ∀ r, id_of h' r = id_of h r) by (intros; apply Hst).
  assert (Hp : ∀ r, parentId_of h' r = parentId_of h r) by (intros; apply Hst).
  split; rewrite ?Hall, ?Hroot, ?Hid, ?Hs, ?He, ?Hd; try done.
  - intros r Hr. rewrite Ht. by apply L3.
  - intros p kids c Hin. rewrite Hc, Hp, Hi. by apply L4.
  - intros p kids Hin. rewrite Hc. by apply L5.
  - intros p1 p2 kids1 kids2 c Hp1 Hp2. rewrite !Hc. by apply L6.
  - intros c Hin Hne. destruct (L7 c Hin Hne) as (p & kids & ? & ? & ?).
    exists p, kids. by rewrite Hc.
Qed.

Lemma linked_endSpan h t error now h' t' :
  wf h t → linked h t →
  Trace.endSpan h t error now = Some (h', t') → linked h' t'.
Proof.
  intros Hwf Hl He.
  destruct (endSpan_heap h t error now Hwf)
    as (cur & t0 & Hc & E & _ & Hroot & Hall & _ & Hid & _ & Het & Hd & Hs).
  rewrite E in He. injection He as <- <-.
  eapply linked_static; [|done..]. intros r. by apply ended_fields.
Qed.

Lemma linked_startSpan h t name idNow rnd startNow h' t' span :
  wf h t → linked h t →
  Trace.startSpan h t name idNow rnd startNow = Some (h', t', span) →
  linked h' t'.
Proof.
  intros Hwf [L1 L2 L3 L4 L5 L6 L7 L8] Hs.
  pose proof (wf_alloc _ _ Hwf) as Halloc.
  pose proof (wf_cursor _ _ Hwf) as Hcin.
  destruct (lookup_lt_is_Some_2 h _ (Halloc _ Hcin)) as [cur Hc].
  rewrite (startSpan_heap h t name idNow rnd startNow cur Hc) in Hs.
  injection Hs as <- <- <-.
  set (c := Trace.currentSpan t) in *. set (n := length h) in *.
  set (new := Span.new _ _ _ _ _ _).
  destruct (started_fields h c cur new Hc) as (Hk & Ht & Hi & Hp).
  fold n in Hk, Ht, Hi, Hp.
  assert (Hcn : c ≠ n) by (specialize (Halloc c Hcin); lia).
  assert (Hold : ∀ r, r ∈ Trace.allSpans t → r ≠ n)
    by (intros r Hr; specialize (Halloc r Hr); lia).
  assert (Hkc : children_of h c = Some (Span.children cur))
    by (unfold children_of; by rewrite Hc).
  (* the children of an old span, before the call *)
  assert (Hkids_old : ∀ p kids, p ∈ Trace.allSpans t ++ [n] →
            children_of (<[c:=Span.addChild cur n]> (h ++ [new])) p = Some kids →
            (p = c ∧ kids = Span.children cur ++ [n])
            ∨ (p = n ∧ kids = [])
            ∨ (p ∈ Trace.allSpans t ∧ p ≠ c ∧ children_of h p = Some kids)).
  { intros p kids Hpin. rewrite Hk.
    destruct (decide (p = c)) as [->|Hpc]; [intros [= <-]; by left|].
    destruct (decide (p = n)) as [->|Hpn]; [intros [= <-]; right; by left|].
    intros Hkids. right. right.
    apply elem_of_app in Hpin as [?|?%list_elem_of_singleton]; done. }
  assert (Hkid_lt : ∀ p kids k, p ∈ Trace.allSpans t →
            children_of h p = Some kids → k ∈ kids → k ≠ n).
  { intros p kids k Hpin Hkids Hkin.
    destruct (L4 p kids k Hpin Hkids Hkin) as (Hkall & _). by apply Hold. }
  split; simpl.
  - apply NoDup_app. split_and!; [done | | apply NoDup_singleton].
    intros r Hr ->%list_elem_of_singleton. by apply (Hold n).
  - intros r [Hr| ->%list_elem_of_singleton]%elem_of_app; [by apply L2|].
    pose proof (Halloc _ (list_elem_of_lookup_2 _ _ _ (wf_root _ _ Hwf))). lia.
  - intros r Hr. rewrite Ht.
    destruct (decide (r = n)) as [->|Hne]; [done|]. apply L3.
    by apply elem_of_app in Hr as [?|?%list_elem_of_singleton].
  - intros p kids k Hpin Hkids Hkin.
    destruct (Hkids_old p kids Hpin Hkids)
      as [[-> ->] | [[-> ->] | (Hp' & Hpc & Hkids')]].
    + apply elem_of_app in Hkin as [Hkin | ->%list_elem_of_singleton].
      * destruct (L4 c _ k Hcin Hkc Hkin) as (Hkall & Hlt & Hpar).
        split_and!; [apply elem_of_app; by left | done |].
        rewrite Hp, Hi, !decide_False by (try done; by apply Hold). done.
      * split_and!; [apply elem_of_app; right; by apply list_elem_of_singleton
                    | specialize (Halloc c Hcin); lia |].
        rewrite Hp, Hi, decide_True, decide_False by done.
        simpl. unfold id_of. by rewrite Hc.
    + by apply elem_of_nil in Hkin.
    + destruct (L4 p kids k Hp' Hkids' Hkin) as (Hkall & Hlt & Hpar).
      split_and!; [apply elem_of_app; by left | done |].
      rewrite Hp, Hi, !decide_False by (try done; by apply Hold). done.
  - intros p kids Hpin Hkids.
    destruct (Hkids_old p kids Hpin Hkids)
      as [[-> ->] | [[-> ->] | (Hp' & Hpc & Hkids')]].
    + apply NoDup_app. split_and!; [by eapply L5 | | apply NoDup_singleton].
      intros k Hkin ->%list_elem_of_singleton. by eapply (Hkid_lt c).
    + constructor.
    + by eapply L5.
  - intros p1 p2 kids1 kids2 k Hp1 Hp2 Hk1 Hk2 Hin1 Hin2.
    destruct (Hkids_old p1 kids1 Hp1 Hk1)
      as [[-> ->] | [[-> ->] | (Hp1' & Hp1c & Hk1')]];
    destruct (Hkids_old p2 kids2 Hp2 Hk2)
      as [[-> ->] | [[-> ->] | (Hp2' & Hp2c & Hk2')]];
      try done; try (by apply elem_of_nil in Hin1);
      try (by apply elem_of_nil in Hin2).
    + apply elem_of_app in Hin1 as [Hin1 | ->%list_elem_of_singleton].
      * by eapply (L6 c p2).
      * by destruct (Hkid_lt p2 kids2 n Hp2' Hk2' Hin2).
    + apply elem_of_app in Hin2 as [Hin2 | ->%list_elem_of_singleton].
      * by eapply (L6 p1 c).
      * by destruct (Hkid_lt p1 kids1 n Hp1' Hk1' Hin1).
    + by eapply (L6 p1 p2).
  - intros k [Hkin| ->%list_elem_of_singleton]%elem_of_app Hne.
    + destruct (L7 k Hkin Hne) as (p & kids & Hpin & Hkids & Hin).
      destruct (decide (p = c)) as [->|Hpc].
      * exists c, (Span.children cur ++ [n]).
        split_and!; [apply elem_of_app; by left | by rewrite Hk, decide_True |].
        apply elem_of_app. left. congruence.
      * exists p, kids. split_and!; [apply elem_of_app; by left | | done].
        rewrite Hk, !decide_False by (try done; by apply Hold). done.
    + exists c, (Span.children cur ++ [n]).
      split_and!; [apply elem_of_app; by left | by rewrite Hk, decide_True |].
      apply elem_of_app. right. by apply list_elem_of_singleton.
  - done.
Qed.

Definition is_start (o : Trace.op) : bool :=
  match o with
  | Trace.StartSpan _ _ _ _ => true
  | Trace.EndSpan _ _ => false
  end.

(** The number of [startSpan] calls among [ops]. *)
Definition started_count (ops : list Trace.op) : nat :=
  length (filter (λ o, is_start o) ops).

Lemma step_linked h t o :
  wf h t → linked h t →
  ∃ h' t',
    Trace.step (h, t) o = Some (h', t') ∧ wf h' t' ∧ linked h' t'
    ∧ Trace.rootSpan t' = Trace.rootSpan t
    ∧ Trace.traceId t' = Trace.traceId t
    ∧ Trace.startTime t' = Trace.startTime t
    ∧ length (Trace.allSpans t')
      = (length (Trace.allSpans t) + (if is_start o then 1 else 0))%nat.
Proof.
  intros Hwf Hl. destruct o as [name idNow rnd startNow | error now]; simpl.
  - destruct (startSpan_spec h t name idNow rnd startNow Hwf)
      as (h' & t' & Hs & Hwf' & _ & Hroot & Hall & _).
    pose proof (linked_startSpan _ _ _ _ _ _ _ _ _ Hwf Hl Hs) as Hl'.
    exists h', t'. rewrite Hs. simpl. split_and!; try done.
    + destruct (lookup_lt_is_Some_2 h _ (wf_alloc _ _ Hwf _ (wf_cursor _ _ Hwf)))
        as [cur Hc].
      rewrite (startSpan_heap _ _ _ _ _ _ cur Hc) in Hs. by injection Hs as _ <-.
    + destruct (lookup_lt_is_Some_2 h _ (wf_alloc _ _ Hwf _ (wf_cursor _ _ Hwf)))
        as [cur Hc].
      rewrite (startSpan_heap _ _ _ _ _ _ cur Hc) in Hs. by injection Hs as _ <-.
    + rewrite Hall, length_app. done.
  - destruct (endSpan_heap h t error now Hwf)
      as (cur & t' & Hc & He & Hwf' & Hroot & Hall & _ & Hid & Hst & _).
    eexists _, t'. split_and!; try done.
    + exact (linked_endSpan _ _ _ _ _ _ Hwf Hl He).
    + rewrite Hall. lia.
Qed.

Lemma run_linked ops : ∀ h t,
  wf h t → linked h t →
  ∃ h' t',
    Trace.run (h, t) ops = Some (h', t') ∧ wf h' t' ∧ linked h' t'
    ∧ Trace.rootSpan t' = Trace.rootSpan t
    ∧ Trace.traceId t' = Trace.traceId t
    ∧ Trace.startTime t' = Trace.startTime t
    ∧ length (Trace.allSpans t')
      = (length (Trace.allSpans t) + started_count ops)%nat.
Proof.
  induction ops as [|o ops IH]; intros h t Hwf Hl.
  - exists h, t. unfold started_count. simpl. split_and!; try done.
  - destruct (step_linked h t o Hwf Hl)
      as (h1 & t1 & Hs & Hwf1 & Hl1 & Hr1 & Hi1 & Ht1 & Hn1).
    destruct (IH h1 t1 Hwf1 Hl1)
      as (h2 & t2 & Hrun & Hwf2 & Hl2 & Hr2 & Hi2 & Ht2 & Hn2).
    exists h2, t2. simpl. rewrite Hs. simpl.
    split_and!; try done; try congruence.
    rewrite Hn2, Hn1. unfold started_count. rewrite filter_cons.
    destruct (is_start o); simpl; lia.
Qed.

Lemma reachable_linked h t : reachable h t → linked h t.
Proof.
  induction 1 as [|h t o h' t' Hr IH Hstep]; [apply linked_new|].
  destruct (step_linked h t o (reachable_wf _ _ Hr) IH)
    as (h1 & t1 & E & _ & ? & _). congruence.
Qed.

(** X1.  A trace holds one span per [startSpan] call, plus the root:
    after the constructor and any calls, [allSpans] has as many entries as
    there were [startSpan] calls plus one, they are pairwise different
    objects, and each carries the [traceId] of the trace.  [endSpan] adds
    and removes none. *)
Theorem trace_span_count
    (h0 : Span.heap) (traceId rootSpanName : string) (now idNow : Z)
    (rnd : string) (startNow : Z) (ops : list Trace.op) :
  let st0 := Trace.new h0 traceId rootSpanName now idNow rnd startNow in
  ∃ h t,
    Trace.run st0 ops = Some (h, t)
    ∧ length (Trace.allSpans t) = S (started_count ops)
    ∧ NoDup (Trace.allSpans t)
    ∧ ∀ r, r ∈ Trace.allSpans t →
        ∃ s, h !! r = Some s ∧ Span.traceId s = traceId.
Proof.
  intros st0.
  destruct (run_linked ops st0.1 st0.2 (wf_new _ _ _ _ _ _ _)
              (linked_new _ _ _ _ _ _ _))
    as (h & t & Hrun & Hwf & Hl & _ & Hid & _ & Hn).
  exists h, t. split; [by destruct st0|]. split; [by rewrite Hn|].
  split; [apply Hl|]. intros r Hr.
  pose proof (lk_trace _ _ Hl r Hr) as Ht. unfold traceId_of in Ht.
  destruct (h !! r) as [s|]; [|done]. exists s. split; [done|].
  injection Ht as ->. done.
Qed.

(** X2.  [startSpan] and [endSpan] never finish the trace: after the
    constructor and any calls, also more [endSpan] than [startSpan] calls,
    the trace is [running], has no [endTime] and no [duration], and keeps
    its [traceId] and its [startTime]. *)
Theorem trace_stays_running
    (h0 : Span.heap) (traceId rootSpanName : string) (now idNow : Z)
    (rnd : string) (startNow : Z) (ops : list Trace.op) :
  let st0 := Trace.new h0 traceId rootSpanName now idNow rnd startNow in
  ∃ h t,
    Trace.run st0 ops = Some (h, t)
    ∧ Trace.status t = Trace.running
    ∧ Trace.endTime t = None
    ∧ Trace.duration t = None
    ∧ Trace.traceId t = traceId
    ∧ Trace.startTime t = now.
Proof.
  intros st0.
  destruct (run_linked ops st0.1 st0.2 (wf_new _ _ _ _ _ _ _)
              (linked_new _ _ _ _ _ _ _))
    as (h & t & Hrun & _ & Hl & _ & Hid & Hst & _).
  exists h, t. split; [by destruct st0|].
  destruct (lk_running _ _ Hl) as (? & ? & ?). split_and!; done.
Qed.

(** X3.  The [children] lists and the [parentId] fields agree.  In a
    trace built by the constructor and any calls: a child of a span of the
    trace is a span of the trace, was created after it, and has its [id]
    as [parentId]; no span is listed twice, nor under two parents; every
    span but the root is the child of a span of the trace, and the root is
    nobody's child. *)
Theorem children_linkage
    (h0 : Span.heap) (traceId rootSpanName : string) (now idNow : Z)
    (rnd : string) (startNow : Z) (ops : list Trace.op) :
  let st0 := Trace.new h0 traceId rootSpanName now idNow rnd startNow in
  ∃ h t,
    Trace.run st0 ops = Some (h, t)
    ∧ (∀ p sp c, p ∈ Trace.allSpans t → h !! p = Some sp →
         c ∈ Span.children sp →
         c ∈ Trace.allSpans t ∧ (p < c)%nat ∧ c ≠ Trace.rootSpan t
         ∧ ∃ sc, h !! c = Some sc ∧ Span.parentId sc = Some (Span.id sp))
    ∧ (∀ p sp, p ∈ Trace.allSpans t → h !! p = Some sp →
         NoDup (Span.children sp))
    ∧ (∀ p1 p2 sp1 sp2 c, p1 ∈ Trace.allSpans t → p2 ∈ Trace.allSpans t →
         h !! p1 = Some sp1 → h !! p2 = Some sp2 →
         c ∈ Span.children sp1 → c ∈ Span.children sp2 → p1 = p2)
    ∧ (∀ c, c ∈ Trace.allSpans t → c ≠ Trace.rootSpan t →
         ∃ p sp, p ∈ Trace.allSpans t ∧ h !! p = Some sp
                 ∧ c ∈ Span.children sp).
Proof.
  intros st0.
  destruct (run_linked ops st0.1 st0.2 (wf_new _ _ _ _ _ _ _)
              (linked_new _ _ _ _ _ _ _))
    as (h & t & Hrun & Hwf & [L1 L2 L3 L4 L5 L6 L7 L8] & _).
  exists h, t. split; [by destruct st0|].
  assert (Hk : ∀ p sp, h !! p = Some sp →
            children_of h p = Some (Span.children sp)).
  { intros p sp Hp. unfold children_of. by rewrite Hp. }
  split_and!.
  - intros p sp c Hp Hsp Hc.
    destruct (L4 p _ c Hp (Hk p sp Hsp) Hc) as (Hcin & Hlt & Hpar).
    split_and!; [done | done | |].
    + intros ->. specialize (L2 p Hp). lia.
    + unfold parentId_of, id_of in Hpar. rewrite Hsp in Hpar.
      destruct (h !! c) as [sc|]; [|done]. exists sc. split; [done|].
      simpl in Hpar. congruence.
  - intros p sp Hp Hsp. by eapply L5, Hk.
  - intros p1 p2 sp1 sp2 c Hp1 Hp2 H1 H2. by eapply L6; try apply Hk.
  - intros c Hc Hne. destruct (L7 c Hc Hne) as (p & kids & Hp & Hkids & Hin).
    unfold children_of in Hkids. destruct (h !! p) as [sp|] eqn:Hsp; [|done].
    exists p, sp. split_and!; [done | done |]. simpl in Hkids. congruence.
Qed.

(** ** Balanced [startSpan] and [endSpan] calls *)

(** No two of the spans [refs] have the same [id]. *)
Definition ids_unique (h : Span.heap) (refs : list ref) : Prop :=
  ∀ r1 r2, r1 ∈ refs → r2 ∈ refs → id_of h r1 = id_of h r2 → r1 = r2.

Lemma NoDup_fmap_inj_on {A B} (f : A → B) (l : list A) x y :
  NoDup (f <$> l) → x ∈ l → y ∈ l → f x = f y → x = y.
Proof.
  induction l as [|a l IH]; simpl; [by intros _ ?%elem_of_nil|].
  intros [Hnin Hnd]%NoDup_cons [->|Hx]%elem_of_cons [->|Hy]%elem_of_cons Heq;
    [done | | |by apply IH].
  - exfalso. apply Hnin. rewrite Heq. by apply list_elem_of_fmap_2.
  - exfalso. apply Hnin. rewrite <- Heq. by apply list_elem_of_fmap_2.
Qed.

(** With unique identifiers [find] gives the parent itself. *)
Lemma next_cursor_unique h t p :
  wf h t → ids_unique h (Trace.allSpans t) → p ∈ Trace.allSpans t →
  parentId_of h (Trace.currentSpan t) = Some (id_of h p) →
  next_cursor h t = p.
Proof.
  intros Hwf Huniq Hp Hpar. unfold next_cursor. rewrite Hpar.
  destruct (lookup_lt_is_Some_2 h p (wf_alloc _ _ Hwf p Hp)) as [sp Hsp].
  assert (Hid : id_of h p = Some (Span.id sp)) by (unfold id_of; by rewrite Hsp).
  rewrite Hid.
  rewrite truthy_string_Some
    by (intros E; apply (wf_ids _ _ Hwf p Hp); by rewrite Hid, E).
  unfold Trace.find_by_id.
  destruct (list_find _ (Trace.allSpans t)) as [[i q]|] eqn:Hfind; simpl.
  - apply list_find_Some in Hfind as (Hi & Hq & _).
    apply Huniq; [by eapply list_elem_of_lookup_2 | done |].
    fold (id_of h q) in Hq. congruence.
  - apply list_find_None in Hfind.
    by destruct (proj1 (Forall_forall _ _) Hfind p Hp).
Qed.

Section balanced.

(** [N] nested spans allocated from [base] on, the first under [c0]. *)
Variables (c0 base N : nat) (A : list ref).

Lemma ends_lifo (ends : list (option Error * Z)) : ∀ h t k,
  length ends = k → (k ≤ N)%nat →
  wf h t → Trace.allSpans t = A → ids_unique h A →
  c0 ∈ A → (c0 < base)%nat →
  (∀ j, (j < N)%nat →
     (base + j)%nat ∈ A
     ∧ parentId_of h (base + j) = Some (id_of h (hangs_under c0 base j))) →
  Trace.currentSpan t = hangs_under c0 base k →
  ∃ h' t',
    Trace.run (h, t) (end_ops ends) = Some (h', t')
    ∧ Trace.allSpans t' = A
    ∧ Trace.rootSpan t' = Trace.rootSpan t
    ∧ Trace.currentSpan t' = c0
    ∧ (∀ r, id_of h' r = id_of h r)
    ∧ (∀ i e now, ends !! i = Some (e, now) →
         ∃ s, h !! (base + (k - 1 - i))%nat = Some s
              ∧ h' !! (base + (k - 1 - i))%nat = Some (Span.end_ s e now))
    ∧ (∀ r, (r < base)%nat ∨ (base + k ≤ r)%nat → h' !! r = h !! r).
Proof.
  induction ends as [|[e now] ends IH]; intros h t k Hlen Hk Hwf Hall Huniq
    Hc0 Hlt Hchain Hcur.
  - simpl in Hlen. subst k. exists h, t. simpl in *. split_and!; done.
  - simpl in Hlen. destruct k as [|k']; [done|]. injection Hlen as Hlen.
    simpl in Hcur.
    destruct (endSpan_heap h t e now Hwf)
      as (cur & t1 & Hc & He & Hwf1 & Hroot1 & Hall1 & Hcur1 & _).
    rewrite Hcur in Hc, He, Hwf1.
    set (h1 := <[(base + k')%nat := Span.end_ cur e now]> h) in *.
    assert (Hst : ∀ r, children_of h1 r = children_of h r
                       ∧ traceId_of h1 r = traceId_of h r
                       ∧ id_of h1 r = id_of h r
                       ∧ parentId_of h1 r = parentId_of h r)
      by (intros r; by apply ended_fields).
    assert (Hin : hangs_under c0 base k' ∈ A).
    { destruct k' as [|k'']; simpl; [done|]. apply Hchain. lia. }
    assert (Hnext : Trace.currentSpan t1 = hangs_under c0 base k').
    { rewrite Hcur1. apply next_cursor_unique; rewrite ?Hall; try done.
      rewrite Hcur. apply Hchain. lia. }
    destruct (IH h1 t1 k') as (h' & t' & Hrun & Hall' & Hroot' & Hcur' & Hid' & Hended & Hframe);
      try done; try lia; try congruence.
    { intros r1 r2 H1 H2. rewrite !(proj1 (proj2 (proj2 (Hst _)))).
      by apply Huniq. }
    { intros j Hj. destruct (Hchain j Hj) as [? Hp]. split; [done|].
      by rewrite (proj2 (proj2 (proj2 (Hst _)))), (proj1 (proj2 (proj2 (Hst _)))). }
    exists h', t'. simpl. rewrite He. simpl. split_and!; try done.
    + congruence.
    + intros r. rewrite Hid'. apply Hst.
    + intros [|i] e' now' Hi; simpl in Hi.
      * injection Hi as <- <-. exists cur.
        replace (k' - 0 - 0)%nat with k' by lia.
        split; [done|]. rewrite Hframe by lia.
        apply list_lookup_insert_eq. by eapply lookup_lt_Some.
      * pose proof (lookup_lt_Some _ _ _ Hi) as Hik.
        destruct (Hended i e' now' Hi) as (s & Hs & Hs').
        exists s.
        replace (k' - 0 - S i)%nat with (k' - 1 - i)%nat by lia.
        split; [|done]. unfold h1 in Hs.
        rewrite list_lookup_insert_ne in Hs by lia. done.
    + intros r Hr. rewrite Hframe by lia. unfold h1.
      apply list_lookup_insert_ne. lia.
Qed.

End balanced.

(** The fields of a span that [addChild] leaves alone. *)
Definition timing (s : Span.t)
    : string * Z * option Z * option Z * Span.Status * option Error :=
  (Span.name s, Span.startTime s, Span.endTime s, Span.duration s,
   Span.status s, Span.error s).

Lemma startSpan_timing h t name idNow rnd startNow h' t' span :
  wf h t →
  Trace.startSpan h t name idNow rnd startNow = Some (h', t', span) →
  (∀ r, (r < length h)%nat → timing <$> h' !! r = timing <$> h !! r)
  ∧ timing <$> h' !! length h
    = Some (name, startNow, None, None, Span.started, None).
Proof.
  intros Hwf Hs.
  pose proof (wf_alloc _ _ Hwf _ (wf_cursor _ _ Hwf)) as Hlt.
  destruct (lookup_lt_is_Some_2 h _ Hlt) as [cur Hc].
  rewrite (startSpan_heap h t name idNow rnd startNow cur Hc) in Hs.
  injection Hs as <- _ _. split.
  - intros r Hr. rewrite (started_lookup _ _ _ _ r Hc).
    destruct (decide (r = Trace.currentSpan t)) as [->|Hne];
      [by rewrite Hc|].
    rewrite decide_False by lia. done.
  - rewrite (started_lookup _ _ _ _ (length h) Hc).
    rewrite decide_False by lia. by rewrite decide_True.
Qed.

Lemma starts_timing (args : list (string * Z * string * Z)) : ∀ h t h1 t1,
  wf h t →
  Trace.run (h, t) (start_ops args) = Some (h1, t1) →
  (∀ r, (r < length h)%nat → timing <$> h1 !! r = timing <$> h !! r)
  ∧ ∀ j a, args !! j = Some a →
      timing <$> h1 !! (length h + j)%nat
      = Some (a.1.1.1, a.2, None, None, Span.started, None).
Proof.
  induction args as [|a args IH]; intros h t h1 t1 Hwf Hrun.
  - simpl in Hrun. injection Hrun as <- <-. split; [done|]. by intros j a [=].
  - simpl in Hrun.
    destruct (startSpan_spec h t a.1.1.1 a.1.1.2 a.1.2 a.2 Hwf)
      as (h' & t' & Hs & Hwf' & Hlen & _).
    rewrite Hs in Hrun. simpl in Hrun.
    destruct (startSpan_timing _ _ _ _ _ _ _ _ _ Hwf Hs) as [Hold Hnew].
    destruct (IH h' t' h1 t1 Hwf' Hrun) as [Hold1 Hnew1].
    split.
    + intros r Hr. rewrite Hold1 by lia. by apply Hold.
    + intros [|j] b Hb; simpl in Hb.
      * injection Hb as <-. rewrite Nat.add_0_r, Hold1 by lia. done.
      * rewrite <- (Hnew1 j b Hb), Hlen. f_equal. f_equal. lia.
Qed.

(** X4.  With unique span identifiers, balanced calls restore the cursor
    wherever it is.  In a trace built by the constructor and any calls,
    start [N] nested spans and call [endSpan] [N] times; if the identifiers
    of the spans of the trace and of the new spans are pairwise different,
    the cursor is back on the span it was on, and the calls match last in,
    first out: the [i]-th [endSpan] has ended the span that the
    [(N-1-i)]-th [startSpan] made, with its error and its clock reading. *)
Theorem balanced_spans_restore_cursor
    (h : Span.heap) (t : Trace.t)
    (starts : list (string * Z * string * Z))
    (ends : list (option Error * Z)) :
  reachable h t →
  NoDup ((id_of h <$> Trace.allSpans t) ++ (Some ∘ started_id <$> starts)) →
  length ends = length starts →
  ∃ h' t',
    Trace.run (h, t) (start_ops starts ++ end_ops ends) = Some (h', t')
    ∧ Trace.currentSpan t' = Trace.currentSpan t
    ∧ Trace.rootSpan t' = Trace.rootSpan t
    ∧ Trace.allSpans t' = Trace.allSpans t ++ seq (length h) (length starts)
    ∧ ∀ i j a e now,
        ends !! i = Some (e, now) → starts !! j = Some a →
        (i + j = length starts - 1)%nat →
        ∃ s, h' !! (length h + j)%nat = Some s
             ∧ Span.id s = started_id a
             ∧ Span.name s = a.1.1.1
             ∧ Span.startTime s = a.2
             ∧ Span.endTime s = Some now
             ∧ Span.duration s = Some (now - a.2)
             ∧ Span.status s
               = match e with Some _ => Span.error_ | None => Span.completed end
             ∧ Span.error s = e.
Proof.
  intros Hreach Hnd Hlen. pose proof (reachable_wf _ _ Hreach) as Hwf.
  destruct (starts_spec starts h t Hwf)
    as (h1 & t1 & Hrun & Hwf1 & Hroot1 & Hall1 & Hcur1 & Hold1 & Hnew1).
  destruct (starts_timing starts h t h1 t1 Hwf Hrun) as [_ Htime].
  pose proof (wf_alloc _ _ Hwf) as Halloc.
  (* the identifiers after the starts are those of the hypothesis *)
  assert (Hids : id_of h1 <$> Trace.allSpans t1
                 = (id_of h <$> Trace.allSpans t) ++ (Some ∘ started_id <$> starts)).
  { rewrite Hall1, fmap_app. f_equal.
    - apply list_fmap_ext. intros i r Hr.
      apply Hold1, Halloc. by eapply list_elem_of_lookup_2.
    - apply list_eq. intros j. rewrite !list_lookup_fmap.
      destruct (starts !! j) as [a|] eqn:Ha; simpl.
      + rewrite (proj2 (lookup_seq _ _ _ _) (conj eq_refl (lookup_lt_Some _ _ _ Ha))).
        simpl. by destruct (Hnew1 j a Ha) as [-> _].
      + rewrite lookup_seq_ge; [done|]. by apply lookup_ge_None_1. }
  assert (Huniq : ids_unique h1 (Trace.allSpans t1)).
  { intros r1 r2 H1 H2 Heq.
    apply (NoDup_fmap_inj_on (id_of h1) (Trace.allSpans t1)); try done.
    by rewrite Hids. }
  assert (Hc0 : Trace.currentSpan t ∈ Trace.allSpans t1).
  { rewrite Hall1. apply elem_of_app. left. apply (wf_cursor _ _ Hwf). }
  destruct (ends_lifo (Trace.currentSpan t) (length h) (length starts)
              (Trace.allSpans t1) ends h1 t1 (length starts))
    as (h2 & t2 & Hrun2 & Hall2 & Hroot2 & Hcur2 & Hid2 & Hended & _);
    try done.
  { apply Halloc, (wf_cursor _ _ Hwf). }
  { intros j Hj. destruct (lookup_lt_is_Some_2 starts j Hj) as [a Ha].
    split; [|by apply (Hnew1 j a Ha)].
    rewrite Hall1. apply elem_of_app. right. apply elem_of_seq. lia. }
  exists h2, t2. rewrite run_app, Hrun. simpl.
  split_and!; try done; try congruence.
  intros i j a e now Hi Ha Hij.
  destruct (Hended i e now Hi) as (s & Hs & Hs').
  assert (length starts - 1 - i = j)%nat as Hj by lia. rewrite Hj in Hs, Hs'.
  exists (Span.end_ s e now). split; [done|].
  pose proof (Htime j a Ha) as Ht. rewrite Hs in Ht. injection Ht as Hn Hst.
  destruct (Hnew1 j a Ha) as [Hid _]. unfold id_of in Hid. rewrite Hs in Hid.
  injection Hid as Hid. simpl. split_and!; try done. by rewrite Hst.
Qed.

Lemma balanced_spans_witness :
  let st0 := Trace.new [] "trace-1-0.5" "checkout" 1 1 "0.25" 1 in
  let before := [Trace.StartSpan "charge" 2 "0.125" 2] in
  let starts := [("gateway-call", 3, "0.75", 3); ("retry", 4, "0.375", 4)] in
  let ends := [(Some {| message := "timeout" |}, 9); (None, 12)] in
  ∃ h t h' t' s,
    Trace.run st0 before = Some (h, t)
    ∧ NoDup ((id_of h <$> Trace.allSpans t) ++ (Some ∘ started_id <$> starts))
    ∧ length ends = length starts
    ∧ Trace.run (h, t) (start_ops starts ++ end_ops ends) = Some (h', t')
    ∧ Trace.currentSpan t = 1%nat
    ∧ Trace.currentSpan t' = 1%nat
    ∧ h' !! 3%nat = Some s
    ∧ Span.name s = "retry"%string
    ∧ Span.status s = Span.error_
    ∧ Span.duration s = Some 5.
Proof.
  intros st0 before starts ends.
  destruct (Trace.run st0 before) as [[h t]|] eqn:E; [|by vm_compute in E].
  assert (reachable h t) as Hr.
  { apply (reachable_run before st0.1 st0.2); [apply reachable_new | done]. }
  assert (NoDup ((id_of h <$> Trace.allSpans t)
                 ++ (Some ∘ started_id <$> starts))) as Hnd.
  { vm_compute in E. injection E as <- <-. vm_compute.
    repeat (apply NoDup_cons; split;
            [rewrite ?elem_of_cons, elem_of_nil; intros H;
             repeat destruct H as [H|H]; done|]).
    constructor. }
  assert (length ends = length starts) as Hl by done.
  destruct (balanced_spans_restore_cursor h t starts ends Hr Hnd Hl)
    as (h' & t' & Hrun & Hcur & _ & _ & Hlifo).
  destruct (Hlifo 0%nat 1%nat ("retry"%string, 4, "0.375"%string, 4)
              (Some {| message := "timeout" |}) 9 eq_refl eq_refl eq_refl)
    as (s & Hs & _ & Hname & _ & _ & Hdur & Hst & _).
  assert (length h = 2%nat ∧ Trace.currentSpan t = 1%nat) as [Hh Hc].
  { vm_compute in E. by injection E as <- <-. }
  rewrite Hh in Hs. exists h, t, h', t', s.
  split_and!; try done. congruence.
Defined.

(** ** The span tree: [toJSON], [getSpanTree], [visualize] *)

(** The spans below [r] with their depth, a parent before its children and
    the children in the order of [children]: the order in which [toJSON]
    and [formatSpan] visit them. *)
Fixpoint outline (fuel : nat) (h : Span.heap) (level : nat) (r : ref)
    : option (list (nat * ref)) :=
  match fuel with
  | O => None
  | S fuel =>
      s ← h !! r;
      below ← mapM (outline fuel h (S level)) (Span.children s);
      Some ((level, r) :: concat below)
  end.

(** The identifiers of the nodes of a tree, a parent before its children. *)
Fixpoint json_ids (j : Span.JSON) : list string :=
  match j with
  | Span.json id _ _ _ _ _ children => id :: concat (map json_ids children)
  end.

(** The text of the lines for the spans of an outline. *)
Definition render (h : Span.heap) (out : list (nat * ref)) : string :=
  foldr (λ e text,
           match h !! e.2 with
           | Some s => Trace.line e.1 s +:+ text
           | None => text
           end) "" out.

(** How often [x] is in [l]. *)
Fixpoint occ (x : nat) (l : list nat) : nat :=
  match l with
  | [] => 0
  | y :: l => (if decide (x = y) then 1 else 0) + occ x l
  end.

Lemma occ_app x l k : occ x (l ++ k) = (occ x l + occ x k)%nat.
Proof. induction l as [|y l IH]; simpl; [done|]. rewrite IH. lia. Qed.

Lemma occ_pos x l : x ∈ l ↔ (0 < occ x l)%nat.
Proof.
  induction l as [|y l IH]; simpl.
  - split; [by intros ?%elem_of_nil | lia].
  - rewrite elem_of_cons, IH. destruct (decide (x = y)); [|lia].
    split; [lia | by left].
Qed.

Lemma occ_NoDup l : (∀ x, occ x l ≤ 1)%nat → NoDup l.
Proof.
  induction l as [|y l IH]; intros Hocc; [constructor|].
  apply NoDup_cons. split.
  - intros Hin%occ_pos. specialize (Hocc y). simpl in Hocc.
    rewrite decide_True in Hocc by done. lia.
  - apply IH. intros x. specialize (Hocc x). simpl in Hocc. lia.
Qed.

Lemma occ_Permutation l k :
  NoDup k → (∀ x, occ x l = if decide (x ∈ k) then 1 else 0)%nat → l ≡ₚ k.
Proof.
  intros Hk Hocc. apply NoDup_Permutation; [|done|].
  - apply occ_NoDup. intros x. rewrite Hocc. destruct (decide _); lia.
  - intros x. rewrite occ_pos, Hocc.
    destruct (decide (x ∈ k)); (split; [done || lia | done || lia]).
Qed.

Lemma string_app_assoc (s1 s2 s3 : string) :
  (s1 +:+ s2) +:+ s3 = s1 +:+ s2 +:+ s3.
Proof.
  induction s1 as [|a s1 IH]; [done|].
  change (String a ((s1 +:+ s2) +:+ s3) = String a (s1 +:+ s2 +:+ s3)).
  by rewrite IH.
Qed.

Lemma render_app h out1 out2 :
  render h (out1 ++ out2) = render h out1 +:+ render h out2.
Proof.
  induction out1 as [|e out1 IH]; simpl; [done|].
  destruct (h !! e.2); [|done]. by rewrite IH, string_app_assoc.
Qed.

Lemma outline_unfold fuel h level r :
  outline (S fuel) h level r
  = kids ← children_of h r;
    below ← mapM (outline fuel h (S level)) kids;
    Some ((level, r) :: concat below).
Proof. unfold children_of. simpl. by destruct (h !! r). Qed.


(** The outline only depends on the [children] lists. *)
Lemma outline_ext h h' fuel : ∀ level r,
  (∀ r, children_of h' r = children_of h r) →
  outline fuel h' level r = outline fuel h level r.
Proof.
  induction fuel as [|fuel IH]; intros level r Hk; [done|].
  rewrite !outline_unfold, Hk.
  destruct (children_of h r) as [kids|]; simpl; [|done].
  by rewrite (mapM_ext _ (outline fuel h (S level))) by (intros; by apply IH).
Qed.

Lemma outline_head fuel h level r out :
  outline fuel h level r = Some out → ∃ rest, out = (level, r) :: rest.
Proof.
  destruct fuel as [|fuel]; [done|]. rewrite outline_unfold.
  destruct (children_of h r); simpl; [|done].
  destruct (mapM _ _); simpl; [|done]. intros [= <-]. eauto.
Qed.

Section outline_started.

(** The heap after [startSpan] under the span [c]. *)
Variables (h : Span.heap) (c : ref) (cur new : Span.t).
Hypothesis Hc : h !! c = Some cur.
Hypothesis Hnew : Span.children new = [].

Let n := length h.
Let h' := <[c := Span.addChild cur n]> (h ++ [new]).

Lemma children_started r :
  children_of h' r
  = if decide (r = c) then Some (Span.children cur ++ [n])
    else if decide (r = n) then Some [] else children_of h r.
Proof.
  unfold h', n. rewrite (proj1 (started_fields h c cur new Hc) r).
  by rewrite Hnew.
Qed.

(** The new span enters the outline once for each time [c] is in it. *)
Lemma outline_started fuel : ∀ level r out,
  outline fuel h level r = Some out →
  ∃ out',
    outline (S fuel) h' level r = Some out'
    ∧ ∀ x, occ x out'.*2
           = (occ x out.*2 + if decide (x = n) then occ c out.*2 else 0)%nat.
Proof.
  induction fuel as [|fuel IH]; intros level r out Hout; [done|].
  rewrite outline_unfold in Hout.
  destruct (children_of h r) as [kids|] eqn:Hkids; simpl in Hout; [|done].
  destruct (mapM (outline fuel h (S level)) kids) as [below|] eqn:Hm;
    simpl in Hout; [|done].
  injection Hout as <-.
  assert (Hrn : r ≠ n).
  { unfold children_of in Hkids. destruct (h !! r) eqn:Hr; [|done].
    apply lookup_lt_Some in Hr. unfold n. lia. }
  (* the children that were there *)
  assert (∃ below',
            Forall2 (λ k o, outline (S fuel) h' (S level) k = Some o) kids below'
            ∧ ∀ x, occ x (concat below').*2
                   = (occ x (concat below).*2
                      + if decide (x = n) then occ c (concat below).*2 else 0)%nat)
    as (below' & Hbelow' & Hocc).
  { apply mapM_Some in Hm. clear Hkids.
    induction Hm as [|k o kids below Ho _ IHkids].
    - exists []. split; [constructor|]. intros x. simpl.
      by destruct (decide (x = n)).
    - destruct (IH _ _ _ Ho) as (o' & Ho' & Hocc_o).
      destruct IHkids as (below' & Hbelow' & Hocc').
      exists (o' :: below'). split; [by constructor|]. intros x.
      rewrite !concat_cons, !fmap_app, !occ_app, Hocc_o, Hocc'.
      destruct (decide (x = n)); lia. }
  rewrite outline_unfold, children_started.
  destruct (decide (r = c)) as [->|Hrc].
  - assert (outline (S fuel) h' (S level) n = Some [(S level, n)]) as Hn.
    { rewrite outline_unfold, children_started.
      destruct (decide (n = c)) as [E|_]; [by rewrite E in Hrn|].
      by rewrite decide_True. }
    assert (mapM (outline (S fuel) h' (S level)) (Span.children cur ++ [n])
            = Some (below' ++ [[(S level, n)]])) as Hall.
    { apply mapM_Some. apply Forall2_app; [|by repeat constructor].
      unfold children_of in Hkids. rewrite Hc in Hkids.
      by injection Hkids as ->. }
    cbn [mbind option_bind]. rewrite Hall. cbn [mbind option_bind].
    eexists. split; [done|]. intros x. cbn [fmap list_fmap occ snd].
    rewrite concat_app, !fmap_app, !occ_app, Hocc. simpl.
    rewrite (decide_True (P := c = c)) by done.
    destruct (decide (x = c)); destruct (decide (x = n)); lia.
  - rewrite decide_False by done. rewrite Hkids.
    apply mapM_Some in Hbelow'.
    cbn [mbind option_bind]. rewrite Hbelow'. cbn [mbind option_bind].
    eexists. split; [done|]. intros x. cbn [fmap list_fmap occ snd].
    rewrite Hocc. rewrite (decide_False (P := c = r)) by done.
    destruct (decide (x = r)); destruct (decide (x = n)); lia.
Qed.

End outline_started.

(** The tree under the root has every span of the trace exactly once. *)
Definition whole_tree (h : Span.heap) (t : Trace.t) : Prop :=
  ∃ out,
    outline (length h) h 0 (Trace.rootSpan t) = Some out
    ∧ ∀ x, occ x out.*2 = if decide (x ∈ Trace.allSpans t) then 1%nat else 0%nat.

Lemma reachable_whole_tree h t : reachable h t → whole_tree h t.
Proof.
  induction 1 as [h0 traceId rootSpanName now idNow rnd startNow
                 |h t o h' t' Hr IH Hstep].
  - unfold Trace.new, Span.alloc, whole_tree. simpl.
    rewrite length_app, Nat.add_1_r, outline_unfold. unfold children_of.
    rewrite lookup_app_r, Nat.sub_diag by done. simpl.
    eexists. split; [done|]. intros x. simpl.
    destruct (decide (x = length h0)) as [->|Hne].
    + by rewrite decide_True by apply list_elem_of_here.
    + rewrite decide_False; [done|]. by intros ?%list_elem_of_singleton.
  - pose proof (reachable_wf _ _ Hr) as Hwf.
    destruct IH as (out & Hout & Hocc).
    destruct o as [name idNow rnd startNow | error now]; simpl in Hstep.
    + pose proof (wf_alloc _ _ Hwf _ (wf_cursor _ _ Hwf)) as Hlt.
      destruct (lookup_lt_is_Some_2 h _ Hlt) as [cur Hc].
      rewrite (startSpan_heap h t name idNow rnd startNow cur Hc) in Hstep.
      injection Hstep as <- <-.
      destruct (outline_started h _ cur
                  (Span.new (Trace.traceId t) name (Some (Span.id cur))
                            idNow rnd startNow)
                  Hc eq_refl _ _ _ _ Hout)
        as (out' & Hout' & Hocc').
      exists out'. simpl. rewrite length_insert, length_app, Nat.add_1_r.
      split; [exact Hout'|]. intros x. rewrite Hocc', !Hocc.
      rewrite (decide_True (P := Trace.currentSpan t ∈ Trace.allSpans t))
        by apply (wf_cursor _ _ Hwf).
      destruct (decide (x = length h)) as [->|Hne].
      * rewrite decide_False
          by (intros Hin; specialize (wf_alloc _ _ Hwf _ Hin); lia).
        rewrite decide_True; [done|].
        apply elem_of_app. right. by apply list_elem_of_singleton.
      * destruct (decide (x ∈ Trace.allSpans t)) as [Hin|Hnin].
        -- rewrite decide_True; [lia|]. apply elem_of_app. by left.
        -- rewrite decide_False; [lia|].
           intros [?|?%list_elem_of_singleton]%elem_of_app; done.
    + destruct (endSpan_heap h t error now Hwf)
        as (cur & t0 & Hc & E & _ & Hroot & Hall & _).
      rewrite E in Hstep. injection Hstep as <- <-.
      exists out. rewrite length_insert, Hroot, Hall. split; [|done].
      rewrite <- Hout. apply outline_ext. intros r. by apply ended_fields.
Qed.

Lemma string_app_nil_r (s : string) : s +:+ "" = s.
Proof.
  induction s as [|a s IH]; [done|].
  change (String a (s +:+ "") = String a s). by rewrite IH.
Qed.

(** [toJSON] returns where the outline exists, with the nodes in its
    order. *)
Lemma toJSON_outline fuel : ∀ h level r out,
  outline fuel h level r = Some out →
  ∃ s js,
    h !! r = Some s
    ∧ Span.toJSON fuel h r
      = Some (Span.json (Span.id s) (Span.name s) (Span.duration s)
                        (Span.status s) (message <$> Span.error s)
                        (Span.attributes s) js)
    ∧ length js = length (Span.children s)
    ∧ Forall2 (λ x i, id_of h x = Some i) out.*2
              (Span.id s :: concat (map json_ids js)).
Proof.
  induction fuel as [|fuel IH]; intros h level r out Hout; [done|].
  simpl in Hout. destruct (h !! r) as [s|] eqn:Hs; simpl in Hout; [|done].
  destruct (mapM (outline fuel h (S level)) (Span.children s)) as [below|] eqn:Hm;
    simpl in Hout; [|done].
  injection Hout as <-.
  assert (∃ js, mapM (Span.toJSON fuel h) (Span.children s) = Some js
                ∧ length js = length (Span.children s)
                ∧ Forall2 (λ x i, id_of h x = Some i) (concat below).*2
                          (concat (map json_ids js)))
    as (js & Hjs & Hlen & Hids).
  { apply mapM_Some in Hm. clear Hs.
    induction Hm as [|k o kids below Ho _ IHkids].
    - exists []. split_and!; [done | done | constructor].
    - destruct (IH _ _ _ _ Ho) as (sk & jsk & Hk & Hj & _ & Hidk).
      destruct IHkids as (js & Hjs & Hlen & Hids).
      eexists (_ :: js). cbn [mapM]. rewrite Hj. cbn [mbind option_bind].
      rewrite Hjs. cbn [mbind option_bind mret option_ret].
      split_and!; [done | simpl; by rewrite Hlen |].
      cbn [map json_ids]. rewrite !concat_cons, fmap_app.
      by apply Forall2_app. }
  exists s, js. split; [done|]. simpl. rewrite Hs. simpl. rewrite Hjs. simpl.
  split_and!; [done | done |]. constructor; [|done].
  unfold id_of. by rewrite Hs.
Qed.

(** More fuel gives the same tree. *)
Lemma toJSON_mono fuel : ∀ fuel' h r j,
  Span.toJSON fuel h r = Some j → (fuel ≤ fuel')%nat →
  Span.toJSON fuel' h r = Some j.
Proof.
  induction fuel as [|fuel IH]; intros fuel' h r j Hj Hle; [done|].
  destruct fuel' as [|fuel']; [lia|]. simpl in *.
  destruct (h !! r) as [s|]; simpl in *; [|done].
  destruct (mapM (Span.toJSON fuel h) (Span.children s)) as [js|] eqn:Hm;
    simpl in Hj; [|done].
  assert (mapM (Span.toJSON fuel' h) (Span.children s) = Some js) as ->;
    [|done].
  apply mapM_Some. apply mapM_Some in Hm.
  eapply Forall2_impl; [exact Hm|]. intros k o Ho. simpl in *.
  apply IH; [done | lia].
Qed.

(** [formatSpan] appends the lines of the outline. *)
Lemma formatSpan_outline fuel : ∀ h output r level,
  Trace.formatSpan fuel h output r level
  = (λ out, output +:+ render h out) <$> outline fuel h level r.
Proof.
  induction fuel as [|fuel IH]; intros h output r level; [done|].
  simpl. destruct (h !! r) as [s|] eqn:Hs; simpl; [|done].
  assert (∀ kids o',
    (fix forEach (children : list ref) (output : string) : option string :=
       match children with
       | [] => Some output
       | child :: children =>
           Trace.formatSpan fuel h output child (S level)
           ≫= λ output, forEach children output
       end) kids o'
    = (λ below, o' +:+ render h (concat below))
      <$> mapM (outline fuel h (S level)) kids) as Hloop.
  { induction kids as [|k kids IHkids]; intros o'.
    - simpl. by rewrite string_app_nil_r.
    - rewrite IH. cbn [mapM].
      destruct (outline fuel h (S level) k) as [ok|]; simpl; [|done].
      rewrite IHkids.
      destruct (mapM (outline fuel h (S level)) kids) as [below|]; simpl;
        [|done].
      by rewrite render_app, string_app_assoc. }
  rewrite Hloop.
  destruct (mapM (outline fuel h (S level)) (Span.children s)) as [below|];
    simpl; [|done].
  by rewrite Hs, string_app_assoc.
Qed.


(** X5.  [getSpanTree] returns on every trace built by the constructor and
    any calls, and the tree has each span of the trace exactly once: read
    parent first and children in order, its nodes carry the identifiers of
    a rearrangement of [allSpans], beginning with the root span, whose
    fields the top node shows.  (Fuel beyond the size of the heap changes
    nothing.) *)
Theorem getSpanTree_each_span_once (h : Span.heap) (t : Trace.t) :
  reachable h t →
  ∃ j order root js,
    (∀ fuel, (length h ≤ fuel)%nat → Trace.getSpanTree fuel h t = Some j)
    ∧ order ≡ₚ Trace.allSpans t
    ∧ head order = Some (Trace.rootSpan t)
    ∧ Forall2 (λ x i, id_of h x = Some i) order (json_ids j)
    ∧ h !! Trace.rootSpan t = Some root
    ∧ j = Span.json (Span.id root) (Span.name root) (Span.duration root)
                    (Span.status root) (message <$> Span.error root)
                    (Span.attributes root) js
    ∧ length js = length (Span.children root).
Proof.
  intros Hr. destruct (reachable_whole_tree h t Hr) as (out & Hout & Hocc).
  destruct (toJSON_outline _ _ _ _ _ Hout) as (root & js & Hroot & Hj & Hlen & Hids).
  destruct (outline_head _ _ _ _ _ Hout) as [rest ->].
  exists (Span.json (Span.id root) (Span.name root) (Span.duration root)
                    (Span.status root) (message <$> Span.error root)
                    (Span.attributes root) js),
         ((0%nat, Trace.rootSpan t) :: rest).*2, root, js.
  split_and!; [| | |exact Hids| done | done | done].
  - intros fuel Hfuel. unfold Trace.getSpanTree.
    by apply (toJSON_mono (length h)).
  - apply occ_Permutation; [|done]. apply (reachable_linked _ _ Hr).
  - done.
Qed.

Lemma getSpanTree_witness :
  let st0 := Trace.new [] "trace-0-0.5" "checkout" 0 0 "0.1" 0 in
  let ops := [Trace.StartSpan "validate" 0 "0.2" 0; Trace.EndSpan None 50;
              Trace.StartSpan "charge" 50 "0.3" 50;
              Trace.StartSpan "gateway-call" 60 "0.4" 60;
              Trace.EndSpan None 210; Trace.EndSpan None 250] in
  ∃ h t j,
    Trace.run st0 ops = Some (h, t)
    ∧ reachable h t
    ∧ Trace.getSpanTree (length h) h t = Some j
    ∧ json_ids j = ["span-0-0.1"; "span-0-0.2"; "span-50-0.3"; "span-60-0.4"]%string.
Proof.
  intros st0 ops.
  destruct (Trace.run st0 ops) as [[h t]|] eqn:E; [|by vm_compute in E].
  assert (reachable h t) as Hr.
  { apply (reachable_run ops st0.1 st0.2); [apply reachable_new | done]. }
  destruct (getSpanTree_each_span_once h t Hr)
    as (j & order & root & js & Hj & _).
  exists h, t, j. split_and!; [done | done | by apply Hj |].
  specialize (Hj (length h) (le_n _)).
  vm_compute in E. injection E as <- <-. vm_compute in Hj.
  by injection Hj as <-.
Defined.



(** X7.  There is no guard against a span that is its own child (nothing
    stops [span.addChild(span)]): on such a span the recursion of [toJSON]
    and of [formatSpan] never ends, whatever the fuel. *)
Theorem self_child_recursion_never_returns
    (h : Span.heap) (r : ref) (s : Span.t) :
  h !! r = Some s → r ∈ Span.children s →
  ∀ fuel,
    Span.toJSON fuel h r = None
    ∧ ∀ output level, Trace.formatSpan fuel h output r level = None.
Proof.
  intros Hs Hin fuel. split.
  - induction fuel as [|fuel IH]; [done|]. simpl. rewrite Hs. simpl.
    rewrite (mapM_None_2 (Span.toJSON fuel h) (Span.children s)); [done|].
    apply Exists_exists. by exists r.
  - intros output level. rewrite formatSpan_outline.
    assert (∀ level, outline fuel h level r = None) as ->; [|done].
    induction fuel as [|fuel IH]; intros l; [done|]. simpl. rewrite Hs. simpl.
    rewrite (mapM_None_2 (outline fuel h (S l)) (Span.children s)); [done|].
    apply Exists_exists. by exists r.
Qed.

Lemma self_child_witness :
  ∃ h s,
    Span.run [] [Span.New "t" "loop" None 1 "0.5" 1; Span.AddChild 0 0] = Some h
    ∧ h !! 0%nat = Some s
    ∧ 0%nat ∈ Span.children s
    ∧ Span.toJSON 100 h 0 = None
    ∧ Trace.formatSpan 100 h "" 0 0 = None.
Proof.
  eexists _, _. split; [by vm_compute|].
  assert (∀ h s, h !! 0%nat = Some s → 0%nat ∈ Span.children s →
            Span.toJSON 100 h 0 = None ∧ Trace.formatSpan 100 h "" 0 0 = None)
    as H.
  { intros h s Hs Hin.
    destruct (self_child_recursion_never_returns h 0 s Hs Hin 100) as [H1 H2].
    by rewrite H1, H2. }
  split; [done|]. split; [apply list_elem_of_here|].
  eapply H; [done | apply list_elem_of_here].
Defined.

(** ** The store: lookups, [clear] *)

Section jsmap_get.
Context {V : Type}.
Implicit Types (m : list (string * V)) (k : string) (v : V).

Lemma get_set_ne m k k' v :
  k ≠ k' → JSMap.get (JSMap.set m k v) k' = JSMap.get m k'.
Proof.
  intros Hne. induction m as [|[k0 v0] m IH]; simpl.
  - by rewrite decide_False.
  - destruct (decide (k0 = k)) as [->|Hne0]; simpl.
    + by rewrite !decide_False.
    + destruct (decide (k0 = k')); [done | apply IH].
Qed.

Lemma get_elem_of m k v :
  NoDup (JSMap.keys m) → (k, v) ∈ m → JSMap.get m k = Some v.
Proof.
  unfold JSMap.keys. induction m as [|[k0 v0] m IH]; simpl.
  - by intros _ ?%elem_of_nil.
  - intros [Hnin Hnd]%NoDup_cons [[= -> ->]|Hin]%elem_of_cons.
    + by rewrite decide_True.
    + rewrite decide_False; [by apply IH|].
      intros ->. apply Hnin. apply list_elem_of_fmap. by exists (k, v).
Qed.

End jsmap_get.

(** X8.  What [store] does to the lookups, on a store reached by any
    [store] calls: the trace just stored is found under its identifier;
    every other key gives what it gave before, except the first key of a
    full store, which is gone when the identifier is new. *)
Theorem store_then_get
    (calls : list (list Trace.t * ref)) (st : TraceStorage.t)
    (th : list Trace.t) (tr : ref) (obj : Trace.t) :
  TraceStorage.run TraceStorage.new calls = Some st →
  th !! tr = Some obj →
  ∃ st',
    TraceStorage.store th st tr = Some st'
    ∧ TraceStorage.get st' (Trace.traceId obj) = Some tr
    ∧ ∀ k, k ≠ Trace.traceId obj →
        TraceStorage.get st' k
        = if decide (JSMap.first_key (TraceStorage.traces st) = Some k
                     ∧ JSMap.size (TraceStorage.traces st) = 1000%nat
                     ∧ Trace.traceId obj ∉ stored_keys st)
          then None else TraceStorage.get st k.
Proof.
  intros Hrun Hobj.
  destruct storage_new_ok as [Hok0 Hnd0].
  destruct (storage_run_ok calls _ _ Hok0 Hnd0 Hrun) as (Hok & Hnd & Hmax).
  simpl in Hmax.
  destruct (store_cases th st tr obj Hobj Hok) as (st' & E & _ & Hcase).
  exists st'. split; [done|]. unfold TraceStorage.get, JSMap.size, stored_keys in *.
  destruct Hcase as [[Hin ->] | [(Hnin & Hlt & ->) | (Hnin & Hfull & k0 & v0 & rest & E0 & ->)]].
  - split; [apply get_set_eq|]. intros k Hk.
    rewrite decide_False by (by intros (_ & _ & ?)). by apply get_set_ne.
  - rewrite <- (set_absent _ _ tr Hnin).
    split; [apply get_set_eq|]. intros k Hk.
    rewrite decide_False by (intros (_ & ? & _); lia). by apply get_set_ne.
  - rewrite E0 in *. apply not_elem_of_cons in Hnin as Hnin'.
    destruct Hnin' as [Hk0 Hrest]. rewrite <- (set_absent _ _ tr Hrest).
    split; [apply get_set_eq|]. intros k Hk. rewrite get_set_ne by done.
    unfold JSMap.first_key. simpl.
    apply NoDup_cons in Hnd as [Hk0nin _].
    destruct (decide (k0 = k)) as [->|Hne].
    + rewrite decide_True
        by (split_and!; [done | simpl in Hfull; lia | exact Hnin]).
      by apply get_None.
    + rewrite decide_False; [done|]. intros ([= ?] & _). done.
Qed.

Lemma store_then_get_witness :
  let th := demo_traces 3 in
  ∃ st st',
    TraceStorage.run TraceStorage.new (demo_calls th 2) = Some st
    ∧ th !! 2%nat = Some (demo_trace 2)
    ∧ TraceStorage.store th st 2%nat = Some st'
    ∧ TraceStorage.get st' "trace-1-0.2" = Some 2%nat
    ∧ TraceStorage.get st' "trace-1-0.0" = Some 0%nat
    ∧ TraceStorage.get st' "trace-1-0.7" = None.
Proof.
  intros th.
  destruct (TraceStorage.run TraceStorage.new (demo_calls th 2)) as [st|] eqn:E;
    [|by vm_compute in E].
  assert (th !! 2%nat = Some (demo_trace 2)) as Hobj by done.
  destruct (store_then_get _ st th 2%nat _ E Hobj) as (st' & Hst & Hget & Hother).
  exists st, st'. split_and!; try done.
  - rewrite Hother by done. vm_compute in E. injection E as <-. by vm_compute.
  - rewrite Hother by done. vm_compute in E. injection E as <-. by vm_compute.
Defined.

(** ** A client of the library *)

(** The method calls a client can make: on the tracer, on the traces it was
    handed or built itself, and on spans.  The calls that only read
    ([getTrace], [getSlowTraces], [getSpanTree], ...) change nothing and are
    left out.  A call through a reference that was never handed out is not
    a call a client can make: the step is [None]. *)
Inductive call :=
  | TracerStartTrace (name : string) (traceNow : Z) (traceRnd : string)
      (now idNow : Z) (rnd : string) (startNow : Z)
  | TracerStartSpan (name : string) (traceId : option string)
      (idNow : Z) (rnd : string) (startNow : Z)
  | TracerEndSpan (error : option Error) (now : Z)
  | TracerFinishTrace (traceId : string) (error : option Error) (now : Z)
      (stack : nat) (heapUsed : Z)
  | NewTrace (traceId rootSpanName : string)
      (now idNow : Z) (rnd : string) (startNow : Z)
  | TraceStartSpan (trace : ref) (name : string)
      (idNow : Z) (rnd : string) (startNow : Z)
  | TraceEndSpan (trace : ref) (error : option Error) (now : Z)
  | TraceFinish (trace : ref) (error : option Error) (now : Z)
  | OnSpan (o : Span.op).

(** A method of [Trace] called through a reference. *)
Definition on_trace (w : Heap) (trace : ref)
    (f : Span.heap → Trace.t → option (Span.heap * Trace.t)) : option Heap :=
  obj ← traces w !! trace;
  '(sh, obj') ← f (spans w) obj;
  Some {| spans := sh; traces := <[trace := obj']> (traces w) |}.

Definition client_step (st : Heap * Tracer.t) (c : call)
    : option (Heap * Tracer.t) :=
  let '(w, T) := st in
  match c with
  | TracerStartTrace name traceNow traceRnd now idNow rnd startNow =>
      Some (Tracer.startTrace w T name traceNow traceRnd now idNow rnd startNow).1
  | TracerStartSpan name traceId idNow rnd startNow =>
      '(w', _) ← Tracer.startSpan w T name traceId idNow rnd startNow;
      Some (w', T)
  | TracerEndSpan error now =>
      '(w', _) ← Tracer.endSpan w T error now; Some (w', T)
  | TracerFinishTrace traceId error now stack heapUsed =>
      '(w', T', _) ←
        Tracer.finishTrace w T traceId error now stack heapUsed;
      Some (w', T')
  | NewTrace traceId rootSpanName now idNow rnd startNow =>
      let '(sh, obj) :=
        Trace.new (spans w) traceId rootSpanName now idNow rnd startNow in
      Some ({| spans := sh; traces := traces w ++ [obj] |}, T)
  | TraceStartSpan trace name idNow rnd startNow =>
      w' ← on_trace w trace
             (λ h obj, fst <$> Trace.startSpan h obj name idNow rnd startNow);
      Some (w', T)
  | TraceEndSpan trace error now =>
      w' ← on_trace w trace (λ h obj, Trace.endSpan h obj error now);
      Some (w', T)
  | TraceFinish trace error now =>
      w' ← on_trace w trace (λ h obj, Some (h, Trace.finish obj error now));
      Some (w', T)
  | OnSpan o =>
      sh ← Span.step (spans w) o;
      Some ({| spans := sh; traces := traces w |}, T)
  end.

Fixpoint client_run (st : Heap * Tracer.t) (calls : list call)
    : option (Heap * Tracer.t) :=
  match calls with
  | [] => Some st
  | c :: calls => st' ← client_step st c; client_run st' calls
  end.

(** A program starts with [createTracer(config)] and nothing else. *)
Definition client_start (config : Tracer.TracerConfig) : Heap * Tracer.t :=
  ({| spans := []; traces := [] |}, Tracer.new config).

(** The spans a trace points to are allocated, and there is one at
    least. *)
Definition trace_ok (n : nat) (obj : Trace.t) : Prop :=
  (Trace.currentSpan obj < n)%nat
  ∧ (∀ r, r ∈ Trace.allSpans obj → (r < n)%nat)
  ∧ Trace.allSpans obj ≠ [].

(** [finish] has run on the trace. *)
Definition finished (obj : Trace.t) : Prop :=
  Trace.status obj ≠ Trace.running
  ∧ ∃ e, Trace.endTime obj = Some e
         ∧ Trace.duration obj = Some (e - Trace.startTime obj).

Record client_inv (w : Heap) (T : Tracer.t) : Prop := {
  ci_wf : tracer_wf w T;
  ci_traces : ∀ tr obj, traces w !! tr = Some obj →
      trace_ok (length (spans w)) obj;
  ci_stored : ∀ k tr, (k, tr) ∈ TraceStorage.traces (Tracer.storage T) →
      ∃ obj, traces w !! tr = Some obj ∧ Trace.traceId obj = k ∧ finished obj;
  ci_keys : NoDup (stored_keys (Tracer.storage T));
  ci_max : TraceStorage.maxTraces (Tracer.storage T) = 1000%nat;
}.

Lemma trace_ok_mono n n' obj : (n ≤ n')%nat → trace_ok n obj → trace_ok n' obj.
Proof.
  intros Hle (Hc & Hall & Hne). split_and!; [lia | | done].
  intros r Hr. specialize (Hall r Hr). lia.
Qed.

Lemma client_inv_start config :
  client_inv (client_start config).1 (client_start config).2.
Proof.
  split; simpl.
  - apply tracer_wf_new.
  - by intros tr obj ?.
  - by intros k tr ?%elem_of_nil.
  - constructor.
  - done.
Qed.

(** A change of the heap that leaves the tracer as it is, keeps the
    identifier of every trace, and does not undo [finish]. *)
Lemma client_inv_heap w T w' :
  client_inv w T →
  (∀ tr obj', traces w' !! tr = Some obj' →
     trace_ok (length (spans w')) obj') →
  (∀ tr obj, traces w !! tr = Some obj →
     ∃ obj', traces w' !! tr = Some obj'
             ∧ Trace.traceId obj' = Trace.traceId obj
             ∧ (finished obj → finished obj')) →
  client_inv w' T.
Proof.
  intros [[Ha Hk Hs] Ht Hst Hkeys Hmax] Hok Hkeep. split; [split|..]; try done.
  - intros k tr Hin. destruct (Ha k tr Hin) as (obj & Hobj & Hid).
    destruct (Hkeep tr obj Hobj) as (obj' & Hobj' & Hid' & _).
    exists obj'. split; [done | congruence].
  - intros k tr Hin. destruct (Hst k tr Hin) as (obj & Hobj & Hid & Hfin).
    destruct (Hkeep tr obj Hobj) as (obj' & Hobj' & Hid' & Hfin').
    exists obj'. split_and!; [done | congruence | by apply Hfin'].
Qed.

Lemma client_inv_on_trace w T trace f w' :
  client_inv w T →
  on_trace w trace f = Some w' →
  (∀ h obj h' obj', f h obj = Some (h', obj') →
     (length h ≤ length h')%nat
     ∧ Trace.traceId obj' = Trace.traceId obj
     ∧ (finished obj → finished obj')
     ∧ (trace_ok (length h) obj → trace_ok (length h') obj')) →
  client_inv w' T.
Proof.
  intros Hinv Hon Hf. unfold on_trace in Hon.
  destruct (traces w !! trace) as [obj|] eqn:Hobj; simpl in Hon; [|done].
  destruct (f (spans w) obj) as [[sh obj']|] eqn:E; simpl in Hon; [|done].
  injection Hon as <-.
  destruct (Hf _ _ _ _ E) as (Hlen & Hid & Hfin & Hok).
  pose proof (ci_traces _ _ Hinv) as Ht.
  apply (client_inv_heap w T); [done | |]; simpl.
  - intros tr o'. destruct (decide (trace = tr)) as [<-|Hne].
    + rewrite list_lookup_insert_eq by (by eapply lookup_lt_Some).
      intros [= <-]. by apply Hok, (Ht trace).
    + rewrite list_lookup_insert_ne by done. intros Ho.
      by eapply trace_ok_mono, (Ht tr).
  - intros tr o Ho. destruct (decide (trace = tr)) as [<-|Hne].
    + exists obj'. rewrite list_lookup_insert_eq by (by eapply lookup_lt_Some).
      assert (o = obj) as -> by congruence. done.
    + exists o. by rewrite list_lookup_insert_ne.
Qed.

Lemma trace_startSpan_shape h obj name idNow rnd startNow h' obj' span :
  Trace.startSpan h obj name idNow rnd startNow = Some (h', obj', span) →
  length h' = S (length h)
  ∧ span = length h
  ∧ obj' = Trace.with_cursor obj (Trace.allSpans obj ++ [length h]) (length h).
Proof.
  destruct (h !! Trace.currentSpan obj) as [cur|] eqn:Hc;
    [|unfold Trace.startSpan; by rewrite Hc].
  rewrite (startSpan_heap _ _ _ _ _ _ _ Hc). intros [= <- <- <-].
  by rewrite length_insert, length_app, Nat.add_1_r.
Qed.

Lemma trace_endSpan_shape h obj error now h' obj' :
  Trace.endSpan h obj error now = Some (h', obj') →
  length h' = length h
  ∧ Trace.allSpans obj' = Trace.allSpans obj
  ∧ (Trace.currentSpan obj' = Trace.currentSpan obj
     ∨ Trace.currentSpan obj' ∈ Trace.allSpans obj).
Proof.
  unfold Trace.endSpan, Span.update.
  destruct (h !! Trace.currentSpan obj) as [c|]; simpl; [|done].
  destruct (_ !! Trace.currentSpan obj) as [cur|]; simpl; [|done].
  destruct (truthy_string _);
    [|intros [= <- <-]; rewrite length_insert; by split_and!; [| |left]].
  destruct (_ ≫= _) as [parent|] eqn:E;
    intros [= <- <-]; rewrite length_insert;
    (split_and!; [done | done |]); [right | by left].
  destruct (Span.parentId cur) as [pid|]; simpl in E; [|done].
  by eapply find_by_id_elem_of in E as [? _].
Qed.

Lemma span_step_length h o h' :
  Span.step h o = Some h' → (length h ≤ length h')%nat.
Proof.
  destruct o; simpl; unfold Span.update.
  - intros [= <-]. rewrite length_app. lia.
  - destruct (h !! r); simpl; [|done]. intros [= <-]. by rewrite length_insert.
  - destruct (h !! r); simpl; [|done]. intros [= <-]. by rewrite length_insert.
  - destruct (h !! r); simpl; [|done]. intros [= <-]. by rewrite length_insert.
Qed.

Lemma store_elem_of th st tr st' e :
  TraceStorage.store th st tr = Some st' →
  e ∈ TraceStorage.traces st' →
  e ∈ TraceStorage.traces st
  ∨ ∃ obj, th !! tr = Some obj ∧ e = (Trace.traceId obj, tr).
Proof.
  unfold TraceStorage.store.
  destruct (th !! tr) as [obj|]; simpl; [|done].
  assert (e ∈ JSMap.set (TraceStorage.traces st) (Trace.traceId obj) tr →
          e ∈ TraceStorage.traces st
          ∨ ∃ obj0, Some obj = Some obj0 ∧ e = (Trace.traceId obj0, tr)) as Hset.
  { intros [->|He]%elem_of_set; [right; by exists obj | by left]. }
  case_decide; intros [= <-]; simpl; [|done].
  destruct (JSMap.first_key _); simpl; [|done].
  by intros ?%elem_of_delete%Hset.
Qed.

Lemma store_maxTraces th st tr st' :
  TraceStorage.store th st tr = Some st' →
  TraceStorage.maxTraces st' = TraceStorage.maxTraces st.
Proof.
  unfold TraceStorage.store. destruct (th !! tr); simpl; [|done].
  by case_decide; intros [= <-].
Qed.

Lemma finished_finish obj error now : finished (Trace.finish obj error now).
Proof.
  split; simpl; [by destruct error | by exists now].
Qed.

Lemma client_step_inv w T c w' T' :
  client_inv w T → client_step (w, T) c = Some (w', T') → client_inv w' T'.
Proof.
  intros Hinv. pose proof Hinv as [Hwf Ht Hst Hkeys Hmax].
  destruct c; simpl.
  - (* tracer.startTrace *)
    intros [= <- <-].
    pose proof (tracer_wf_startTrace w T name traceNow traceRnd now idNow rnd
                  startNow Hwf) as Hwf'.
    split; [done|..]; unfold Tracer.startTrace, Trace.new, Span.alloc in *;
      simpl in *; try done.
    + intros tr obj [Ho|[_ Ho]]%lookup_app_Some.
      * eapply trace_ok_mono, Ht; [|done]. rewrite length_app. lia.
      * apply list_lookup_singleton_Some in Ho as [_ <-].
        rewrite length_app. split_and!; simpl; [lia | | done].
        intros r ->%list_elem_of_singleton. lia.
    + intros k tr Hin. destruct (Hst k tr Hin) as (obj & Ho & ?).
      exists obj. split; [|done]. by apply lookup_app_l_Some.
  - (* tracer.startSpan *)
    unfold Tracer.startSpan.
    destruct (if truthy_string traceId then _ else _) as [trace|];
      [|by intros [= <- <-]].
    intros Hon.
    destruct (traces w !! trace) as [obj0|] eqn:Hobj; simpl in Hon; [|done].
    destruct (Trace.startSpan _ _ _ _ _ _) as [[[sh0 obj0'] span0]|] eqn:E0;
      simpl in Hon; [|done].
    injection Hon as <- <-.
    apply (client_inv_on_trace w T trace
             (λ h obj, fst <$> Trace.startSpan h obj name idNow rnd startNow));
      [done | |].
    + unfold on_trace. rewrite Hobj. simpl. by rewrite E0.
    + intros h obj h' obj'.
      destruct (Trace.startSpan h obj name idNow rnd startNow)
      as [[[sh o'] span]|] eqn:E;
        simpl; [|done].
      intros [= <- <-].
      apply trace_startSpan_shape in E as (Hlen & _ & ->). rewrite Hlen.
      split_and!; [lia | done | done |].
      intros (Hc & Hall & _).
      split_and!; simpl; [lia | | by destruct (Trace.allSpans obj)].
      intros r [Hr| ->%list_elem_of_singleton]%elem_of_app; [|lia].
      specialize (Hall r Hr). lia.
  - (* tracer.endSpan *)
    unfold Tracer.endSpan.
    destruct (Tracer.first_active T) as [trace|]; [|by intros [= <- <-]].
    intros Hon.
    destruct (traces w !! trace) as [obj0|] eqn:Hobj; simpl in Hon; [|done].
    destruct (Trace.endSpan _ _ _ _) as [[sh0 obj0']|] eqn:E0;
      simpl in Hon; [|done].
    injection Hon as <- <-.
    apply (client_inv_on_trace w T trace
             (λ h obj, Trace.endSpan h obj error now)); [done | |].
    + unfold on_trace. rewrite Hobj. simpl. by rewrite E0.
    + intros h obj h' obj' E.
      destruct (endSpan_trace_fields _ _ _ _ _ _ E) as (Hid & Hs & He & Hd & Hstat).
      destruct (trace_endSpan_shape _ _ _ _ _ _ E) as (Hlen & Hall & Hcur).
      rewrite Hlen. split_and!; [done | done | |].
      * unfold finished. by rewrite Hs, He, Hd, Hstat.
      * intros (Hc & Ha & Hne). unfold trace_ok. rewrite Hall.
        split_and!; [|done..].
        destruct Hcur as [-> | Hin]; [done | by apply Ha].
  - (* tracer.finishTrace *)
    intros Hfin.
    destruct (Tracer.finishTrace w T traceId error now stack heapUsed)
      as [[[w1 T1] res]|] eqn:E; simpl in Hfin; [|done].
    injection Hfin as <- <-.
    pose proof (tracer_wf_finishTrace _ _ _ _ _ _ _ _ _ _ Hwf E) as Hwf'.
    unfold Tracer.finishTrace in E.
    destruct (JSMap.get _ traceId) as [trace|]; [|by injection E as <- <- _].
    destruct (traces w !! trace) as [obj|] eqn:Hobj;
      cbn [mbind option_bind] in E; [|done].
    destruct (TraceStorage.store _ _ trace) as [storage'|] eqn:Hstore;
      cbn [mbind option_bind] in E; [|done].
    destruct (Tracer.exportTrace _ _ trace stack heapUsed) as [exported|];
      cbn [mbind option_bind] in E; [|done].
    injection E as <- <- _.
    assert (Hlt : (trace < length (traces w))%nat) by (by eapply lookup_lt_Some).
    split; [done|..]; simpl.
    + intros tr o. destruct (decide (trace = tr)) as [<-|Hne].
      * rewrite list_lookup_insert_eq by done. intros [= <-].
        exact (Ht trace obj Hobj).
      * rewrite list_lookup_insert_ne by done. apply Ht.
    + intros k tr Hin.
      destruct (store_elem_of _ _ _ _ _ Hstore Hin) as [Hold | (o & Ho & [= -> ->])].
      * destruct (Hst k tr Hold) as (o & Ho & Hid & Hfin).
        destruct (decide (trace = tr)) as [<-|Hne].
        -- exists (Trace.finish obj error now).
           rewrite list_lookup_insert_eq by done.
           split_and!; [done | simpl; congruence | apply finished_finish].
        -- exists o. by rewrite list_lookup_insert_ne.
      * cbn [traces] in Ho.
        rewrite list_lookup_insert_eq in Ho by done. injection Ho as <-.
        exists (Trace.finish obj error now).
        rewrite list_lookup_insert_eq by done.
        split_and!; [done | done | apply finished_finish].
    + by eapply store_keys_NoDup.
    + by rewrite (store_maxTraces _ _ _ _ Hstore).
  - (* new Trace *)
    unfold Trace.new, Span.alloc. simpl. intros [= <- <-].
    apply (client_inv_heap w T); [done | |]; simpl.
    + intros tr obj [Ho|[_ Ho]]%lookup_app_Some.
      * eapply trace_ok_mono, Ht; [|done]. rewrite length_app. lia.
      * apply list_lookup_singleton_Some in Ho as [_ <-].
        rewrite length_app. split_and!; simpl; [lia | | done].
        intros r ->%list_elem_of_singleton. lia.
    + intros tr obj Ho. exists obj. split; [|done]. by apply lookup_app_l_Some.
  - (* trace.startSpan *)
    destruct (on_trace w trace _) as [w1|] eqn:Hon; simpl; [|done].
    intros [= <- <-]. eapply client_inv_on_trace; [done | exact Hon |].
    intros h obj h' obj'. cbv beta.
    destruct (Trace.startSpan h obj name idNow rnd startNow)
      as [[[sh o'] span]|] eqn:E;
      simpl; [|done].
    intros [= <- <-].
    apply trace_startSpan_shape in E as (Hlen & _ & ->). rewrite Hlen.
    split_and!; [lia | done | done |].
    intros (Hc & Hall & _).
    split_and!; simpl; [lia | | by destruct (Trace.allSpans obj)].
    intros r [Hr| ->%list_elem_of_singleton]%elem_of_app; [|lia].
    specialize (Hall r Hr). lia.
  - (* trace.endSpan *)
    destruct (on_trace w trace _) as [w1|] eqn:Hon; simpl; [|done].
    intros [= <- <-]. eapply client_inv_on_trace; [done | exact Hon |].
    intros h obj h' obj' E. cbv beta in E.
    destruct (endSpan_trace_fields _ _ _ _ _ _ E) as (Hid & Hs & He & Hd & Hstat).
    destruct (trace_endSpan_shape _ _ _ _ _ _ E) as (Hlen & Hall & Hcur).
    rewrite Hlen. split_and!; [done | done | |].
    + unfold finished. by rewrite Hs, He, Hd, Hstat.
    + intros (Hc & Ha & Hne). unfold trace_ok. rewrite Hall.
        split_and!; [|done..].
      destruct Hcur as [-> | Hin]; [done | by apply Ha].
  - (* trace.finish *)
    destruct (on_trace w trace _) as [w1|] eqn:Hon; simpl; [|done].
    intros [= <- <-]. eapply client_inv_on_trace; [done | exact Hon |].
    cbv beta. intros h obj h' obj' [= <- <-].
    split_and!; [done | done | intros _; apply finished_finish | done].
  - (* a method of Span *)
    destruct (Span.step (spans w) o) as [sh|] eqn:E; simpl; [|done].
    intros [= <- <-]. apply span_step_length in E.
    apply (client_inv_heap w T); [done | |]; simpl.
    + intros tr obj Ho. by eapply trace_ok_mono, Ht.
    + intros tr obj Ho. by exists obj.
Qed.

Lemma client_run_inv calls : ∀ w T w' T',
  client_inv w T → client_run (w, T) calls = Some (w', T') → client_inv w' T'.
Proof.
  induction calls as [|c calls IH]; intros w T w' T' Hinv.
  - by intros [= <- <-].
  - change (client_run (w, T) (c :: calls))
      with (client_step (w, T) c ≫= λ st', client_run st' calls).
    destruct (client_step (w, T) c) as [[w1 T1]|] eqn:E; [|done].
    apply IH. by eapply client_step_inv.
Qed.

Lemma client_reachable_inv config calls w T :
  client_run (client_start config) calls = Some (w, T) → client_inv w T.
Proof.
  apply client_run_inv, client_inv_start.
Qed.

(** A session: one request traced with one nested operation, then
    finished. *)
Definition demo_session : list call :=
  [ TracerStartTrace "GET /users/123" 1 "0.5" 10 11 "0.25" 12;
    TracerStartSpan "database_query" None 20 "0.75" 21;
    TracerEndSpan None 30;
    TracerFinishTrace "trace-1-0.5" None 40 100 1048576 ].

(** X9.  Whatever methods a client calls, on the tracer and on the traces
    and spans it holds, a trace found by [getTrace] has been finished: it is
    filed under its own identifier, its status is no longer ['running'], and
    its duration is its end time minus its start time. *)
Theorem stored_traces_are_finished
    (config : Tracer.TracerConfig) (calls : list call)
    (w : Heap) (T : Tracer.t) :
  client_run (client_start config) calls = Some (w, T) →
  ∀ k tr, Tracer.getTrace T k = Some tr →
    ∃ obj e,
      traces w !! tr = Some obj
      ∧ Trace.traceId obj = k
      ∧ Trace.status obj ≠ Trace.running
      ∧ Trace.endTime obj = Some e
      ∧ Trace.duration obj = Some (e - Trace.startTime obj).
Proof.
  intros Hrun k tr Hget.
  pose proof (client_reachable_inv _ _ _ _ Hrun) as Hinv.
  apply get_Some_elem_of in Hget.
  destruct (ci_stored _ _ Hinv k tr Hget) as (obj & Hobj & Hid & Hrunning & e & He & Hd).
  by exists obj, e.
Qed.

Lemma stored_traces_witness :
  ∃ w T obj,
    client_run (client_start demo_config) demo_session = Some (w, T)
    ∧ Tracer.getTrace T "trace-1-0.5" = Some 0%nat
    ∧ traces w !! 0%nat = Some obj
    ∧ Trace.traceId obj = "trace-1-0.5"
    ∧ Trace.status obj ≠ Trace.running.
Proof.
  destruct (client_run (client_start demo_config) demo_session)
    as [[w T]|] eqn:E; [|by vm_compute in E].
  assert (Tracer.getTrace T "trace-1-0.5" = Some 0%nat) as Hget.
  { vm_compute in E. injection E as <- <-. by vm_compute. }
  destruct (stored_traces_are_finished _ _ _ _ E _ _ Hget)
    as (obj & e & Hobj & Hid & Hst & _).
  by exists w, T, obj.
Defined.

Lemma first_active_elem_of T tr :
  Tracer.first_active T = Some tr → ∃ k, (k, tr) ∈ Tracer.activeTraces T.
Proof.
  unfold Tracer.first_active, JSMap.values.
  destruct (Tracer.activeTraces T) as [|[k v] m]; simpl; [done|].
  intros [= ->]. exists k. apply list_elem_of_here.
Qed.

Lemma trace_endSpan_is_Some h obj error now :
  (Trace.currentSpan obj < length h)%nat →
  is_Some (Trace.endSpan h obj error now).
Proof.
  intros Hc. destruct (lookup_lt_is_Some_2 h _ Hc) as [c Hcur].
  unfold Trace.endSpan, Span.update. rewrite Hcur. simpl.
  rewrite list_lookup_insert_eq by done. simpl.
  destruct (truthy_string _); [|by eexists].
  destruct (_ ≫= _); by eexists.
Qed.

Lemma analyzeTrace_is_Some h obj heapUsed :
  trace_ok (length h) obj →
  is_Some (MetricsCollector.analyzeTrace h obj heapUsed).
Proof.
  intros (_ & Halloc & Hne).
  destruct (mapM_is_Some_2 (λ r, h !! r) (Trace.allSpans obj)) as [all Hm].
  { apply Forall_forall. intros r Hr. apply lookup_lt_is_Some_2. by apply Halloc. }
  pose proof (length_mapM _ _ _ Hm) as Hlen.
  unfold MetricsCollector.analyzeTrace. rewrite Hm. cbn [mbind option_bind].
  destruct all as [|s0 all']; [destruct (Trace.allSpans obj); done|].
  by eexists.
Qed.

(** X10.  In any state a client can reach, the three methods of the tracer
    that can fail end in one of these ways.  [startSpan] and [endSpan]
    return, or throw ['No active trace'] and leave everything as it was.
    [finishTrace] returns, or throws ['Trace not found'] and leaves
    everything as it was, or, the identifier being active, throws the
    [RangeError] of a [visualize] that does not return within the stack,
    after the trace has been finished, stored and taken from the active
    traces.  They never read a trace or a span that is not there. *)
Theorem tracer_methods_return_or_throw
    (config : Tracer.TracerConfig) (calls : list call)
    (w : Heap) (T : Tracer.t) :
  client_run (client_start config) calls = Some (w, T) →
  (∀ name traceId idNow rnd startNow,
     ∃ w' res,
       Tracer.startSpan w T name traceId idNow rnd startNow = Some (w', res)
       ∧ ∀ e, res = Throw e →
           w' = w ∧ e = {| message := "No active trace" |})
  ∧ (∀ error now,
       ∃ w' res,
         Tracer.endSpan w T error now = Some (w', res)
         ∧ ∀ e, res = Throw e →
             w' = w ∧ e = {| message := "No active trace" |})
  ∧ (∀ traceId error now stack heapUsed,
       ∃ w' T' res,
         Tracer.finishTrace w T traceId error now stack heapUsed
         = Some (w', T', res)
         ∧ ∀ e, res = Throw e →
             (JSMap.get (Tracer.activeTraces T) traceId = None
              ∧ e = {| message := "Trace not found: " +:+ traceId |}
              ∧ w' = w ∧ T' = T)
             ∨ (e = Tracer.stack_overflow
                ∧ ∃ tr obj',
                    JSMap.get (Tracer.activeTraces T) traceId = Some tr
                    ∧ Tracer.getTrace T' traceId = Some tr
                    ∧ JSMap.get (Tracer.activeTraces T') traceId = None
                    ∧ traces w' !! tr = Some obj'
                    ∧ Trace.status obj' ≠ Trace.running
                    ∧ Trace.endTime obj' = Some now
                    ∧ Trace.visualize stack (spans w') obj' = None)).
Proof.
  intros Hrun. pose proof (client_reachable_inv _ _ _ _ Hrun) as Hinv.
  pose proof Hinv as [Hwf Ht _ _ _]. pose proof Hwf as [Ha Hk _].
  split_and!.
  - intros name traceId idNow rnd startNow. unfold Tracer.startSpan.
    destruct (if truthy_string traceId then _ else _) as [trace|] eqn:Hsel;
      [|eexists _, _; split; [done|]; by intros e [= <-]].
    assert (∃ k, (k, trace) ∈ Tracer.activeTraces T) as [k Hin].
    { destruct (truthy_string traceId).
      - destruct traceId as [id|]; simpl in Hsel; [|done].
        exists id. by apply get_Some_elem_of.
      - by apply first_active_elem_of. }
    destruct (Ha k trace Hin) as (obj & Hobj & _). rewrite Hobj. simpl.
    destruct (Ht trace obj Hobj) as (Hc & _).
    destruct (lookup_lt_is_Some_2 _ _ Hc) as [cur Hcur].
    rewrite (startSpan_heap _ _ _ _ _ _ _ Hcur). simpl.
    eexists _, _. split; [done|]. by intros e ?.
  - intros error now. unfold Tracer.endSpan.
    destruct (Tracer.first_active T) as [trace|] eqn:Hsel;
      [|eexists _, _; split; [done|]; by intros e [= <-]].
    destruct (first_active_elem_of _ _ Hsel) as [k Hin].
    destruct (Ha k trace Hin) as (obj & Hobj & _). rewrite Hobj. simpl.
    destruct (Ht trace obj Hobj) as (Hc & _).
    destruct (trace_endSpan_is_Some (spans w) obj error now Hc) as [[sh obj'] ->].
    simpl. eexists _, _. split; [done|]. by intros e ?.
  - intros traceId error now stack heapUsed.
    pose proof (finishTrace_spec w T traceId error now stack heapUsed Hwf) as H.
    destruct (JSMap.get (Tracer.activeTraces T) traceId) as [tr|].
    + destruct H as (obj & storage' & exported & Hobj & _ & _ & _ & Hget
                     & _ & Hcases & ->).
      eexists _, _, _. split; [done|]. intros e He. right.
      destruct Hcases as [-> | [[-> Hv] | [-> Hm]]]; [done | |].
      * injection He as <-. split; [done|].
        exists tr, (Trace.finish obj error now).
        split_and!; [done | done | by apply get_delete_eq | | | done | done].
        -- apply list_lookup_insert_eq. by eapply lookup_lt_Some.
        -- by destruct error.
      * destruct (analyzeTrace_is_Some (spans w) (Trace.finish obj error now)
                    heapUsed (Ht tr obj Hobj)) as [m Hm'].
        congruence.
    + rewrite H. eexists _, _, _. split; [done|]. intros e [= <-]. by left.
Qed.

Lemma tracer_methods_witness :
  ∃ w T,
    client_run (client_start demo_config) demo_session = Some (w, T)
    ∧ Tracer.startSpan w T "late" None 50 "0.1" 51
      = Some (w, Throw {| message := "No active trace" |})
    ∧ Tracer.endSpan w T None 60
      = Some (w, Throw {| message := "No active trace" |})
    ∧ Tracer.finishTrace w T "trace-1-0.5" None 70 100 1048576
      = Some (w, T, Throw {| message := "Trace not found: trace-1-0.5" |}).
Proof.
  destruct (client_run (client_start demo_config) demo_session)
    as [[w T]|] eqn:E; [|by vm_compute in E].
  destruct (tracer_methods_return_or_throw _ _ _ _ E) as (_ & _ & _).
  vm_compute in E. injection E as <- <-. by eexists _, _.
Defined.

(** The same with the root span made its own child before the trace is
    finished: [finishTrace] throws on an active identifier, the trace being
    stored. *)
Example tracer_finishTrace_overflow :
  ∃ w T w' T',
    client_run (client_start demo_config)
      [TracerStartTrace "GET /users/123" 1 "0.5" 10 11 "0.25" 12;
       OnSpan (Span.AddChild 0 0)] = Some (w, T)
    ∧ Tracer.finishTrace w T "trace-1-0.5" None 40 100 1048576
      = Some (w', T', Throw Tracer.stack_overflow)
    ∧ Tracer.getTrace T' "trace-1-0.5" = Some 0%nat
    ∧ Tracer.activeTraces T' = [].
Proof.
  eexists _, _, _, _. split; [by vm_compute|]. split; [by vm_compute|].
  split; by vm_compute.
Qed.

Lemma values_elem_of {V} (m : list (string * V)) v :
  v ∈ JSMap.values m ↔ ∃ k, (k, v) ∈ m.
Proof.
  unfold JSMap.values. rewrite list_elem_of_fmap. split.
  - intros ([k v'] & -> & Hin). by exists k.
  - intros [k Hin]. by exists (k, v).
Qed.

(** X11.  For the traces of a tracer, however it was used, [getSlowTraces]
    gives exactly the stored traces whose duration is over the threshold
    (1000 when none is given), each once: no stored trace lacks a
    duration. *)
Theorem tracer_slow_traces
    (config : Tracer.TracerConfig) (calls : list call)
    (w : Heap) (T : Tracer.t) (threshold : option Z) :
  client_run (client_start config) calls = Some (w, T) →
  (∀ tr,
     tr ∈ Tracer.getSlowTraces w T threshold
     ↔ ∃ k obj e,
         Tracer.getTrace T k = Some tr
         ∧ traces w !! tr = Some obj
         ∧ Trace.endTime obj = Some e
         ∧ default 1000 threshold < e - Trace.startTime obj)
  ∧ NoDup (Tracer.getSlowTraces w T threshold).
Proof.
  intros Hrun. pose proof (client_reachable_inv _ _ _ _ Hrun) as Hinv.
  pose proof Hinv as [_ _ Hst Hkeys _].
  unfold Tracer.getSlowTraces, TraceStorage.getSlowTraces, Tracer.getTrace,
    TraceStorage.get.
  split.
  - intros tr. rewrite list_elem_of_filter, values_elem_of. split.
    + intros [Hslow [k Hin]].
      destruct (Hst k tr Hin) as (obj & Hobj & _ & _ & e & He & Hd).
      exists k, obj, e. split_and!; [by apply get_elem_of | done | done |].
      rewrite Hobj in Hslow. simpl in Hslow. rewrite Hd in Hslow.
      by rewrite or0_Some in Hslow.
    + intros (k & obj & e & Hget & Hobj & He & Hslow).
      apply get_Some_elem_of in Hget.
      split; [|by exists k].
      destruct (Hst k tr Hget) as (obj' & Hobj' & _ & _ & e' & He' & Hd).
      assert (obj' = obj) as -> by congruence.
      rewrite Hobj. simpl. rewrite Hd, or0_Some. congruence.
  - apply NoDup_filter. unfold JSMap.values.
    apply NoDup_fmap_2_strong; [|by eapply NoDup_fmap_1].
    intros [k1 tr1] [k2 tr2] H1 H2. simpl. intros <-.
    destruct (Hst k1 tr1 H1) as (o1 & Ho1 & <- & _).
    destruct (Hst k2 tr1 H2) as (o2 & Ho2 & <- & _).
    congruence.
Qed.

Lemma tracer_slow_traces_witness :
  ∃ w T,
    client_run (client_start demo_config) demo_session = Some (w, T)
    ∧ 0%nat ∈ Tracer.getSlowTraces w T (Some 20)
    ∧ (0%nat ∉ Tracer.getSlowTraces w T (Some 30))
    ∧ NoDup (Tracer.getSlowTraces w T None).
Proof.
  destruct (client_run (client_start demo_config) demo_session)
    as [[w T]|] eqn:E; [|by vm_compute in E].
  exists w, T. split; [done|].
  destruct (tracer_slow_traces _ _ _ _ (Some 20) E) as [H20 _].
  destruct (tracer_slow_traces _ _ _ _ (Some 30) E) as [H30 _].
  destruct (tracer_slow_traces _ _ _ _ None E) as [_ Hnd].
  split_and!; [| |done].
  - apply H20. vm_compute in E. injection E as <- <-.
    eexists "trace-1-0.5", _, 40. split_and!; [by vm_compute.. | simpl; lia].
  - intros (k & obj & e & _ & Hobj & He & Hslow)%H30.
    vm_compute in E. injection E as <- <-.
    injection Hobj as <-. injection He as <-. simpl in Hslow. lia.
Defined.



Lemma visualize_leaf stack h t s :
  h !! Trace.rootSpan t = Some s → Span.children s = [] →
  is_Some (Trace.visualize (S stack) h t).
Proof.
  intros Hs Hc. unfold Trace.visualize. simpl. rewrite Hs. simpl. rewrite Hc.
  by eexists.
Qed.

(** X13.  [startTrace] followed by [finishTrace] with the identifier that
    was made, the stack allowing one call at least: [finishTrace] returns
    the trace, which leaves the active traces and is found by [getTrace];
    its times are the two clock readings, its status follows the error, and
    its only span, the root, is still ['started']. *)
Theorem startTrace_then_finishTrace
    (config : Tracer.TracerConfig) (calls : list call)
    (w : Heap) (T : Tracer.t) (name : string)
    (traceNow : Z) (traceRnd : string) (now idNow : Z) (rnd : string)
    (startNow : Z) (error : option Error) (now' : Z)
    (stack : nat) (heapUsed : Z) :
  client_run (client_start config) calls = Some (w, T) →
  let id := Tracer.make_id traceNow traceRnd in
  let st1 :=
    Tracer.startTrace w T name traceNow traceRnd now idNow rnd startNow in
  ∃ w2 T2 obj root,
    Tracer.finishTrace st1.1.1 st1.1.2 id error now' (S stack) heapUsed
    = Some (w2, T2, Normal st1.2)
    ∧ Tracer.getTrace T2 id = Some st1.2
    ∧ JSMap.get (Tracer.activeTraces T2) id = None
    ∧ traces w2 !! st1.2 = Some obj
    ∧ Trace.traceId obj = id
    ∧ Trace.startTime obj = now
    ∧ Trace.endTime obj = Some now'
    ∧ Trace.duration obj = Some (now' - now)
    ∧ Trace.status obj
      = match error with Some _ => Trace.failed | None => Trace.completed end
    ∧ Trace.allSpans obj = [Trace.rootSpan obj]
    ∧ spans w2 !! Trace.rootSpan obj = Some root
    ∧ root = Span.new id name None idNow rnd startNow.
Proof.
  intros Hrun id st1. pose proof (client_reachable_inv _ _ _ _ Hrun) as Hinv.
  pose proof Hinv as [Hwf _ _ _ _].
  pose proof (tracer_wf_startTrace w T name traceNow traceRnd now idNow rnd
                startNow Hwf) as Hwf1.
  fold st1 in Hwf1. pose proof Hwf1 as [_ Hk1 _].
  pose proof (finishTrace_spec st1.1.1 st1.1.2 id error now' (S stack)
                heapUsed Hwf1) as H.
  assert (JSMap.get (Tracer.activeTraces st1.1.2) id = Some st1.2) as Hget
    by apply get_set_eq.
  rewrite Hget in H.
  destruct H as (obj & storage' & exported & Hobj & _ & _ & _ & Hfound
                 & _ & Hcases & E).
  rewrite E.
  assert (obj = (Trace.new (spans w) id name now idNow rnd startNow).2) as ->.
  { unfold st1, Tracer.startTrace, Trace.new, Span.alloc in Hobj. simpl in Hobj.
    rewrite lookup_app_r, Nat.sub_diag in Hobj by done. by injection Hobj as <-. }
  assert (spans st1.1.1 !! length (spans w)
          = Some (Span.new id name None idNow rnd startNow)) as Hroot.
  { unfold st1, Tracer.startTrace, Trace.new, Span.alloc. simpl.
    by rewrite lookup_app_r, Nat.sub_diag. }
  assert (exported = Normal ()) as ->.
  { destruct Hcases as [-> | [[_ Hv] | [_ Hm]]]; [done | exfalso..].
    - destruct (visualize_leaf stack (spans st1.1.1)
                  (Trace.finish
                     (Trace.new (spans w) id name now idNow rnd startNow).2
                     error now')
                  _ Hroot eq_refl) as [out Hout].
      congruence.
    - destruct (analyzeTrace_is_Some (spans st1.1.1)
                  (Trace.finish
                     (Trace.new (spans w) id name now idNow rnd startNow).2
                     error now') heapUsed) as [m Hm']; [|congruence].
      split_and!; simpl; [| |done].
      + by eapply lookup_lt_Some.
      + intros r ->%list_elem_of_singleton. by eapply lookup_lt_Some. }
  eexists _, _,
    (Trace.finish (Trace.new (spans w) id name now idNow rnd startNow).2
                  error now'),
    (Span.new id name None idNow rnd startNow).
  split; [done|].
  split_and!; [exact Hfound | by apply get_delete_eq | | done..| | done].
  - apply list_lookup_insert_eq. by eapply lookup_lt_Some.
  - exact Hroot.
Qed.

Lemma startTrace_then_finishTrace_witness :
  ∃ w T w2 T2,
    client_run (client_start demo_config) demo_session = Some (w, T)
    ∧ Tracer.finishTrace
        (Tracer.startTrace w T "POST /orders" 2 "0.9" 100 101 "0.3" 102).1.1
        (Tracer.startTrace w T "POST /orders" 2 "0.9" 100 101 "0.3" 102).1.2
        "trace-2-0.9" (Some {| message := "boom" |}) 250 100 1048576
      = Some (w2, T2, Normal 1%nat)
    ∧ Tracer.getTrace T2 "trace-2-0.9" = Some 1%nat
    ∧ (Trace.status <$> traces w2 !! 1%nat) = Some Trace.failed.
Proof.
  destruct (client_run (client_start demo_config) demo_session)
    as [[w T]|] eqn:E; [|by vm_compute in E].
  destruct (startTrace_then_finishTrace _ _ _ _ "POST /orders" 2 "0.9" 100 101
              "0.3" 102 (Some {| message := "boom" |}) 250 99 1048576 E)
    as (w2 & T2 & obj & root & Hfin & Hget & _ & Hobj & _ & _ & _ & _ & Hst & _).
  pose proof E as E'. vm_compute in E'. injection E' as <- <-.
  eexists _, _, w2, T2. split; [exact E|].
  split_and!; [exact Hfin | exact Hget |].
  change (Trace.status <$> traces w2 !! 1%nat = Some Trace.failed).
  change (traces w2 !! 1%nat = Some obj) in Hobj. by rewrite Hobj, <- Hst.
Defined.

(** X14.  [tracer.startSpan(name, id)] with a non-empty identifier: when no
    active trace has it the call throws and changes nothing; otherwise the
    span is made in that trace, carries the identifier as its [traceId] and
    the identifier of the trace's current span as its [parentId], becomes
    the last child of that span and the trace's current span, and every
    other trace and span is as before. *)
Theorem tracer_startSpan_by_id
    (config : Tracer.TracerConfig) (calls : list call)
    (w : Heap) (T : Tracer.t) (name id : string)
    (idNow : Z) (rnd : string) (startNow : Z) :
  client_run (client_start config) calls = Some (w, T) →
  id ≠ "" →
  match JSMap.get (Tracer.activeTraces T) id with
  | None =>
      Tracer.startSpan w T name (Some id) idNow rnd startNow
      = Some (w, Throw {| message := "No active trace" |})
  | Some tr =>
      ∃ obj cur w',
        let span := length (spans w) in
        traces w !! tr = Some obj
        ∧ spans w !! Trace.currentSpan obj = Some cur
        ∧ Tracer.startSpan w T name (Some id) idNow rnd startNow
          = Some (w', Normal span)
        ∧ spans w' !! span
          = Some (Span.new id name (Some (Span.id cur)) idNow rnd startNow)
        ∧ spans w' !! Trace.currentSpan obj = Some (Span.addChild cur span)
        ∧ (∀ r, r ≠ span → r ≠ Trace.currentSpan obj →
             spans w' !! r = spans w !! r)
        ∧ traces w' !! tr
          = Some (Trace.with_cursor obj (Trace.allSpans obj ++ [span]) span)
        ∧ (∀ tr', tr' ≠ tr → traces w' !! tr' = traces w !! tr')
  end.
Proof.
  intros Hrun Hne. pose proof (client_reachable_inv _ _ _ _ Hrun) as Hinv.
  pose proof Hinv as [Hwf Ht _ _ _]. pose proof Hwf as [Ha _ _].
  unfold Tracer.startSpan. rewrite truthy_string_Some by done.
  change (Some id ≫= JSMap.get (Tracer.activeTraces T))
    with (JSMap.get (Tracer.activeTraces T) id).
  destruct (JSMap.get (Tracer.activeTraces T) id) as [tr|] eqn:Hget; [|done].
  destruct (Ha id tr (get_Some_elem_of _ _ _ Hget)) as (obj & Hobj & Hid).
  destruct (Ht tr obj Hobj) as (Hc & _).
  destruct (lookup_lt_is_Some_2 _ _ Hc) as [cur Hcur].
  exists obj, cur. rewrite Hobj. simpl.
  rewrite (startSpan_heap _ _ _ _ _ _ _ Hcur). simpl. rewrite Hid.
  eexists. split_and!; [done | done | done | ..]; simpl.
  - rewrite list_lookup_insert_ne by lia. by rewrite lookup_app_r, Nat.sub_diag.
  - apply list_lookup_insert_eq. rewrite length_app. simpl. lia.
  - intros r Hr1 Hr2. rewrite list_lookup_insert_ne by done.
    destruct (decide (r < length (spans w))%nat).
    + by rewrite lookup_app_l.
    + rewrite !lookup_ge_None_2; [done | lia |]. rewrite length_app. simpl. lia.
  - apply list_lookup_insert_eq. by eapply lookup_lt_Some.
  - intros tr' Hne'. by rewrite list_lookup_insert_ne.
Qed.

(** Two requests in flight: a span is started in the second one by its
    identifier, and then [endSpan] is called. *)
Definition demo_two_traces : list call :=
  [ TracerStartTrace "GET /users/123" 1 "0.5" 10 11 "0.25" 12;
    TracerStartTrace "POST /orders" 2 "0.9" 20 21 "0.3" 22;
    TracerStartSpan "database_query" (Some "trace-2-0.9") 30 "0.75" 31 ].

Lemma tracer_startSpan_witness :
  ∃ w T w',
    client_run (client_start demo_config) (take 2 demo_two_traces) = Some (w, T)
    ∧ Tracer.startSpan w T "database_query" (Some "trace-2-0.9") 30 "0.75" 31
      = Some (w', Normal 2%nat)
    ∧ (Span.traceId <$> spans w' !! 2%nat) = Some "trace-2-0.9"
    ∧ (Span.parentId <$> spans w' !! 2%nat) = Some (Some "span-21-0.3").
Proof.
  destruct (client_run (client_start demo_config) (take 2 demo_two_traces))
    as [[w T]|] eqn:E; [|by vm_compute in E].
  assert ("trace-2-0.9" ≠ "") as Hne by done.
  pose proof (tracer_startSpan_by_id _ _ _ _ "database_query" _ 30 "0.75" 31
                E Hne) as H.
  pose proof E as E'. vm_compute in E'. injection E' as <- <-.
  destruct (JSMap.get _ "trace-2-0.9") as [tr|] eqn:Hget; [|by vm_compute in Hget].
  destruct H as (obj & cur & w' & Hobj & Hcur & Hstart & Hnew & _).
  assert (tr = 1%nat) as -> by (vm_compute in Hget; congruence).
  injection Hobj as <-. injection Hcur as <-.
  eexists _, _, w'. split; [exact E|]. split; [exact Hstart|].
  change (length (spans _)) with 2%nat in Hnew. by rewrite Hnew.
Defined.

(** X15.  [tracer.endSpan] takes no identifier: it ends the current span
    of the first active trace, whichever trace the last span was started
    in, and moves only that trace's cursor; with no active trace it throws
    and changes nothing. *)
Theorem tracer_endSpan_first_active
    (config : Tracer.TracerConfig) (calls : list call)
    (w : Heap) (T : Tracer.t) (error : option Error) (now : Z) :
  client_run (client_start config) calls = Some (w, T) →
  match Tracer.first_active T with
  | None =>
      Tracer.endSpan w T error now
      = Some (w, Throw {| message := "No active trace" |})
  | Some tr =>
      ∃ obj cur w' obj',
        traces w !! tr = Some obj
        ∧ spans w !! Trace.currentSpan obj = Some cur
        ∧ Tracer.endSpan w T error now = Some (w', Normal ())
        ∧ spans w'
          = <[Trace.currentSpan obj := Span.end_ cur error now]> (spans w)
        ∧ traces w' = <[tr := obj']> (traces w)
        ∧ Trace.allSpans obj' = Trace.allSpans obj
        ∧ (Trace.currentSpan obj' = Trace.currentSpan obj
           ∨ Trace.currentSpan obj' ∈ Trace.allSpans obj)
  end.
Proof.
  intros Hrun. pose proof (client_reachable_inv _ _ _ _ Hrun) as Hinv.
  pose proof Hinv as [Hwf Ht _ _ _]. pose proof Hwf as [Ha _ _].
  unfold Tracer.endSpan.
  destruct (Tracer.first_active T) as [tr|] eqn:Hsel; [|done].
  destruct (first_active_elem_of _ _ Hsel) as [k Hin].
  destruct (Ha k tr Hin) as (obj & Hobj & _). rewrite Hobj. simpl.
  destruct (Ht tr obj Hobj) as (Hc & _).
  destruct (lookup_lt_is_Some_2 _ _ Hc) as [cur Hcur].
  destruct (trace_endSpan_is_Some (spans w) obj error now Hc) as [[sh obj'] E].
  rewrite E. simpl.
  destruct (trace_endSpan_shape _ _ _ _ _ _ E) as (_ & Hall & Hcursor).
  exists obj, cur. eexists _, obj'. split_and!; try done. simpl.
  revert E. unfold Trace.endSpan, Span.update. rewrite Hcur. simpl.
  rewrite list_lookup_insert_eq by done. simpl.
  destruct (truthy_string _); [|by intros [= <- _]].
  destruct (_ ≫= _); by intros [= <- _].
Qed.

Lemma tracer_endSpan_witness :
  ∃ w T w',
    client_run (client_start demo_config) demo_two_traces = Some (w, T)
    ∧ Tracer.endSpan w T None 40 = Some (w', Normal ())
    ∧ (Span.status <$> spans w' !! 0%nat) = Some Span.completed
    ∧ (Span.status <$> spans w' !! 2%nat) = Some Span.started.
Proof.
  destruct (client_run (client_start demo_config) demo_two_traces)
    as [[w T]|] eqn:E; [|by vm_compute in E].
  pose proof (tracer_endSpan_first_active _ _ _ _ None 40 E) as H.
  pose proof E as E'. vm_compute in E'. injection E' as <- <-.
  destruct (Tracer.first_active _) as [tr|] eqn:Hsel; [|by vm_compute in Hsel].
  destruct H as (obj & cur & w' & obj' & Hobj & Hcur & Hend & Hspans & _).
  assert (tr = 0%nat) as -> by (vm_compute in Hsel; congruence).
  injection Hobj as <-. injection Hcur as <-.
  eexists _, _, w'. split; [exact E|]. split; [exact Hend|].
  rewrite Hspans. by vm_compute.
Defined.

(** ** The store with [clear] *)

Inductive storage_call :=
  | StoreCall (th : list Trace.t) (trace : ref)
  | ClearCall.

Definition storage_step (st : TraceStorage.t) (c : storage_call)
    : option TraceStorage.t :=
  match c with
  | StoreCall th trace => TraceStorage.store th st trace
  | ClearCall => Some (TraceStorage.clear st)
  end.

Fixpoint storage_calls (st : TraceStorage.t) (calls : list storage_call)
    : option TraceStorage.t :=
  match calls with
  | [] => Some st
  | c :: calls => st' ← storage_step st c; storage_calls st' calls
  end.

Lemma storage_calls_snoc st calls c :
  storage_calls st (calls ++ [c])
  = storage_calls st calls ≫= λ st', storage_step st' c.
Proof.
  revert st. induction calls as [|c0 calls IH]; intros st; simpl.
  - by destruct (storage_step st c).
  - destruct (storage_step st c0); simpl; [apply IH | done].
Qed.

(** X16.  A store that is filled and cleared in any order: it never holds
    more than 1000 traces, no identifier twice, and every trace it gives
    back was stored under that identifier by a call that no [clear]
    followed. *)
Theorem store_and_clear_histories
    (calls : list storage_call) (st : TraceStorage.t) :
  storage_calls TraceStorage.new calls = Some st →
  (JSMap.size (TraceStorage.traces st) ≤ 1000)%nat
  ∧ NoDup (stored_keys st)
  ∧ length (TraceStorage.getAll st) = JSMap.size (TraceStorage.traces st)
  ∧ ∀ k tr, TraceStorage.get st k = Some tr →
      ∃ i th obj,
        calls !! i = Some (StoreCall th tr)
        ∧ th !! tr = Some obj
        ∧ Trace.traceId obj = k
        ∧ ∀ j, (i < j)%nat → calls !! j ≠ Some ClearCall.
Proof.
  intros Hrun.
  assert (storage_ok st ∧ NoDup (stored_keys st)
          ∧ TraceStorage.maxTraces st = 1000%nat
          ∧ ∀ k tr, (k, tr) ∈ TraceStorage.traces st →
              ∃ i th obj,
                calls !! i = Some (StoreCall th tr)
                ∧ th !! tr = Some obj
                ∧ Trace.traceId obj = k
                ∧ ∀ j, (i < j)%nat → calls !! j ≠ Some ClearCall)
    as ([_ Hsize] & Hnd & Hmax & Hprov).
  { revert st Hrun. induction calls as [|c calls IH] using rev_ind; intros st.
    - intros [= <-]. destruct storage_new_ok as [? ?].
      split_and!; [done | done | done |]. by intros k tr ?%elem_of_nil.
    - rewrite storage_calls_snoc.
      destruct (storage_calls TraceStorage.new calls) as [st0|]; simpl; [|done].
      destruct (IH st0 eq_refl) as (Hok & Hnd & Hmax & Hprov).
      destruct c as [th trace|]; simpl.
      + intros Hst. split_and!.
        * by eapply store_ok.
        * by eapply store_keys_NoDup.
        * by rewrite (store_maxTraces _ _ _ _ Hst).
        * intros k tr Hin.
          destruct (store_elem_of _ _ _ _ _ Hst Hin)
            as [Hold | (obj & Hobj & [= -> ->])].
          -- destruct (Hprov k tr Hold) as (i & th0 & obj & Hi & Hobj & Hid & Hclear).
             exists i, th0, obj.
             split_and!; [by apply lookup_app_l_Some | done | done |].
             intros j Hj. destruct (decide (j < length calls)%nat).
             ++ rewrite lookup_app_l by done. by apply Hclear.
             ++ rewrite lookup_app_r by lia.
                by destruct (j - length calls)%nat as [|[|?]].
          -- exists (length calls), th, obj.
             split_and!; [|done | done |].
             ++ by rewrite lookup_app_r, Nat.sub_diag.
             ++ intros j Hj. rewrite lookup_app_r by lia.
                by destruct (j - length calls)%nat as [|[|?]] eqn:?; [lia|..].
      + intros [= <-]. simpl. split_and!.
        * destruct Hok as [? _]. split; simpl; lia.
        * constructor.
        * done.
        * by intros k tr ?%elem_of_nil. }
  rewrite Hmax in Hsize. split_and!; [done | done | |].
  - unfold TraceStorage.getAll, JSMap.values, JSMap.size. by rewrite length_fmap.
  - intros k tr Hget. apply Hprov. by apply get_Some_elem_of.
Qed.

Lemma store_and_clear_witness :
  let th := demo_traces 3 in
  ∃ st,
    storage_calls TraceStorage.new
      [StoreCall th 0; StoreCall th 1; ClearCall; StoreCall th 2] = Some st
    ∧ TraceStorage.get st "trace-1-0.0" = None
    ∧ TraceStorage.get st "trace-1-0.2" = Some 2%nat
    ∧ length (TraceStorage.getAll st) = 1%nat.
Proof.
  intros th.
  destruct (storage_calls TraceStorage.new
              [StoreCall th 0; StoreCall th 1; ClearCall; StoreCall th 2])
    as [st|] eqn:E; [|by vm_compute in E].
  destruct (store_and_clear_histories _ _ E) as (_ & _ & Hlen & _).
  exists st. split; [done|]. rewrite Hlen.
  vm_compute in E. injection E as <-. by vm_compute.
Defined.

(** ** The metrics of the traces of a client *)

Lemma sum_durations_le spans d :
  (∀ j s, spans !! j = Some s → duration0 s ≤ d) →
  sum_durations spans ≤ d * Z.of_nat (length spans).
Proof.
  induction spans as [|s spans IH]; intros Hall; simpl; [lia|].
  pose proof (Hall 0%nat s eq_refl).
  assert (sum_durations spans ≤ d * Z.of_nat (length spans))
    by (apply IH; intros j s' Hs; by apply (Hall (S j))).
  lia.
Qed.

(** X17.  On every trace a client can have, [analyzeTrace] returns: there
    is a first span to start from.  It counts the spans of the trace, its
    average is at most the duration of the slowest operation it names, both
    as doubles (a duration of at most [2^53] in size is a double as it is),
    and it lists at most one query for each span. *)
Theorem analyzeTrace_of_any_trace
    (config : Tracer.TracerConfig) (calls : list call)
    (w : Heap) (T : Tracer.t) (tr : ref) (obj : Trace.t) (heapUsed : Z) :
  client_run (client_start config) calls = Some (w, T) →
  traces w !! tr = Some obj →
  ∃ m,
    MetricsCollector.analyzeTrace (spans w) obj heapUsed = Some m
    ∧ MetricsCollector.operationCount m = length (Trace.allSpans obj)
    ∧ (1 ≤ MetricsCollector.operationCount m)%nat
    ∧ (MetricsCollector.averageOperationTime m
       <= round_double
            (inject_Z (MetricsCollector.duration
                         (MetricsCollector.slowestOperation m))))%Q
    ∧ (Z.abs (MetricsCollector.duration (MetricsCollector.slowestOperation m))
       ≤ 2 ^ 53 →
       (MetricsCollector.averageOperationTime m
        <= inject_Z (MetricsCollector.duration
                       (MetricsCollector.slowestOperation m)))%Q)
    ∧ (length (MetricsCollector.databaseQueries m)
       ≤ MetricsCollector.operationCount m)%nat.
Proof.
  intros Hrun Hobj. pose proof (client_reachable_inv _ _ _ _ Hrun) as Hinv.
  destruct (ci_traces _ _ Hinv tr obj Hobj) as (_ & Halloc & Hne).
  destruct (mapM_is_Some_2 (λ r, spans w !! r) (Trace.allSpans obj))
    as [all Hm].
  { apply Forall_forall. intros r Hr. apply lookup_lt_is_Some_2. by apply Halloc. }
  pose proof (length_mapM _ _ _ Hm) as Hlen.
  unfold MetricsCollector.analyzeTrace. rewrite Hm. cbn [mbind option_bind].
  destruct all as [|s0 all'] eqn:Es.
  { destruct (Trace.allSpans obj); [done | discriminate]. }
  rewrite <- Es in *. assert (head all = Some s0) as -> by (by rewrite Es).
  cbn [mbind option_bind fmap option_fmap option_map].
  eexists. split; [done|].
  cbn [MetricsCollector.slowestOperation MetricsCollector.operationCount
       MetricsCollector.averageOperationTime MetricsCollector.databaseQueries
       MetricsCollector.duration].
  assert (1 ≤ length all)%nat as Hpos by (rewrite Es; simpl; lia).
  assert (MetricsCollector.totalTime all # Pos.of_nat (length all)
          <= inject_Z (or0 (Span.duration (MetricsCollector.slowest all s0))))%Q
    as Hexact.
  { destruct (slowest_spec all s0) as (Hall & _ & _).
    rewrite or0_duration0, totalTime_sum.
    pose proof (sum_durations_le all _ Hall) as Hsum.
    unfold Qle. simpl.
    replace (Z.pos (Pos.of_nat (length all))) with (Z.of_nat (length all)); [lia|].
    rewrite Es. simpl length. by rewrite <- Pos.of_nat_succ. }
  pose proof (round_double_mono _ _ Hexact) as Hround.
  split_and!; [done | lia | done | |].
  - intros Hsafe. pose proof (round_double_Z _ Hsafe) as Hid.
    rewrite Hid in Hround. exact Hround.
  - rewrite length_fmap. apply length_filter.
Qed.

Lemma analyzeTrace_witness :
  ∃ w T obj m,
    client_run (client_start demo_config) demo_session = Some (w, T)
    ∧ traces w !! 0%nat = Some obj
    ∧ MetricsCollector.analyzeTrace (spans w) obj 1048576 = Some m
    ∧ MetricsCollector.operationCount m = 2%nat
    ∧ MetricsCollector.slowestOperation m
      = {| MetricsCollector.name := "database_query";
           MetricsCollector.duration := 9 |}.
Proof.
  destruct (client_run (client_start demo_config) demo_session)
    as [[w T]|] eqn:E; [|by vm_compute in E].
  destruct (traces w !! 0%nat) as [obj|] eqn:Hobj;
    [|vm_compute in E; by injection E as <- <-].
  destruct (analyzeTrace_of_any_trace _ _ _ _ _ _ 1048576 E Hobj)
    as (m & Hm & _).
  exists w, T, obj, m. split_and!; [done | done | done | |].
  all: vm_compute in E; injection E as <- <-; injection Hobj as <-;
    vm_compute in Hm; by injection Hm as <-.
Defined.

(** ** [includes] finds substrings *)

Lemma substring_here sub post :
  String.substring 0 (String.length sub) (sub +:+ post) = sub.
Proof.
  induction sub as [|c sub IH].
  - by destruct post.
  - change (String c (String.substring 0 (String.length sub) (sub +:+ post))
            = String c sub).
    by rewrite IH.
Qed.

Lemma substring_skip pre m s :
  String.substring (String.length pre) m (pre +:+ s) = String.substring 0 m s.
Proof.
  induction pre as [|c pre IH]; [done|].
  change (String.substring (String.length pre) m (pre +:+ s)
          = String.substring 0 m s).
  apply IH.
Qed.

Lemma substring_0_split sub : ∀ s,
  String.substring 0 (String.length sub) s = sub → ∃ post, s = sub +:+ post.
Proof.
  induction sub as [|c sub IH]; intros s.
  - intros _. by exists s.
  - destruct s as [|c' s]; simpl; [done|]. intros [= -> Hs].
    destruct (IH s Hs) as [post ->]. by exists post.
Qed.

Lemma substring_split m sub : ∀ s,
  sub ≠ "" →
  String.substring m (String.length sub) s = sub →
  ∃ pre post, s = pre +:+ sub +:+ post.
Proof.
  induction m as [|m IH]; intros s Hne Hs.
  - destruct (substring_0_split sub s Hs) as [post ->]. by exists "", post.
  - destruct s as [|c s]; simpl in Hs; [congruence|].
    destruct (IH s Hne Hs) as (pre & post & ->). by exists (String c pre), post.
Qed.

Lemma includes_spec s sub :
  sub ≠ "" →
  includes s sub = true ↔ ∃ pre post, s = pre +:+ sub +:+ post.
Proof.
  intros Hne. unfold includes. split.
  - destruct (String.index 0 sub s) as [m|] eqn:E; [|done]. intros _.
    apply String.index_correct1 in E. by eapply substring_split.
  - intros (pre & post & ->).
    destruct (String.index 0 sub (pre +:+ sub +:+ post)) as [m|] eqn:E; [done|].
    destruct (String.index_correct3 0 (String.length pre) _ _ E Hne); [lia|].
    by rewrite substring_skip, substring_here.
Qed.

(** A span is a database query when its name contains ["database"] or
    ["query"]. *)
Definition names_query (s : Span.t) : Prop :=
  ∃ pre post,
    Span.name s = pre +:+ "database" +:+ post
    ∨ Span.name s = pre +:+ "query" +:+ post.

(** X18.  The [databaseQueries] of the metrics are made from the spans
    whose name contains ["database"] or ["query"] anywhere, lower case, in
    the order of [allSpans]; each carries the truthy [query] attribute of
    its span, else the span's name, and the span's duration, 0 when it has
    none. *)
Theorem database_queries_by_name
    (h : Span.heap) (t : Trace.t) (heapUsed : Z)
    (m : MetricsCollector.PerformanceMetrics) :
  MetricsCollector.analyzeTrace h t heapUsed = Some m →
  ∃ all picked,
    Forall2 (λ r s, h !! r = Some s) (Trace.allSpans t) all
    ∧ sublist picked all
    ∧ (∀ s, s ∈ picked ↔ s ∈ all ∧ names_query s)
    ∧ Forall2
        (λ s q,
           q.2 = duration0 s
           ∧ q.1 = match Span.attributes s !! "query" with
                   | Some v => if truthy v then v else VStr (Span.name s)
                   | None => VStr (Span.name s)
                   end)
        picked (MetricsCollector.databaseQueries m).
Proof.
  unfold MetricsCollector.analyzeTrace.
  destruct (mapM _ (Trace.allSpans t)) as [all|] eqn:Hm; simpl; [|done].
  destruct (head all) as [s0|]; simpl; [|done]. intros [= <-]. simpl.
  exists all,
    (filter (λ span, includes (Span.name span) "database"
                     || includes (Span.name span) "query") all).
  split_and!.
  - by apply mapM_Some_1.
  - apply sublist_filter.
  - intros s. rewrite list_elem_of_filter, orb_True, !Is_true_true.
    rewrite !includes_spec by done. unfold names_query. split.
    + intros [[(pre & post & ?) | (pre & post & ?)] ?];
        (split; [done|]); exists pre, post; [by left | by right].
    + intros [? (pre & post & [?|?])]; (split; [|done]);
        [left | right]; by exists pre, post.
  - apply Forall2_fmap_r, Forall_Forall2_diag, Forall_forall.
    intros s _. simpl. by rewrite or0_duration0.
Qed.

Lemma database_queries_witness :
  ∃ w T obj m,
    client_run (client_start demo_config) demo_session = Some (w, T)
    ∧ traces w !! 0%nat = Some obj
    ∧ MetricsCollector.analyzeTrace (spans w) obj 1048576 = Some m
    ∧ MetricsCollector.databaseQueries m = [(VStr "database_query", 9)].
Proof.
  destruct (client_run (client_start demo_config) demo_session)
    as [[w T]|] eqn:E; [|by vm_compute in E].
  destruct (traces w !! 0%nat) as [obj|] eqn:Hobj;
    [|vm_compute in E; by injection E as <- <-].
  destruct (MetricsCollector.analyzeTrace (spans w) obj 1048576) as [m|] eqn:Hm;
    [|vm_compute in E; injection E as <- <-; injection Hobj as <-;
      by vm_compute in Hm].
  destruct (database_queries_by_name _ _ _ _ Hm) as (all & picked & _).
  exists w, T, obj, m. split_and!; [done..|].
  vm_compute in E. injection E as <- <-. injection Hobj as <-.
  vm_compute in Hm. by injection Hm as <-.
Defined.

(** ** What no method changes *)

(** A span later on: the same identity, and the children it had, in
    front. *)
Definition span_extends (s s' : Span.t) : Prop :=
  Span.id s' = Span.id s
  ∧ Span.traceId s' = Span.traceId s
  ∧ Span.name s' = Span.name s
  ∧ Span.startTime s' = Span.startTime s
  ∧ Span.parentId s' = Span.parentId s
  ∧ Span.children s `prefix_of` Span.children s'.

Definition trace_extends (t t' : Trace.t) : Prop :=
  Trace.traceId t' = Trace.traceId t
  ∧ Trace.startTime t' = Trace.startTime t
  ∧ Trace.rootSpan t' = Trace.rootSpan t
  ∧ Trace.allSpans t `prefix_of` Trace.allSpans t'.

(** Every object of [l] is still there in [l'], at the same reference. *)
Definition ext {A} (R : A → A → Prop) (l l' : list A) : Prop :=
  ∀ i x, l !! i = Some x → ∃ x', l' !! i = Some x' ∧ R x x'.

Section ext.
Context {A : Type} (R : A → A → Prop).
Hypothesis R_refl : ∀ x, R x x.
Hypothesis R_trans : ∀ x y z, R x y → R y z → R x z.

Lemma ext_refl l : ext R l l.
Proof. intros i x Hx. by exists x. Qed.

Lemma ext_trans l1 l2 l3 : ext R l1 l2 → ext R l2 l3 → ext R l1 l3.
Proof.
  intros H12 H23 i x Hx. destruct (H12 i x Hx) as (y & Hy & Hxy).
  destruct (H23 i y Hy) as (z & Hz & Hyz). exists z. split; [done|].
  by eapply R_trans.
Qed.

Lemma ext_app l k : ext R l (l ++ k).
Proof. intros i x Hx. exists x. split; [by apply lookup_app_l_Some | done]. Qed.

Lemma ext_insert l i x y : l !! i = Some x → R x y → ext R l (<[i := y]> l).
Proof.
  intros Hx Hxy j z Hz. destruct (decide (i = j)) as [<-|Hne].
  - exists y. rewrite list_lookup_insert_eq by (by eapply lookup_lt_Some).
    split; [done | congruence].
  - exists z. by rewrite list_lookup_insert_ne.
Qed.

End ext.

Lemma span_extends_refl s : span_extends s s.
Proof. by split_and!. Qed.

Lemma span_extends_trans s1 s2 s3 :
  span_extends s1 s2 → span_extends s2 s3 → span_extends s1 s3.
Proof.
  intros (?&?&?&?&?&?) (?&?&?&?&?&?).
  split_and!; [congruence.. | by etrans].
Qed.

Lemma trace_extends_refl t : trace_extends t t.
Proof. by split_and!. Qed.

Lemma trace_extends_trans t1 t2 t3 :
  trace_extends t1 t2 → trace_extends t2 t3 → trace_extends t1 t3.
Proof.
  intros (?&?&?&?) (?&?&?&?). split_and!; [congruence.. | by etrans].
Qed.

Lemma span_step_extends h o h' :
  Span.step h o = Some h' → ext span_extends h h'.
Proof.
  destruct o; simpl; unfold Span.update.
  - intros [= <-]. apply ext_app, span_extends_refl.
  - destruct (h !! r) as [s|] eqn:Hs; simpl; [|done]. intros [= <-].
    eapply ext_insert; [apply span_extends_refl | done |].
    split_and!; try done. simpl. by apply prefix_app_r.
  - destruct (h !! r) as [s|] eqn:Hs; simpl; [|done]. intros [= <-].
    eapply ext_insert; [apply span_extends_refl | done |]. by split_and!.
  - destruct (h !! r) as [s|] eqn:Hs; simpl; [|done]. intros [= <-].
    eapply ext_insert; [apply span_extends_refl | done |]. by split_and!.
Qed.

Lemma trace_startSpan_extends h obj name idNow rnd startNow h' obj' span :
  Trace.startSpan h obj name idNow rnd startNow = Some (h', obj', span) →
  ext span_extends h h' ∧ trace_extends obj obj'.
Proof.
  destruct (h !! Trace.currentSpan obj) as [cur|] eqn:Hc;
    [|unfold Trace.startSpan; by rewrite Hc].
  rewrite (startSpan_heap _ _ _ _ _ _ _ Hc). intros [= <- <- <-]. split.
  - eapply (ext_trans _ span_extends_trans);
      [apply ext_app, span_extends_refl|].
    eapply ext_insert; [apply span_extends_refl | by apply lookup_app_l_Some |].
    split_and!; try done. simpl. by apply prefix_app_r.
  - split_and!; try done. simpl. by apply prefix_app_r.
Qed.

Lemma trace_endSpan_extends h obj error now h' obj' :
  Trace.endSpan h obj error now = Some (h', obj') →
  ext span_extends h h' ∧ trace_extends obj obj'.
Proof.
  unfold Trace.endSpan, Span.update.
  destruct (h !! Trace.currentSpan obj) as [c|] eqn:Hc; simpl; [|done].
  destruct (<[Trace.currentSpan obj := Span.end_ c error now]> h
              !! Trace.currentSpan obj) as [cur|]; simpl; [|done].
  assert (ext span_extends h
            (<[Trace.currentSpan obj := Span.end_ c error now]> h)) as Hext.
  { eapply ext_insert; [apply span_extends_refl | done |]. by split_and!. }
  destruct (truthy_string _);
    [|intros [= <- <-]; split; [done | apply trace_extends_refl]].
  destruct (_ ≫= _); intros [= <- <-]; (split; [done|]); by split_and!.
Qed.

Definition heap_extends (w w' : Heap) : Prop :=
  ext span_extends (spans w) (spans w')
  ∧ ext trace_extends (traces w) (traces w').

Lemma heap_extends_refl w : heap_extends w w.
Proof.
  split; apply ext_refl; [apply span_extends_refl | apply trace_extends_refl].
Qed.

Lemma heap_extends_trans w1 w2 w3 :
  heap_extends w1 w2 → heap_extends w2 w3 → heap_extends w1 w3.
Proof.
  intros [? ?] [? ?]. split.
  - by eapply (ext_trans _ span_extends_trans).
  - by eapply (ext_trans _ trace_extends_trans).
Qed.

Lemma on_trace_extends w trace f w' :
  on_trace w trace f = Some w' →
  (∀ h obj h' obj', f h obj = Some (h', obj') →
     ext span_extends h h' ∧ trace_extends obj obj') →
  heap_extends w w'.
Proof.
  unfold on_trace. intros Hon Hf.
  destruct (traces w !! trace) as [obj|] eqn:Hobj; simpl in Hon; [|done].
  destruct (f (spans w) obj) as [[sh obj']|] eqn:E; simpl in Hon; [|done].
  injection Hon as <-. destruct (Hf _ _ _ _ E) as [Hs Ht].
  split; simpl; [done|].
  eapply ext_insert; [apply trace_extends_refl | done | done].
Qed.

Lemma client_step_extends w T c w' T' :
  client_step (w, T) c = Some (w', T') → heap_extends w w'.
Proof.
  destruct c; simpl.
  - intros [= <- _]. unfold Trace.new, Span.alloc. simpl.
    split; simpl; apply ext_app; [apply span_extends_refl | apply trace_extends_refl].
  - unfold Tracer.startSpan.
    destruct (if truthy_string traceId then _ else _) as [trace|];
      [|intros [= <- _]; apply heap_extends_refl].
    intros Hon.
    destruct (traces w !! trace) as [obj0|] eqn:Hobj; simpl in Hon; [|done].
    destruct (Trace.startSpan _ _ _ _ _ _) as [[[sh0 obj0'] span0]|] eqn:E0;
      simpl in Hon; [|done].
    injection Hon as <- _.
    destruct (trace_startSpan_extends _ _ _ _ _ _ _ _ _ E0) as [Hs Ht].
    split; simpl; [done|].
    eapply ext_insert; [apply trace_extends_refl | done | done].
  - unfold Tracer.endSpan.
    destruct (Tracer.first_active T) as [trace|];
      [|intros [= <- _]; apply heap_extends_refl].
    intros Hon.
    destruct (traces w !! trace) as [obj0|] eqn:Hobj; simpl in Hon; [|done].
    destruct (Trace.endSpan _ _ _ _) as [[sh0 obj0']|] eqn:E0;
      simpl in Hon; [|done].
    injection Hon as <- _.
    destruct (trace_endSpan_extends _ _ _ _ _ _ E0) as [Hs Ht].
    split; simpl; [done|].
    eapply ext_insert; [apply trace_extends_refl | done | done].
  - unfold Tracer.finishTrace.
    destruct (JSMap.get _ traceId) as [trace|];
      [|intros [= <- _]; apply heap_extends_refl].
    destruct (traces w !! trace) as [obj|] eqn:Hobj;
      cbn [mbind option_bind]; [|done].
    destruct (TraceStorage.store _ _ trace) as [storage'|];
      cbn [mbind option_bind]; [|done].
    destruct (Tracer.exportTrace _ _ trace stack heapUsed) as [exported|];
      cbn [mbind option_bind]; [|done].
    intros [= <- _]. split; simpl; [apply ext_refl, span_extends_refl|].
    eapply ext_insert; [apply trace_extends_refl | done |]. by split_and!.
  - intros [= <- _]. unfold Span.alloc. simpl.
    split; simpl; apply ext_app; [apply span_extends_refl | apply trace_extends_refl].
  - destruct (on_trace w trace _) as [w1|] eqn:Hon; simpl; [|done].
    intros [= <- _]. eapply on_trace_extends; [exact Hon|].
    cbv beta. intros h obj h' obj'.
    destruct (Trace.startSpan h obj name idNow rnd startNow)
      as [[[sh o'] span]|] eqn:E; simpl; [|done].
    intros [= <- <-]. by eapply trace_startSpan_extends.
  - destruct (on_trace w trace _) as [w1|] eqn:Hon; simpl; [|done].
    intros [= <- _]. eapply on_trace_extends; [exact Hon|].
    cbv beta. intros h obj h' obj' E. by eapply trace_endSpan_extends.
  - destruct (on_trace w trace _) as [w1|] eqn:Hon; simpl; [|done].
    intros [= <- _]. eapply on_trace_extends; [exact Hon|].
    cbv beta. intros h obj h' obj' [= <- <-].
    split; [apply ext_refl, span_extends_refl | by split_and!].
  - destruct (Span.step (spans w) o) as [sh|] eqn:E; simpl; [|done].
    intros [= <- _]. split; simpl;
      [by eapply span_step_extends | apply ext_refl, trace_extends_refl].
Qed.

Lemma client_run_extends calls : ∀ w T w' T',
  client_run (w, T) calls = Some (w', T') → heap_extends w w'.
Proof.
  induction calls as [|c calls IH]; intros w T w' T'.
  - intros [= <- _]. apply heap_extends_refl.
  - change (client_run (w, T) (c :: calls))
      with (client_step (w, T) c ≫= λ st', client_run st' calls).
    destruct (client_step (w, T) c) as [[w1 T1]|] eqn:E; [|done].
    intros Hrun. eapply heap_extends_trans; [|by eapply IH].
    by eapply client_step_extends.
Qed.

(** X19.  No method call on the tracer, on a trace or on a span removes
    an object or changes what identifies it: a span keeps its [id],
    [traceId], [name], [startTime] and [parentId], and its children stay in
    front of the later ones; a trace keeps its [traceId], [startTime] and
    [rootSpan], and its spans stay in front of the later ones. *)
Theorem client_calls_keep_identity
    (calls : list call) (w : Heap) (T : Tracer.t) (w' : Heap) (T' : Tracer.t) :
  client_run (w, T) calls = Some (w', T') →
  (∀ r s, spans w !! r = Some s →
     ∃ s', spans w' !! r = Some s'
           ∧ Span.id s' = Span.id s
           ∧ Span.traceId s' = Span.traceId s
           ∧ Span.name s' = Span.name s
           ∧ Span.startTime s' = Span.startTime s
           ∧ Span.parentId s' = Span.parentId s
           ∧ Span.children s `prefix_of` Span.children s')
  ∧ (∀ tr t, traces w !! tr = Some t →
       ∃ t', traces w' !! tr = Some t'
             ∧ Trace.traceId t' = Trace.traceId t
             ∧ Trace.startTime t' = Trace.startTime t
             ∧ Trace.rootSpan t' = Trace.rootSpan t
             ∧ Trace.allSpans t `prefix_of` Trace.allSpans t').
Proof.
  intros Hrun. by destruct (client_run_extends _ _ _ _ _ Hrun).
Qed.

Lemma client_calls_witness :
  ∃ w T w' T' s',
    client_run (client_start demo_config) (take 1 demo_session) = Some (w, T)
    ∧ client_run (w, T) (drop 1 demo_session) = Some (w', T')
    ∧ spans w' !! 0%nat = Some s'
    ∧ Span.id s' = "span-11-0.25"
    ∧ [] `prefix_of` Span.children s'.
Proof.
  destruct (client_run (client_start demo_config) (take 1 demo_session))
    as [[w T]|] eqn:E; [|by vm_compute in E].
  destruct (client_run (w, T) (drop 1 demo_session))
    as [[w' T']|] eqn:E';
    [|vm_compute in E; injection E as <- <-; by vm_compute in E'].
  destruct (client_calls_keep_identity _ _ _ _ _ E') as [Hs _].
  destruct (spans w !! 0%nat) as [s|] eqn:Hs0;
    [|vm_compute in E; by injection E as <- <-].
  destruct (Hs _ _ Hs0) as (s' & Hs' & Hid & _ & _ & _ & _ & Hkids).
  exists w, T, w', T', s'. split_and!; [done | done | done | |].
  - rewrite Hid. vm_compute in E. injection E as <- <-. by injection Hs0 as <-.
  - vm_compute in E. injection E as <- <-. by injection Hs0 as <-.
Defined.

(** ** [instrument] *)

(** What a [catch] clause receives: an [Error], or a value that is not an
    object. *)
Inductive Thrown :=
  | ThrownError (e : Error)
  | ThrownValue (v : JSValue).

Definition thrown_truthy (reason : Thrown) : bool :=
  match reason with
  | ThrownError _ => true
  | ThrownValue v => truthy v
  end.

(** [error as Error], given to [finishTrace] and by it to [finish]: the
    cast does nothing at run time, and [finish] only asks whether its
    argument is truthy.  A falsy value has the effect of [undefined]; a
    truthy value that is no [Error] has the effect of any [Error], here
    one without message. *)
Definition as_Error (reason : Thrown) : option Error :=
  match reason with
  | ThrownError e => Some e
  | ThrownValue v => if truthy v then Some {| message := "" |} else None
  end.

(** How a call of the wrapper ends. *)
Inductive Outcome :=
  | Returned
  | Rejected (reason : Thrown).

(** The wrapper that [instrument] returns, called once.  It starts a trace
    and a span named ['execution'], then waits at [await fn(...args)].
    [body] is what is done to the tracer, the traces and the spans while it
    waits: the calls of [fn] and of whatever else runs meanwhile.
    [outcome] is [None] when the promise of [fn] is fulfilled, and what it
    is rejected with otherwise.  The value [fn] gives is not modelled. *)
Definition instrument_enter (st : Heap * Tracer.t) (name : string)
    (traceNow : Z) (traceRnd : string) (now idNow : Z) (rnd : string)
    (startNow : Z) (idNow2 : Z) (rnd2 : string) (startNow2 : Z)
    : option (Heap * Tracer.t * ref * ref) :=
  let '(w1, T1, trace) :=
    Tracer.startTrace st.1 st.2 name traceNow traceRnd now idNow rnd startNow in
  obj ← traces w1 !! trace;
  '(sh, obj', span) ←
    Trace.startSpan (spans w1) obj "execution" idNow2 rnd2 startNow2;
  Some ({| spans := sh; traces := <[trace := obj']> (traces w1) |},
        T1, trace, span).

(** The [catch] block: [this.finishTrace(trace.traceId, error as Error);
    throw error].  An error thrown by [finishTrace] takes the place of
    [error]. *)
Definition instrument_catch (w : Heap) (T : Tracer.t) (trace : ref)
    (reason : Thrown) (finishNow : Z) (stack : nat) (heapUsed : Z)
    : option (Heap * Tracer.t * Outcome) :=
  obj ← traces w !! trace;
  '(w', T', res) ←
    Tracer.finishTrace w T (Trace.traceId obj) (as_Error reason) finishNow
                       stack heapUsed;
  match res with
  | Normal _ => Some (w', T', Rejected reason)
  | Throw e => Some (w', T', Rejected (ThrownError e))
  end.

(** After the [await]: [span.end(); this.finishTrace(trace.traceId)] when
    the promise is fulfilled, the [catch] block when it is rejected or when
    [finishTrace] throws. *)
Definition instrument_leave (st : Heap * Tracer.t) (trace span : ref)
    (outcome : option Thrown) (endNow finishNow : Z)
    (stack : nat) (heapUsed : Z)
    : option (Heap * Tracer.t * Outcome) :=
  let '(w3, T3) := st in
  match outcome with
  | Some reason => instrument_catch w3 T3 trace reason finishNow stack heapUsed
  | None =>
      sh ← Span.update (spans w3) span (λ s, Span.end_ s None endNow);
      let w4 := {| spans := sh; traces := traces w3 |} in
      obj ← traces w4 !! trace;
      '(w5, T5, res) ←
        Tracer.finishTrace w4 T3 (Trace.traceId obj) None finishNow
                           stack heapUsed;
      match res with
      | Normal _ => Some (w5, T5, Returned)
      | Throw e =>
          instrument_catch w5 T5 trace (ThrownError e) finishNow stack heapUsed
      end
  end.

Definition instrument (st : Heap * Tracer.t) (name : string)
    (traceNow : Z) (traceRnd : string) (now idNow : Z) (rnd : string)
    (startNow : Z) (idNow2 : Z) (rnd2 : string) (startNow2 : Z)
    (body : list call) (outcome : option Thrown) (endNow finishNow : Z)
    (stack : nat) (heapUsed : Z)
    : option (Heap * Tracer.t * Outcome) :=
  '(w2, T2, trace, span) ←
    instrument_enter st name traceNow traceRnd now idNow rnd startNow
                     idNow2 rnd2 startNow2;
  st3 ← client_run (w2, T2) body;
  instrument_leave st3 trace span outcome endNow finishNow stack heapUsed.

Lemma finishTrace_not_found w T id error now stack heapUsed :
  JSMap.get (Tracer.activeTraces T) id = None →
  Tracer.finishTrace w T id error now stack heapUsed
  = Some (w, T, Throw {| message := "Trace not found: " +:+ id |}).
Proof. intros Hget. unfold Tracer.finishTrace. by rewrite Hget. Qed.

Lemma finishTrace_cases w T id error now stack heapUsed :
  tracer_wf w T →
  match JSMap.get (Tracer.activeTraces T) id with
  | None =>
      Tracer.finishTrace w T id error now stack heapUsed
      = Some (w, T, Throw {| message := "Trace not found: " +:+ id |})
  | Some tr =>
      ∃ obj T' exported,
        let w' := {| spans := spans w;
                     traces := <[tr := Trace.finish obj error now]> (traces w) |} in
        traces w !! tr = Some obj
        ∧ Trace.traceId obj = id
        ∧ Tracer.exportTrace w' T' tr stack heapUsed = Some exported
        ∧ Tracer.finishTrace w T id error now stack heapUsed
          = Some (w', T',
                  match exported with
                  | Normal _ => Normal tr
                  | Throw e => Throw e
                  end)
        ∧ Tracer.getTrace T' id = Some tr
        ∧ JSMap.get (Tracer.activeTraces T') id = None
  end.
Proof.
  intros Hwf.
  pose proof (finishTrace_spec w T id error now stack heapUsed Hwf) as H.
  destruct (JSMap.get (Tracer.activeTraces T) id) as [tr|]; [|done].
  destruct H as (obj & storage' & exported & Hobj & Hid & _ & _ & Hget
                 & Hexp & _ & E).
  eexists obj, _, exported. split_and!; [done | done | exact Hexp | exact E | exact Hget |].
  simpl. apply get_delete_eq. by destruct Hwf.
Qed.

Lemma instrument_enter_spec w T name traceNow traceRnd now idNow rnd startNow
    idNow2 rnd2 startNow2 :
  let trace := length (traces w) in
  let span := S (length (spans w)) in
  ∃ w2 T2,
    instrument_enter (w, T) name traceNow traceRnd now idNow rnd startNow
                     idNow2 rnd2 startNow2
    = Some (w2, T2, trace, span)
    ∧ client_run (w, T)
        [TracerStartTrace name traceNow traceRnd now idNow rnd startNow;
         TraceStartSpan trace "execution" idNow2 rnd2 startNow2]
      = Some (w2, T2)
    ∧ JSMap.get (Tracer.activeTraces T2) (Tracer.make_id traceNow traceRnd)
      = Some trace
    ∧ (∃ obj, traces w2 !! trace = Some obj
              ∧ Trace.traceId obj = Tracer.make_id traceNow traceRnd)
    ∧ (∃ s, spans w2 !! span = Some s ∧ Span.name s = "execution").
Proof.
  intros trace span. subst trace span.
  unfold instrument_enter, client_run, client_step, on_trace, Tracer.startTrace,
    Trace.new, Span.alloc.
  cbn [fst snd spans traces mbind option_bind].
  rewrite lookup_app_r, Nat.sub_diag by done.
  cbn [lookup list_lookup mbind option_bind].
  set (root := Span.new _ name None idNow rnd startNow).
  set (obj := Trace.mk _ _ _ _ _ _ _ _).
  assert ((spans w ++ [root]) !! Trace.currentSpan obj = Some root) as Hcur.
  { simpl. by rewrite lookup_app_r, Nat.sub_diag. }
  rewrite (startSpan_heap _ _ "execution" idNow2 rnd2 startNow2 _ Hcur).
  cbn [fmap option_fmap option_map mbind option_bind fst].
  rewrite length_app, Nat.add_1_r.
  eexists _, _. split_and!; [done | done | apply get_set_eq | |].
  - exists (Trace.with_cursor obj (Trace.allSpans obj ++ [S (length (spans w))])
                              (S (length (spans w)))).
    split; [|done]. cbn [traces].
    apply list_lookup_insert_eq. rewrite length_app. simpl. lia.
  - exists (Span.new (Trace.traceId obj) "execution" (Some (Span.id root))
                     idNow2 rnd2 startNow2).
    split; [|done]. cbn [spans].
    rewrite list_lookup_insert_ne by (simpl; lia).
    rewrite lookup_app_r by (rewrite length_app; simpl; lia).
    by rewrite length_app, Nat.add_1_r, Nat.sub_diag.
Qed.

(** X20.  One call of an instrumented function.  Entering, the wrapper
    makes a new active trace and, in it, a span named ['execution'].
    Leaving: when the identifier is no longer active, the wrapper throws
    ['Trace not found'] whatever [fn] did.  When it is still active, the
    trace filed under it is finished and stored, as ['completed'] if [fn]
    succeeded or was rejected with a falsy value, and as ['failed'] if it
    was rejected with a truthy one; then, if [exportTrace] returns, the
    outcome of [fn] is passed on, and if it throws, the wrapper throws that
    error after a rejection and ['Trace not found'] after a success.  The
    ['execution'] span is ended only when [fn] succeeded; no other span is
    touched. *)
Theorem instrument_outcomes
    (config : Tracer.TracerConfig) (calls : list call)
    (w : Heap) (T : Tracer.t) (name : string)
    (traceNow : Z) (traceRnd : string) (now idNow : Z) (rnd : string)
    (startNow : Z) (idNow2 : Z) (rnd2 : string) (startNow2 : Z) :
  client_run (client_start config) calls = Some (w, T) →
  let id := Tracer.make_id traceNow traceRnd in
  let trace := length (traces w) in
  let span := S (length (spans w)) in
  let not_found := ThrownError {| message := "Trace not found: " +:+ id |} in
  ∃ w2 T2,
    instrument_enter (w, T) name traceNow traceRnd now idNow rnd startNow
                     idNow2 rnd2 startNow2
    = Some (w2, T2, trace, span)
    ∧ JSMap.get (Tracer.activeTraces T2) id = Some trace
    ∧ ∀ body w3 T3 outcome endNow finishNow stack heapUsed,
        client_run (w2, T2) body = Some (w3, T3) →
        ∃ w' T' res s,
          instrument (w, T) name traceNow traceRnd now idNow rnd startNow
                     idNow2 rnd2 startNow2 body outcome endNow finishNow
                     stack heapUsed
          = Some (w', T', res)
          ∧ spans w3 !! span = Some s
          ∧ Span.name s = "execution"
          ∧ spans w'
            = match outcome with
              | None => <[span := Span.end_ s None endNow]> (spans w3)
              | Some _ => spans w3
              end
          ∧ match JSMap.get (Tracer.activeTraces T3) id with
            | None =>
                res = Rejected not_found ∧ T' = T3 ∧ traces w' = traces w3
            | Some tr =>
                Tracer.getTrace T' id = Some tr
                ∧ JSMap.get (Tracer.activeTraces T') id = None
                ∧ (∃ obj,
                     traces w' !! tr = Some obj
                     ∧ Trace.endTime obj = Some finishNow
                     ∧ Trace.status obj
                       = match outcome with
                         | None => Trace.completed
                         | Some reason =>
                             if thrown_truthy reason then Trace.failed
                             else Trace.completed
                         end)
                ∧ (Tracer.exportTrace w' T' tr stack heapUsed
                   = Some (Normal ()) →
                   res = match outcome with
                         | None => Returned
                         | Some reason => Rejected reason
                         end)
                ∧ (∀ e, Tracer.exportTrace w' T' tr stack heapUsed
                        = Some (Throw e) →
                        res = match outcome with
                              | None => Rejected not_found
                              | Some _ => Rejected (ThrownError e)
                              end)
            end.
Proof.
  intros Hrun id trace span not_found.
  pose proof (client_reachable_inv _ _ _ _ Hrun) as Hinv.
  destruct (instrument_enter_spec w T name traceNow traceRnd now idNow rnd
              startNow idNow2 rnd2 startNow2)
    as (w2 & T2 & Henter & Hcalls & Hactive & (obj2 & Hobj2 & Hid2) & (s2 & Hs2 & Hname2)).
  exists w2, T2. split; [done|]. split; [done|].
  intros body w3 T3 outcome endNow finishNow stack heapUsed Hbody.
  pose proof (client_run_inv _ _ _ _ _ Hinv Hcalls) as Hinv2.
  pose proof (client_run_inv _ _ _ _ _ Hinv2 Hbody) as Hinv3.
  destruct (client_run_extends _ _ _ _ _ Hbody) as [Hse Hte].
  destruct (Hte _ _ Hobj2) as (obj3 & Hobj3 & Hid3 & _).
  destruct (Hse _ _ Hs2) as (s & Hs & _ & _ & Hname & _).
  unfold instrument. rewrite Henter. cbn [mbind option_bind].
  rewrite Hbody. cbn [mbind option_bind]. unfold instrument_leave.
  assert (Trace.traceId obj3 = id) as Hid by (unfold id; congruence).
  subst span trace.
  destruct outcome as [reason|].
  - (* rejected *)
    unfold instrument_catch. rewrite Hobj3. cbn [mbind option_bind]. rewrite Hid.
    pose proof (finishTrace_cases w3 T3 id (as_Error reason) finishNow stack
                  heapUsed (ci_wf _ _ Hinv3)) as H.
    destruct (JSMap.get (Tracer.activeTraces T3) id) as [tr|].
    + destruct H as (obj & T' & exported & Hobj & _ & Hexp & -> & Hget & Hgone).
      cbn [mbind option_bind].
      eexists _, T', (match exported with
                      | Normal _ => Rejected reason
                      | Throw e => Rejected (ThrownError e)
                      end), s.
      split; [by destruct exported|].
      split_and!; [done | congruence | done | done | done | | |].
      * eexists. split_and!;
          [apply list_lookup_insert_eq; by eapply lookup_lt_Some | done |].
        destruct reason as [e|v]; simpl; [done|]. by destruct (truthy v).
      * cbn [spans traces] in Hexp. intros Hn.
        assert (exported = Normal ()) as -> by (destruct exported; congruence).
        done.
      * cbn [spans traces] in Hexp. intros e He.
        assert (exported = Throw e) as -> by (destruct exported; congruence).
        done.
    + rewrite H. cbn [mbind option_bind]. eexists _, _, _, s.
      split_and!; [done | done | congruence | done..].
  - (* fulfilled *)
    unfold Span.update. rewrite Hs. cbn [mbind option_bind traces].
    rewrite Hobj3. cbn [mbind option_bind]. rewrite Hid.
    set (w4 := {| spans := <[S (length (spans w)) := Span.end_ s None endNow]>
                             (spans w3);
                  traces := traces w3 |}).
    assert (tracer_wf w4 T3) as Hwf4.
    { destruct (ci_wf _ _ Hinv3) as [Ha Hk Hst]. by split. }
    pose proof (finishTrace_cases w4 T3 id None finishNow stack heapUsed Hwf4)
      as H.
    destruct (JSMap.get (Tracer.activeTraces T3) id) as [tr|] eqn:Hget3.
    + destruct H as (obj & T' & exported & Hobj & _ & Hexp & -> & Hget & Hgone).
      cbn [mbind option_bind]. cbn [spans traces] in Hexp.
      destruct exported as [[]|e].
      * eexists _, T', _, s.
        split_and!; [done | done | congruence | done | done | done | | |].
        -- eexists. split_and!;
             [apply list_lookup_insert_eq; by eapply lookup_lt_Some | done..].
        -- done.
        -- intros e He. cbn [spans traces] in He. congruence.
      * unfold instrument_catch. cbn [traces].
        assert (∃ o, <[tr := Trace.finish obj None finishNow]> (traces w4)
                       !! length (traces w) = Some o
                     ∧ Trace.traceId o = id) as (o & Ho & Hoid).
        { change (traces w4) with (traces w3) in *.
          destruct (decide (tr = length (traces w))) as [->|Hne].
          - eexists. split;
              [apply list_lookup_insert_eq; by eapply lookup_lt_Some|].
            simpl. congruence.
          - exists obj3. split; [|done]. by rewrite list_lookup_insert_ne. }
        rewrite Ho. cbn [mbind option_bind]. rewrite Hoid.
        rewrite (finishTrace_not_found _ T' id _ finishNow stack heapUsed Hgone).
        cbn [mbind option_bind].
        eexists _, T', _, s.
        split_and!; [done | done | congruence | done | done | done | | |].
        -- eexists. split_and!;
             [apply list_lookup_insert_eq; by eapply lookup_lt_Some | done..].
        -- intros He. cbn [spans traces] in He. congruence.
        -- intros e' He. done.
    + rewrite H. cbn [mbind option_bind]. unfold instrument_catch.
      change (traces w4) with (traces w3). rewrite Hobj3.
      cbn [mbind option_bind]. rewrite Hid.
      rewrite (finishTrace_not_found w4 T3 id _ finishNow stack heapUsed Hget3).
      cbn [mbind option_bind]. eexists _, _, _, s.
      split_and!; [done | done | congruence | done..].
Qed.

Lemma instrument_witness :
  ∃ w' T' s,
    instrument (client_start demo_config) "getUserProfile"
               1 "0.5" 10 11 "0.25" 12 20 "0.75" 21
               [] (Some (ThrownError {| message := "boom" |})) 30 40
               100 1048576
    = Some (w', T', Rejected (ThrownError {| message := "boom" |}))
    ∧ Tracer.getTrace T' "trace-1-0.5" = Some 0%nat
    ∧ (Trace.status <$> traces w' !! 0%nat) = Some Trace.failed
    ∧ spans w' !! 1%nat = Some s
    ∧ Span.name s = "execution"
    ∧ Span.status s = Span.started.
Proof.
  destruct (instrument_outcomes demo_config []
              {| spans := []; traces := [] |} (Tracer.new demo_config)
              "getUserProfile" 1 "0.5" 10 11 "0.25" 12 20 "0.75" 21 eq_refl)
    as (w2 & T2 & Henter & Hact & Hleave).
  destruct (Hleave [] w2 T2 (Some (ThrownError {| message := "boom" |}))
              30 40 100%nat 1048576 eq_refl)
    as (w' & T' & res & s & Hins & Hs & Hname & Hspans & Hcase).
  vm_compute in Henter. injection Henter as <- <-.
  vm_compute in Hs. injection Hs as <-.
  vm_compute in Hins. injection Hins as <- <- <-.
  eexists _, _, _. split; [by vm_compute|]. split_and!; by vm_compute.
Defined.

(** The identifier is finished while the wrapper waits: the wrapper
    throws although [fn] succeeded. *)
Example instrument_masks_success :
  ∃ w' T',
    instrument (client_start demo_config) "getUserProfile"
               1 "0.5" 10 11 "0.25" 12 20 "0.75" 21
               [TracerFinishTrace "trace-1-0.5" None 25 100 1048576]
               None 30 40 100 1048576
    = Some (w', T',
            Rejected (ThrownError
                        {| message := "Trace not found: trace-1-0.5" |})).
Proof. eexists _, _. by vm_compute. Qed.

(** The root span is made its own child while the wrapper waits:
    [exportTrace] throws, and the wrapper throws ['Trace not found']
    although the identifier was active and [fn] succeeded; the trace is
    stored. *)
Example instrument_export_throws :
  ∃ w' T',
    instrument (client_start demo_config) "getUserProfile"
               1 "0.5" 10 11 "0.25" 12 20 "0.75" 21
               [OnSpan (Span.AddChild 0 0)] None 30 40 100 1048576
    = Some (w', T',
            Rejected (ThrownError
                        {| message := "Trace not found: trace-1-0.5" |}))
    ∧ Tracer.getTrace T' "trace-1-0.5" = Some 0%nat.
Proof. eexists _, _. split; by vm_compute. Qed.

(** [fn] is rejected with [undefined]: the trace is stored as
    ['completed']. *)
Example instrument_falsy_rejection :
  ∃ w' T',
    instrument (client_start demo_config) "getUserProfile"
               1 "0.5" 10 11 "0.25" 12 20 "0.75" 21
               [] (Some (ThrownValue VUndefined)) 30 40 100 1048576
    = Some (w', T', Rejected (ThrownValue VUndefined))
    ∧ (Trace.status <$> traces w' !! 0%nat) = Some Trace.completed.
Proof. eexists _, _. split; by vm_compute. Qed.
